(** * Drag-to-reorder engine of the Apple Home dashboard

    A shallow embedding of [src/utils/DragAndDropManager.ts],
    [src/utils/DashboardStateManager.ts], the registry subscription manager
    and the chip row ([AppleChips]), together with the properties the
    design document states about them and further properties of the code.

    Conventions.
    - A JavaScript number is an IEEE 754 binary64 value: the kernel's
      primitive [float], with its correctly rounded operations. [<], [<=]
      and [===] on numbers are [<?], [<=?] and [=?] (false on NaN, and
      [0 =? -0]). The one number read from JSON (an entity's
      [current_temperature]) is never NaN and is kept as a rational.
    - A JavaScript string is modelled by its UTF-8 encoding, one [ascii]
      per byte.
    - A value that may be [undefined]/[null] is an [option]; JavaScript
      truthiness of a string is [truthy] (present and non-empty).
    - Calls that leave the engine (persistence callbacks, haptics, camera
      reload, console, animation frames) are appended to an effect log. *)

From Stdlib Require Import QArith PrimFloat.
From stdpp Require Import base option list strings gmap.

Local Open Scope string_scope.
Local Open Scope nat_scope.
Local Open Scope list_scope.

(** ** JavaScript helpers *)

(** Truthiness of an optional string: [undefined], [null] and [""] are falsy. *)
Definition truthy (o : option string) : bool :=
  match o with
  | Some s => negb (String.eqb s "")
  | None => false
  end.

(** [a || b] on optional strings. *)
Definition js_or (a b : option string) : option string :=
  if truthy a then a else b.

(** The customization store is reached through a narrow interface; only the
    saved chip order is read back by the code modelled here. *)
Record CustomizationManager := {
  getSavedChipsOrder : list string
}.

(** ** DOM: elements, selectors, paths *)

Module Dom.

(** [element.dataset]: the data attributes the engine reads. *)
Record Dataset := {
  areaId : option string;
  sectionType : option string;
  entityId : option string;
  chipId : option string
}.

(** What the engine reads from or writes to one element. [width] and
    [height] are the layout box ([getBoundingClientRect]); the three
    [card_*]/[attr_*] fields and [has_reloadCameraImage] are the properties
    of an [apple-home-card] custom element. *)
Record Props := {
  tag : string;
  classes : list string;
  dataset : Dataset;
  visibility : string;
  width : float;
  height : float;
  card_entity : option string;
  card_entityId : option string;
  attr_entity : option string;
  has_reloadCameraImage : bool
}.

Inductive Element := El (p : Props) (ks : list Element).

Definition props (e : Element) : Props := match e with El p _ => p end.
Definition kids (e : Element) : list Element := match e with El _ ks => ks end.

Definition set_classes (cs : list string) (p : Props) : Props :=
  {| tag := tag p; classes := cs; dataset := dataset p; visibility := visibility p;
     width := width p; height := height p; card_entity := card_entity p;
     card_entityId := card_entityId p; attr_entity := attr_entity p;
     has_reloadCameraImage := has_reloadCameraImage p |}.

Definition set_visibility (v : string) (p : Props) : Props :=
  {| tag := tag p; classes := classes p; dataset := dataset p; visibility := v;
     width := width p; height := height p; card_entity := card_entity p;
     card_entityId := card_entityId p; attr_entity := attr_entity p;
     has_reloadCameraImage := has_reloadCameraImage p |}.

(** The size the layout gives an element. *)
Definition set_box (wd ht : float) (p : Props) : Props :=
  {| tag := tag p; classes := classes p; dataset := dataset p; visibility := visibility p;
     width := wd; height := ht; card_entity := card_entity p;
     card_entityId := card_entityId p; attr_entity := attr_entity p;
     has_reloadCameraImage := has_reloadCameraImage p |}.

(** [classList.add(c)] and [classList.remove(c)]. *)
Definition classList_add (c : string) (p : Props) : Props :=
  if decide (c ∈ classes p) then p else set_classes (classes p ++ [c]) p.

Definition classList_remove (c : string) (p : Props) : Props :=
  set_classes (filter (λ d, d ≠ c) (classes p)) p.

Definition on_props (f : Props → Props) (e : Element) : Element :=
  match e with El p ks => El (f p) ks end.

(** The selectors the engine uses: class and tag selectors, compounds
    ([.a.b]), lists ([a, b]) and [:not]. *)
Inductive Selector :=
| SClass (c : string)
| STag (t : string)
| SAnd (a b : Selector)
| SOr (a b : Selector)
| SNot (a : Selector).

Fixpoint matches (sel : Selector) (p : Props) : bool :=
  match sel with
  | SClass c => bool_decide (c ∈ classes p)
  | STag t => bool_decide (tag p = t)
  | SAnd a b => matches a p && matches b p
  | SOr a b => matches a p || matches b p
  | SNot a => negb (matches a p)
  end.

(** The selector does not mention class [c]. *)
Fixpoint avoids (c : string) (sel : Selector) : bool :=
  match sel with
  | SClass d => negb (String.eqb d c)
  | STag _ => true
  | SAnd a b | SOr a b => avoids c a && avoids c b
  | SNot a => avoids c a
  end.

(** Proper descendants of an element, in document order. *)
Fixpoint descendants (e : Element) : list Element :=
  match e with
  | El _ ks =>
      (fix go (l : list Element) : list Element :=
         match l with
         | [] => []
         | k :: l' => k :: descendants k ++ go l'
         end) ks
  end.

Definition querySelectorAll (sel : Selector) (e : Element) : list Element :=
  filter (λ d, matches sel (props d) = true) (descendants e).

Definition querySelector (sel : Selector) (e : Element) : option Element :=
  head (querySelectorAll sel e).

(** Apply [f] to an element and everything below it. *)
Fixpoint map_props (f : Props → Props) (e : Element) : Element :=
  match e with
  | El p ks => El (f p) (map_props f <$> ks)
  end.

(** [e.querySelectorAll(sel).forEach(d => f d)] for an [f] that rewrites
    the element's own record only. *)
Definition forEach_selected (sel : Selector) (f : Props → Props) (e : Element) : Element :=
  match e with
  | El p ks => El p (map_props (λ q, if matches sel q then f q else q) <$> ks)
  end.

(** An element is addressed by the child indices leading to it from the
    root of the document scope. *)
Definition Path := list nat.

Fixpoint get (q : Path) (t : Element) : option Element :=
  match q with
  | [] => Some t
  | i :: q' => kids t !! i ≫= get q'
  end.

Fixpoint update (q : Path) (g : Element → Element) (t : Element) : Element :=
  match q with
  | [] => g t
  | i :: q' => match t with El p ks => El p (alter (update q' g) i ks) end
  end.

(** Prefixes of a path, shortest first: the root, ..., the element. *)
Fixpoint prefixes (q : Path) : list Path :=
  [] :: match q with
        | [] => []
        | i :: q' => cons i <$> prefixes q'
        end.

Definition matches_at (sel : Selector) (t : Element) (q : Path) : bool :=
  match get q t with
  | Some e => matches sel (props e)
  | None => false
  end.

(** [element.closest(sel)]: the nearest inclusive ancestor matching. *)
Definition closest (sel : Selector) (t : Element) (q : Path) : option Path :=
  head (filter (λ a, matches_at sel t a = true) (reverse (prefixes q))).

(** Paths of the proper descendants of an element, in document order. *)
Fixpoint descendant_paths (e : Element) : list Path :=
  match e with
  | El _ ks =>
      (fix go (i : nat) (l : list Element) {struct l} : list Path :=
         match l with
         | [] => []
         | k :: l' => ([i] :: (cons i <$> descendant_paths k)) ++ go (S i) l'
         end) 0 ks
  end.

(** [querySelectorAll] and [querySelector] below the element at [base],
    returning references (paths from the root) instead of copies. *)
Definition querySelectorAll_at (sel : Selector) (t : Element) (base : Path) : list Path :=
  match get base t with
  | Some e =>
      (λ q, base ++ q) <$> filter (λ q, matches_at sel e q = true) (descendant_paths e)
  | None => []
  end.

Definition querySelector_at (sel : Selector) (t : Element) (base : Path) : option Path :=
  head (querySelectorAll_at sel t base).

Definition no_data : Dataset :=
  {| areaId := None; sectionType := None; entityId := None; chipId := None |}.

Definition mkProps (t : string) (cs : list string) (d : Dataset) : Props :=
  {| tag := t; classes := cs; dataset := d; visibility := ""; width := 0; height := 0;
     card_entity := None; card_entityId := None; attr_entity := None;
     has_reloadCameraImage := false |}.

Definition div (cs : list string) (d : Dataset) (ks : list Element) : Element :=
  El (mkProps "div" cs d) ks.

End Dom.

(** ** Chips: [AppleChips.applySavedChipsOrder] *)

Module Chips.

Record ChipData := {
  group : string;
  icon : string;
  groupName : string;
  statusText : string;
  iconColor : string;
  backgroundColor : string;
  textColor : string;
  enabled : bool;
  navigationPath : option string
}.

(** [chips.forEach(chip => chipMap.set(chip.group, chip))] *)
Definition chipMap_of (chips : list ChipData) : gmap string ChipData :=
  foldl (λ m chip, <[group chip := chip]> m) ∅ chips.

(** One iteration of [savedOrder.forEach]: push the chip of a known group
    and remember the group as used. *)
Definition saved_step (chipMap : gmap string ChipData)
    (acc : list ChipData * gset string) (g : string)
    : list ChipData * gset string :=
  match chipMap !! g with
  | Some chip => (acc.1 ++ [chip], {[g]} ∪ acc.2)
  | None => acc
  end.

(** One iteration of the final [chips.forEach]. *)
Definition rest_step (usedGroups : gset string)
    (acc : list ChipData) (chip : ChipData) : list ChipData :=
  if decide (group chip ∈ usedGroups) then acc else acc ++ [chip].

Definition applySavedChipsOrder (customizationManager : option CustomizationManager)
    (chips : list ChipData) : list ChipData :=
  match customizationManager with
  | None => chips
  | Some cm =>
      let savedOrder := getSavedChipsOrder cm in
      if Nat.eqb (length savedOrder) 0 then chips
      else
        let chipMap := chipMap_of chips in
        let '(orderedChips, usedGroups) :=
          foldl (saved_step chipMap) ([], ∅) savedOrder in
        foldl (rest_step usedGroups) orderedChips chips
  end.

(** The chip carrying group [g], searched from the front of the list. *)
Definition chip_of_group (chips : list ChipData) (g : string) : option ChipData :=
  head (filter (λ c, group c = g) chips).

(** The ordering the design describes: chips named by the saved order, in
    saved-order sequence, then every other chip in its original place. *)
Definition saved_then_rest (savedOrder : list string) (chips : list ChipData)
    : list ChipData :=
  omap (chip_of_group chips) savedOrder
    ++ filter (λ c, group c ∉ savedOrder) chips.

(** The markup [generateHTML] produces below the chips container (the
    [style] block first, then the section), as the elements the engine
    can see. *)
Definition render_chip (editMode : bool) (activeGroup : option string) (chip : ChipData)
    : Dom.Element :=
  Dom.El (Dom.mkProps "div" ("chip-wrapper" :: if editMode then ["edit-mode"] else [])
            {| Dom.areaId := None; Dom.sectionType := None;
               Dom.entityId := Some (group chip); Dom.chipId := Some (group chip) |})
    [Dom.div ("chip" :: if bool_decide (activeGroup = Some (group chip)) then ["active"] else [])
       Dom.no_data
       [Dom.div ["chip-icon"] Dom.no_data [Dom.El (Dom.mkProps "ha-icon" [] Dom.no_data) []];
        Dom.div ["chip-content"] Dom.no_data
          [Dom.El (Dom.mkProps "span" ["chip-group-name"] Dom.no_data) [];
           Dom.El (Dom.mkProps "span" ["chip-status"] Dom.no_data) []]]].

Definition generateHTML (rtl editMode : bool) (activeGroup : option string)
    (chips : list ChipData) : list Dom.Element :=
  [Dom.El (Dom.mkProps "style" [] Dom.no_data) [];
   Dom.div ["apple-chips-section"] Dom.no_data
     [Dom.div ["chips-carousel-container"; if rtl then "rtl" else "ltr"] Dom.no_data
        [Dom.div ["chips-grid"]
           {| Dom.areaId := Some "chips"; Dom.sectionType := Some "chips";
              Dom.entityId := None; Dom.chipId := None |}
           (render_chip editMode activeGroup <$> chips)]]].

Definition mkChip (g : string) : ChipData :=
  {| group := g; icon := "mdi:" +:+ g; groupName := g; statusText := "Off";
     iconColor := "#fff"; backgroundColor := "#333"; textColor := "#ffffff";
     enabled := true; navigationPath := Some g |}.

End Chips.

(** ** The document and the manager *)

Module Engine.
Import Dom.

(** A child of [document.body] created by the engine. The copied styles and
    cloned content of the drag visual are not modelled, only its identity,
    class and box: [n_left], [n_top], [n_width] and [n_height] are the
    numbers the engine has last written, followed by [px], to the node's
    [style.left], [style.top], [style.width] and [style.height]. *)
Record Node := {
  nid : nat;
  className : string;
  n_left : float;
  n_top : float;
  n_width : float;
  n_height : float
}.

Record StyleEl := { style_id : string }.

(** Calls that leave the engine. *)
Inductive Effect :=
| Vibrate (ms : nat)
| SaveOrder (area : string)
| UpdateCarouselOrderWithContext (area section : string) (order : list string) (ctx : string)
| SaveChipsOrder (order : list string)
| ReloadCameraImage
| RequestAnimationFrame (id : nat)
| CancelAnimationFrame (id : nat).

(** Process-wide state: the two static fields of [DragAndDropManager], the
    parts of [document] the engine touches, and the effect log.
    [offsetSize n] is the pair [(offsetWidth, offsetHeight)] the browser's
    layout reports for the node [n] of the body: integers near the size of
    its box, chosen by the browser. *)
Record World := mkWorld {
  globalStylesInjected : bool;
  isReordering : bool;
  head : list StyleEl;
  body : list Node;
  next_node : nat;
  userSelect : string;
  listeners : list (string * nat);
  can_vibrate : bool;
  next_frame : nat;
  tree : Element;
  effects : list Effect;
  offsetSize : Node → float * float
}.

Definition set_globalStylesInjected (b : bool) (w : World) : World :=
  mkWorld b (isReordering w) (head w) (body w) (next_node w) (userSelect w)
    (listeners w) (can_vibrate w) (next_frame w) (tree w) (effects w) (offsetSize w).

Definition set_isReordering (b : bool) (w : World) : World :=
  mkWorld (globalStylesInjected w) b (head w) (body w) (next_node w) (userSelect w)
    (listeners w) (can_vibrate w) (next_frame w) (tree w) (effects w) (offsetSize w).

Definition set_head (h : list StyleEl) (w : World) : World :=
  mkWorld (globalStylesInjected w) (isReordering w) h (body w) (next_node w)
    (userSelect w) (listeners w) (can_vibrate w) (next_frame w) (tree w) (effects w)
    (offsetSize w).

Definition set_body (b : list Node) (w : World) : World :=
  mkWorld (globalStylesInjected w) (isReordering w) (head w) b (next_node w)
    (userSelect w) (listeners w) (can_vibrate w) (next_frame w) (tree w) (effects w)
    (offsetSize w).

Definition set_next_node (n : nat) (w : World) : World :=
  mkWorld (globalStylesInjected w) (isReordering w) (head w) (body w) n
    (userSelect w) (listeners w) (can_vibrate w) (next_frame w) (tree w) (effects w)
    (offsetSize w).

Definition set_userSelect (u : string) (w : World) : World :=
  mkWorld (globalStylesInjected w) (isReordering w) (head w) (body w) (next_node w)
    u (listeners w) (can_vibrate w) (next_frame w) (tree w) (effects w) (offsetSize w).

Definition set_listeners (l : list (string * nat)) (w : World) : World :=
  mkWorld (globalStylesInjected w) (isReordering w) (head w) (body w) (next_node w)
    (userSelect w) l (can_vibrate w) (next_frame w) (tree w) (effects w) (offsetSize w).

Definition set_next_frame (n : nat) (w : World) : World :=
  mkWorld (globalStylesInjected w) (isReordering w) (head w) (body w) (next_node w)
    (userSelect w) (listeners w) (can_vibrate w) n (tree w) (effects w) (offsetSize w).

Definition set_tree (t : Element) (w : World) : World :=
  mkWorld (globalStylesInjected w) (isReordering w) (head w) (body w) (next_node w)
    (userSelect w) (listeners w) (can_vibrate w) (next_frame w) t (effects w)
    (offsetSize w).

Definition set_effects (l : list Effect) (w : World) : World :=
  mkWorld (globalStylesInjected w) (isReordering w) (head w) (body w) (next_node w)
    (userSelect w) (listeners w) (can_vibrate w) (next_frame w) (tree w) l (offsetSize w).

(** Another layout engine under the same document. *)
Definition set_offsetSize (f : Node → float * float) (w : World) : World :=
  mkWorld (globalStylesInjected w) (isReordering w) (head w) (body w) (next_node w)
    (userSelect w) (listeners w) (can_vibrate w) (next_frame w) (tree w) (effects w) f.

Definition emit (e : Effect) (w : World) : World :=
  set_effects (effects w ++ [e]) w.

(** [document.addEventListener(type, handler)]: a listener already
    registered for the same type is not added twice. *)
Definition addEventListener (type : string) (handler : nat) (w : World) : World :=
  if decide ((type, handler) ∈ listeners w) then w
  else set_listeners (listeners w ++ [(type, handler)]) w.

Definition removeEventListener (type : string) (handler : nat) (w : World) : World :=
  set_listeners (filter (λ l, l ≠ (type, handler)) (listeners w)) w.

(** [if ('vibrate' in navigator) navigator.vibrate(ms)] *)
Definition vibrate (ms : nat) (w : World) : World :=
  if can_vibrate w then emit (Vibrate ms) w else w.

(** [requestAnimationFrame]: hands out a fresh, non-zero request id. *)
Definition requestAnimationFrame (w : World) : nat * World :=
  (S (next_frame w), emit (RequestAnimationFrame (S (next_frame w)))
                       (set_next_frame (S (next_frame w)) w)).

Definition cancelAnimationFrame (id : nat) (w : World) : World :=
  emit (CancelAnimationFrame id) w.

(** The instance fields of a [DragAndDropManager]; calls of its
    [saveOrderCallback] appear in the effect log as [SaveOrder]. *)
Record Manager := {
  dragVisual : option nat;
  customizationManager : option CustomizationManager;
  context : string
}.

Definition set_dragVisual (v : option nat) (m : Manager) : Manager :=
  {| dragVisual := v; customizationManager := customizationManager m;
     context := context m |}.

Definition style_element_id : string := "sortable-drag-styles".

Definition injectGlobalStyles (w : World) : World :=
  if globalStylesInjected w then w
  else set_globalStylesInjected true
         (set_head (head w ++ [{| style_id := style_element_id |}]) w).

(** [new DragAndDropManager(saveOrderCallback, customizationManager, context)];
    an omitted context defaults to ["home"]. *)
Definition constructor (cm : option CustomizationManager) (ctx : option string)
    (w : World) : Manager * World :=
  ({| dragVisual := None; customizationManager := cm;
      context := default "home" ctx |},
   injectGlobalStyles w).

Definition is_clone (n : Node) : bool :=
  String.prefix "drag-visual-clone" (className n).

(** [parentNode.removeChild(node)] on the body. *)
Definition removeChild (id : nat) (b : list Node) : list Node :=
  filter (λ n, nid n ≠ id) b.

Definition removeDragVisual (m : Manager) (w : World) : Manager * World :=
  let w1 :=
    match dragVisual m with
    | Some id =>
        if bool_decide (id ∈ nid <$> body w)
        then set_body (removeChild id (body w)) w
        else w
    | None => w
    end in
  (set_dragVisual None m, w1).

Definition createDragVisual (element : Element) (x y : float) (isChip : bool)
    (m : Manager) (w : World) : Manager * World :=
  let '(m1, w1) := removeDragVisual m w in
  let rect_width := width (props element) in
  let rect_height := height (props element) in
  let node :=
    {| nid := next_node w1;
       className := "drag-visual-clone" +:+ (if isChip then " chip" else "");
       n_left := (x - rect_width / 2)%float;
       n_top := (y - rect_height / 2)%float;
       n_width := rect_width;
       n_height := rect_height |} in
  (set_dragVisual (Some (nid node)) m1,
   set_next_node (S (next_node w1)) (set_body (body w1 ++ [node]) w1)).

(** [style.left = (x - width / 2) + 'px'; style.top = (y - height / 2) + 'px'] *)
Definition move_node (width height x y : float) (n : Node) : Node :=
  {| nid := nid n; className := className n;
     n_left := (x - width / 2)%float; n_top := (y - height / 2)%float;
     n_width := n_width n; n_height := n_height n |}.

(** [width] and [height] are the visual's [offsetWidth] and [offsetHeight],
    read from the layout. *)
Definition updateDragVisual (x y : float) (m : Manager) (w : World) : World :=
  match dragVisual m with
  | None => w
  | Some id =>
      set_body
        ((λ n, if decide (nid n = id)
               then move_node (offsetSize w n).1 (offsetSize w n).2 x y n
               else n) <$> body w) w
  end.

Definition clones (w : World) : list Node := filter (λ n, is_clone n = true) (body w).

(** Number of style elements the engine has put into the head. *)
Definition injected_styles (w : World) : nat :=
  length (filter (λ s, style_id s = style_element_id) (head w)).

(** The layout of a browser that reports the size of a box rounded to
    the nearest whole pixel (for sizes from 0 up to 2^51; the scenarios
    below have no size half way between two whole pixels). *)
Definition round_px (v : float) : float := (v + 0x1p52 - 0x1p52)%float.

Definition rounded_size (n : Node) : float * float :=
  (round_px (n_width n), round_px (n_height n)).

Definition initial_world (t : Element) : World :=
  mkWorld false false [] [] 0 "" [] true 0 t [] rounded_size.

End Engine.

(** ** Drag sessions: what the three kinds of container share *)

Module Session.
Import Dom Engine.

(** A mouse or touch event: the pointer position, or the list of touch
    points. *)
Inductive PointerEvent :=
| MouseEvent (clientX clientY : float)
| TouchEvent (touches : list (float * float)).

(** The event the sensing library hands to [onStart] and [onEnd]: the
    dragged item, given by its index among the container's children, and
    the browser event that caused it, when there is one. *)
Record SortableEvent := {
  item : nat;
  originalEvent : option PointerEvent
}.

Definition item_path (container : Path) (evt : SortableEvent) : Path :=
  container ++ [item evt].

(** [touch?.clientX ?? mouse?.clientX ?? 0], and the same for [clientY]. *)
Definition start_position (evt : SortableEvent) : float * float :=
  match originalEvent evt with
  | Some (TouchEvent (t :: _)) => t
  | Some (MouseEvent x y) => (x, y)
  | _ => (0%float, 0%float)
  end.

(** The element behind [evt.item]; the library only reports items that
    exist, the empty element stands for a stale index. *)
Definition item_element (container : Path) (evt : SortableEvent) (w : World) : Element :=
  default (El (mkProps "div" [] no_data) []) (get (item_path container evt) (tree w)).

Definition sel_controls : Selector := SClass "entity-controls".
Definition sel_card_wrapper : Selector := SClass "entity-card-wrapper".
Definition sel_chip_wrapper : Selector := SClass "chip-wrapper".
Definition sel_home_card : Selector := STag "apple-home-card".
Definition sel_carousel_grid : Selector := SClass "carousel-grid".
Definition sel_chips_grid : Selector := SAnd (SClass "carousel-grid") (SClass "chips").

(** [evt.item.classList.add('dragging')] / [remove]. *)
Definition mark_dragging (container : Path) (evt : SortableEvent) (w : World) : World :=
  set_tree (update (item_path container evt) (on_props (classList_add "dragging")) (tree w)) w.

Definition unmark_dragging (container : Path) (evt : SortableEvent) (w : World) : World :=
  set_tree (update (item_path container evt) (on_props (classList_remove "dragging")) (tree w)) w.

(** [container.querySelectorAll('.entity-controls').forEach(ctrl =>
      ctrl.style.visibility = v)] *)
Definition set_controls_visibility (container : Path) (v : string) (w : World) : World :=
  set_tree (update container (forEach_selected sel_controls (set_visibility v)) (tree w)) w.

Definition reconnectSingleCameraManager (wrapper : Element) (w : World) : World :=
  match querySelector sel_home_card wrapper with
  | Some appleHomeCard =>
      if has_reloadCameraImage (props appleHomeCard) then emit ReloadCameraImage w else w
  | None => w
  end.

(** The identifier [updateCarouselConfiguration] reads from one wrapper. *)
Definition wrapper_entityId (wrapper : Element) : option string :=
  let entityId := entityId (dataset (props wrapper)) in
  let entityId :=
    if truthy entityId then entityId
    else match querySelector sel_home_card wrapper with
         | Some appleHomeCard =>
             js_or (js_or (card_entity (props appleHomeCard))
                          (card_entityId (props appleHomeCard)))
                   (attr_entity (props appleHomeCard))
         | None => entityId
         end in
  if truthy entityId then entityId else None.

Definition carousel_order (carousel : Element) : list string :=
  omap wrapper_entityId (querySelectorAll sel_card_wrapper carousel).

Definition updateCarouselConfiguration (carousel : Path) (m : Manager) (w : World) : World :=
  match get carousel (tree w) with
  | None => w
  | Some c =>
      let areaId := areaId (dataset (props c)) in
      let sectionType := sectionType (dataset (props c)) in
      if negb (truthy areaId) || negb (truthy sectionType) then w
      else
        let newOrder := carousel_order c in
        match customizationManager m with
        | Some _ =>
            emit (UpdateCarouselOrderWithContext (default "" areaId)
                    (default "" sectionType) newOrder (context m)) w
        | None => w
        end
  end.

(** The identifier [updateChipsOrder] reads from one wrapper:
    [dataset.chipId || dataset.entityId], kept when truthy. *)
Definition wrapper_chipId (wrapper : Element) : option string :=
  let chipId := js_or (chipId (dataset (props wrapper))) (entityId (dataset (props wrapper))) in
  if truthy chipId then chipId else None.

Definition chips_order (chipsGrid : Element) : list string :=
  omap wrapper_chipId (querySelectorAll sel_chip_wrapper chipsGrid).

Definition updateChipsOrder (chipsGrid : Path) (m : Manager) (w : World) : World :=
  match get chipsGrid (tree w) with
  | None => w
  | Some g =>
      let newOrder := chips_order g in
      match customizationManager m with
      | Some _ => emit (SaveChipsOrder newOrder) w
      | None => w
      end
  end.

(** The calls that hand an ordering to the host. *)
Definition is_persist (e : Effect) : bool :=
  match e with
  | SaveOrder _ | UpdateCarouselOrderWithContext _ _ _ _ | SaveChipsOrder _ => true
  | _ => false
  end.

Definition persist_calls (w : World) : list Effect :=
  filter (λ e, is_persist e = true) (effects w).

(** What a drop in a carousel, respectively in the chip row, hands to the
    host, as a function of the tree [t] at that moment and of the dragged
    item [q]. *)
Definition carousel_calls (t : Element) (q : Path) (m : Manager) : list Effect :=
  match closest sel_carousel_grid t q with
  | Some carousel =>
      match get carousel t with
      | Some c =>
          if truthy (areaId (dataset (props c))) && truthy (sectionType (dataset (props c)))
          then match customizationManager m with
               | Some _ =>
                   [UpdateCarouselOrderWithContext
                      (default "" (areaId (dataset (props c))))
                      (default "" (sectionType (dataset (props c))))
                      (carousel_order c) (context m)]
               | None => []
               end
          else []
      | None => []
      end
  | None => []
  end.

Definition chips_calls (t : Element) (q : Path) (m : Manager) : list Effect :=
  match closest sel_chips_grid t q with
  | Some chipsGrid =>
      match get chipsGrid t with
      | Some g =>
          match customizationManager m with
          | Some _ => [SaveChipsOrder (chips_order g)]
          | None => []
          end
      | None => []
      end
  | None => []
  end.

(** How the sensing library leaves the container when the gesture is
    over: a drop has moved the children around, a cancelled gesture has
    put them back where they were. Either way the library then fires
    [onEnd]. *)
Inductive Outcome :=
| Dropped (reorder : list Element → list Element)
| Cancelled.

Definition library_settle (container : Path) (o : Outcome) (w : World) : World :=
  match o with
  | Dropped reorder =>
      set_tree (update container (λ e, El (props e) (reorder (kids e))) (tree w)) w
  | Cancelled => w
  end.

(** What a drop does to the children of a container: the library takes
    the dragged child out of its place [i] and puts it back at place
    [j]. *)
Definition move_child {A} (i j : nat) (ks : list A) : list A :=
  match ks !! i with
  | Some k => take j (delete i ks) ++ k :: drop j (delete i ks)
  | None => ks
  end.

(** The order of the items of a container, as their data attributes. *)
Definition dom_order (draggable : Selector) (container : Path) (w : World) : list Dataset :=
  match get container (tree w) with
  | Some c => (λ e, dataset (props e)) <$> querySelectorAll draggable c
  | None => []
  end.

(** What pointer moves and animation frames leave alone: everything
    except the position of the clone, the scroll state and the
    animation-frame requests. *)
Definition quiet (w w' : World) : Prop :=
  globalStylesInjected w' = globalStylesInjected w
  ∧ isReordering w' = isReordering w
  ∧ head w' = head w
  ∧ nid <$> body w' = nid <$> body w
  ∧ className <$> body w' = className <$> body w
  ∧ next_node w' = next_node w
  ∧ userSelect w' = userSelect w
  ∧ listeners w' = listeners w
  ∧ tree w' = tree w
  ∧ persist_calls w' = persist_calls w.

(** An element without the marks a drag leaves on it and below it: the
    [dragging] class and the inline visibility of controls. *)
Definition transient_free (p : Props) : Props :=
  set_visibility "" (classList_remove "dragging" p).

Definition settled (e : Element) : Element := map_props transient_free e.

(** The [.entity-controls] elements of a container. *)
Definition controls_of (container : Path) (w : World) : list Element :=
  match get container (tree w) with
  | Some c => querySelectorAll sel_controls c
  | None => []
  end.

(** The class the injected stylesheet keys on: its rule
    [.dragging .entity-controls] hides every control below an element
    that carries it, whatever the control's inline style says. *)
Definition sel_dragging : Selector := SClass "dragging".

(** The record of an element as the markup gives it: without the size
    the layout has assigned and without the marks of a drag. *)
Definition bare (p : Props) : Props := set_box 0 0 (transient_free p).

Definition markup (e : Element) : Element := map_props bare e.

(** The element at [container] is the chips container as
    [AppleChips.render] leaves it: its children are what [generateHTML]
    produces for [chips], whatever the layout and whatever marks a drag
    has left on them. *)
Definition rendered_at (rtl editMode : bool) (activeGroup : option string)
    (chips : list Chips.ChipData) (container : Path) (t : Element) : Prop :=
  kids <$> get container (markup t)
  = Some (Chips.generateHTML rtl editMode activeGroup chips).

End Session.

(** ** Grid containers: [setupGridSortable] *)

Module Grid.
Import Dom Engine Session.

(** The variables the handlers of one grid close over. [onMove] is the
    identity of the pointer-move listener function. The manager's table
    of sensing-library instances ([sortableInstances]) is kept apart, in
    [Attach]. *)
Record Closure := {
  gridContainer : Path;
  areaId : option string;
  onMove : nat;
  lastX : float;
  lastY : float
}.

Definition set_last (x y : float) (c : Closure) : Closure :=
  {| gridContainer := gridContainer c; areaId := areaId c; onMove := onMove c;
     lastX := x; lastY := y |}.

Definition setupGridSortable (gridContainer : Path) (onMove : nat) (w : World) : Closure :=
  {| gridContainer := gridContainer;
     areaId := get gridContainer (tree w) ≫= λ e, Dom.areaId (dataset (props e));
     onMove := onMove; lastX := 0; lastY := 0 |}.

(** The pointer-move listener. Reading [e.touches[0]] of a touch event
    without touches throws before anything is written. *)
Definition handle_move (e : PointerEvent) (c : Closure) (m : Manager) (w : World)
    : Closure * World :=
  match e with
  | TouchEvent [] => (c, w)
  | TouchEvent ((x, y) :: _) | MouseEvent x y =>
      (set_last x y c, updateDragVisual x y m w)
  end.

Definition onStart (evt : SortableEvent) (c : Closure) (m : Manager) (w : World)
    : Closure * Manager * World :=
  let w := set_isReordering true w in
  let w := mark_dragging (gridContainer c) evt w in
  let w := set_controls_visibility (gridContainer c) "hidden" w in
  let '(x, y) := start_position evt in
  let c := set_last x y c in
  let '(m, w) := createDragVisual (item_element (gridContainer c) evt w) x y false m w in
  let w := addEventListener "mousemove" (onMove c) w in
  let w := addEventListener "touchmove" (onMove c) w in
  let w := vibrate 50 w in
  let w := set_userSelect "none" w in
  (c, m, w).

Definition onEnd (evt : SortableEvent) (c : Closure) (m : Manager) (w : World)
    : Closure * Manager * World :=
  let w := set_isReordering false w in
  let w := unmark_dragging (gridContainer c) evt w in
  let w := set_controls_visibility (gridContainer c) "" w in
  let '(m, w) := removeDragVisual m w in
  let w := removeEventListener "mousemove" (onMove c) w in
  let w := removeEventListener "touchmove" (onMove c) w in
  let w := set_userSelect "" w in
  let w := vibrate 30 w in
  let w := reconnectSingleCameraManager (item_element (gridContainer c) evt w) w in
  let w := if truthy (areaId c) then emit (SaveOrder (default "" (areaId c))) w else w in
  (c, m, w).

Definition moves (es : list PointerEvent) (c : Closure) (m : Manager) (w : World)
    : Closure * World :=
  foldl (λ '(c, w) e, handle_move e c m w) (c, w) es.

(** One whole gesture on a grid. *)
Definition session (start : SortableEvent) (es : list PointerEvent) (o : Outcome)
    (finish : SortableEvent) (c : Closure) (m : Manager) (w : World)
    : Closure * Manager * World :=
  let '(c, m, w) := onStart start c m w in
  let '(c, w) := moves es c m w in
  let w := library_settle (gridContainer c) o w in
  onEnd finish c m w.

End Grid.

(** ** Edge auto-scroll: the scroll container *)

Module Scroll.

(** The scrollable ancestor as the handlers see it: the horizontal extent
    of its bounding box and its scroll metrics. *)
Record ScrollBox := {
  rect_left : float;
  rect_right : float;
  scrollWidth : float;
  clientWidth : float;
  scrollLeft : float
}.

Definition set_scrollLeft (v : float) (b : ScrollBox) : ScrollBox :=
  {| rect_left := rect_left b; rect_right := rect_right b;
     scrollWidth := scrollWidth b; clientWidth := clientWidth b; scrollLeft := v |}.


(** A distance to a boundary lies inside the edge zone. *)
Definition in_zone (scrollZone dist : float) : bool :=
  (dist <? scrollZone)%float && (0 <=? dist)%float.

Definition canScrollLeft (b : ScrollBox) : bool := (0 <? scrollLeft b)%float.

Definition canScrollRight (b : ScrollBox) : bool :=
  (scrollLeft b <? scrollWidth b - clientWidth b)%float.


(** The number [k / 64]: a distance of [k] sixty-fourths of a pixel. *)
Fixpoint count (k : nat) : float :=
  match k with
  | O => 0%float
  | S k' => (count k' + 1)%float
  end.



(** A scroll container 400 wide, scrolled to the middle of its content. *)
Definition sample_box : ScrollBox :=
  {| rect_left := 0; rect_right := 400; scrollWidth := 800; clientWidth := 400;
     scrollLeft := 200 |}.

(** A scroll container narrower than two edge zones, so that the zones
    overlap in its middle. *)
Definition narrow_box : ScrollBox :=
  {| rect_left := 0; rect_right := 150; scrollWidth := 600; clientWidth := 150;
     scrollLeft := 100 |}.

(** An input of a running session: a pointer move, or the browser running
    the pending animation-frame callback. *)
Inductive Input :=
| Pointer (e : Session.PointerEvent)
| Frame.

End Scroll.

(** ** Card carousels: [setupCarouselSortable] *)

Module Carousel.
Import Dom Engine Session Scroll.

Record Closure := {
  carouselGrid : Path;
  scrollContainer : option ScrollBox;
  onMove : nat;
  lastX : float;
  lastY : float;
  currentScrollSpeed : float;
  scrollAnimationId : option nat
}.

Definition set_last (x y : float) (c : Closure) : Closure :=
  {| carouselGrid := carouselGrid c; scrollContainer := scrollContainer c;
     onMove := onMove c; lastX := x; lastY := y;
     currentScrollSpeed := currentScrollSpeed c;
     scrollAnimationId := scrollAnimationId c |}.

Definition set_currentScrollSpeed (v : float) (c : Closure) : Closure :=
  {| carouselGrid := carouselGrid c; scrollContainer := scrollContainer c;
     onMove := onMove c; lastX := lastX c; lastY := lastY c;
     currentScrollSpeed := v; scrollAnimationId := scrollAnimationId c |}.

Definition set_scrollAnimationId (a : option nat) (c : Closure) : Closure :=
  {| carouselGrid := carouselGrid c; scrollContainer := scrollContainer c;
     onMove := onMove c; lastX := lastX c; lastY := lastY c;
     currentScrollSpeed := currentScrollSpeed c; scrollAnimationId := a |}.

Definition set_scrollContainer (b : option ScrollBox) (c : Closure) : Closure :=
  {| carouselGrid := carouselGrid c; scrollContainer := b;
     onMove := onMove c; lastX := lastX c; lastY := lastY c;
     currentScrollSpeed := currentScrollSpeed c;
     scrollAnimationId := scrollAnimationId c |}.

(** [scrollContainer] is what [carouselGrid.closest('.carousel-container')]
    found, with its layout. *)
Definition setupCarouselSortable (carouselGrid : Path) (scrollContainer : option ScrollBox)
    (onMove : nat) : Closure :=
  {| carouselGrid := carouselGrid; scrollContainer := scrollContainer;
     onMove := onMove; lastX := 0; lastY := 0;
     currentScrollSpeed := 0; scrollAnimationId := None |}.

Definition animateScroll (c : Closure) (w : World) : Closure * World :=
  match scrollContainer c with
  | None => (set_scrollAnimationId None c, w)
  | Some box =>
      if (currentScrollSpeed c =? 0)%float then (set_scrollAnimationId None c, w)
      else
        let maxScroll := (scrollWidth box - clientWidth box)%float in
        let currentScroll := scrollLeft box in
        if ((currentScrollSpeed c <? 0)%float && (currentScroll <=? 0)%float)
           || ((0 <? currentScrollSpeed c)%float && (maxScroll <=? currentScroll)%float)
        then (set_scrollAnimationId None (set_currentScrollSpeed 0 c), w)
        else
          let c := set_scrollContainer
                     (Some (set_scrollLeft (scrollLeft box + currentScrollSpeed c)%float box)) c in
          let '(id, w) := requestAnimationFrame w in
          (set_scrollAnimationId (Some id) c, w)
  end.

Definition updateScrollSpeed (x : float) (c : Closure) (w : World) : Closure * World :=
  match scrollContainer c with
  | None => (c, w)
  | Some box =>
      let maxScroll := (scrollWidth box - clientWidth box)%float in
      let currentScroll := scrollLeft box in
      let scrollZone := 100%float in
      let maxSpeed := 15%float in
      let minSpeed := 3%float in
      let distFromLeft := (x - rect_left box)%float in
      let distFromRight := (rect_right box - x)%float in
      let canScrollLeft := (0 <? currentScroll)%float in
      let canScrollRight := (currentScroll <? maxScroll)%float in
      let newSpeed :=
        if (distFromLeft <? scrollZone)%float && (0 <=? distFromLeft)%float && canScrollLeft then
          let ratio := (1 - distFromLeft / scrollZone)%float in
          (- (minSpeed + ratio * (maxSpeed - minSpeed)))%float
        else if (distFromRight <? scrollZone)%float && (0 <=? distFromRight)%float && canScrollRight then
          let ratio := (1 - distFromRight / scrollZone)%float in
          (minSpeed + ratio * (maxSpeed - minSpeed))%float
        else 0%float in
      if (0.5 <? abs (newSpeed - currentScrollSpeed c))%float
         || ((newSpeed =? 0)%float && negb (currentScrollSpeed c =? 0)%float)
      then
        let c := set_currentScrollSpeed newSpeed c in
        if negb (currentScrollSpeed c =? 0)%float && bool_decide (scrollAnimationId c = None)
        then
          let '(id, w) := requestAnimationFrame w in
          (set_scrollAnimationId (Some id) c, w)
        else (c, w)
      else (c, w)
  end.

Definition stopScrolling (c : Closure) (w : World) : Closure * World :=
  let c := set_currentScrollSpeed 0 c in
  match scrollAnimationId c with
  | Some id => (set_scrollAnimationId None c, cancelAnimationFrame id w)
  | None => (c, w)
  end.

Definition handle_move (e : PointerEvent) (c : Closure) (m : Manager) (w : World)
    : Closure * World :=
  match e with
  | TouchEvent [] => (c, w)
  | TouchEvent ((x, y) :: _) | MouseEvent x y =>
      let c := set_last x y c in
      let w := updateDragVisual x y m w in
      updateScrollSpeed x c w
  end.

Definition onStart (evt : SortableEvent) (c : Closure) (m : Manager) (w : World)
    : Closure * Manager * World :=
  let w := set_isReordering true w in
  let w := mark_dragging (carouselGrid c) evt w in
  let w := set_controls_visibility (carouselGrid c) "hidden" w in
  let '(x, y) := start_position evt in
  let c := set_last x y c in
  let '(m, w) := createDragVisual (item_element (carouselGrid c) evt w) x y false m w in
  let w := addEventListener "mousemove" (onMove c) w in
  let w := addEventListener "touchmove" (onMove c) w in
  let w := vibrate 50 w in
  let w := set_userSelect "none" w in
  (c, m, w).

Definition onEnd (evt : SortableEvent) (c : Closure) (m : Manager) (w : World)
    : Closure * Manager * World :=
  let w := unmark_dragging (carouselGrid c) evt w in
  let '(c, w) := stopScrolling c w in
  let w := set_controls_visibility (carouselGrid c) "" w in
  let '(m, w) := removeDragVisual m w in
  let w := removeEventListener "mousemove" (onMove c) w in
  let w := removeEventListener "touchmove" (onMove c) w in
  let w := set_userSelect "" w in
  let w := vibrate 30 w in
  let w := reconnectSingleCameraManager (item_element (carouselGrid c) evt w) w in
  let w :=
    match closest sel_carousel_grid (tree w) (item_path (carouselGrid c) evt) with
    | Some carousel => updateCarouselConfiguration carousel m w
    | None => w
    end in
  (c, m, w).

Definition step (i : Input) (c : Closure) (m : Manager) (w : World) : Closure * World :=
  match i with
  | Pointer e => handle_move e c m w
  | Frame =>
      match scrollAnimationId c with
      | Some _ => animateScroll c w
      | None => (c, w)
      end
  end.

Definition run (ins : list Input) (c : Closure) (m : Manager) (w : World) : Closure * World :=
  foldl (λ '(c, w) i, step i c m w) (c, w) ins.

Definition session (start : SortableEvent) (ins : list Input) (o : Outcome)
    (finish : SortableEvent) (c : Closure) (m : Manager) (w : World)
    : Closure * Manager * World :=
  let '(c, m, w) := onStart start c m w in
  let '(c, w) := run ins c m w in
  let w := library_settle (carouselGrid c) o w in
  onEnd finish c m w.

End Carousel.

(** ** The chip row: [enableChipsCarousel] *)

Module ChipsRow.
Import Dom Engine Session Scroll.

Record Closure := {
  chipsCarousel : Path;
  scrollContainer : option ScrollBox;
  onMove : nat;
  lastX : float;
  lastY : float;
  scrollSpeed : float;
  scrollAnimationId : option nat
}.

Definition set_last (x y : float) (c : Closure) : Closure :=
  {| chipsCarousel := chipsCarousel c; scrollContainer := scrollContainer c;
     onMove := onMove c; lastX := x; lastY := y;
     scrollSpeed := scrollSpeed c; scrollAnimationId := scrollAnimationId c |}.

Definition set_scrollSpeed (v : float) (c : Closure) : Closure :=
  {| chipsCarousel := chipsCarousel c; scrollContainer := scrollContainer c;
     onMove := onMove c; lastX := lastX c; lastY := lastY c;
     scrollSpeed := v; scrollAnimationId := scrollAnimationId c |}.

Definition set_scrollAnimationId (a : option nat) (c : Closure) : Closure :=
  {| chipsCarousel := chipsCarousel c; scrollContainer := scrollContainer c;
     onMove := onMove c; lastX := lastX c; lastY := lastY c;
     scrollSpeed := scrollSpeed c; scrollAnimationId := a |}.

Definition set_scrollContainer (b : option ScrollBox) (c : Closure) : Closure :=
  {| chipsCarousel := chipsCarousel c; scrollContainer := b;
     onMove := onMove c; lastX := lastX c; lastY := lastY c;
     scrollSpeed := scrollSpeed c; scrollAnimationId := scrollAnimationId c |}.

(** [enableChipsCarousel] attaches to the first [.chips-grid] below the
    container, when there is one; [scrollContainer] is what
    [chipsCarousel.closest('.carousel-container, .chips-carousel-container')]
    found, with its layout. *)
Definition enableChipsCarousel (container : Path) (scrollContainer : option ScrollBox)
    (onMove : nat) (w : World) : option Closure :=
  match querySelector_at (SClass "chips-grid") (tree w) container with
  | None => None
  | Some chipsCarousel =>
      Some {| chipsCarousel := chipsCarousel; scrollContainer := scrollContainer;
              onMove := onMove; lastX := 0; lastY := 0;
              scrollSpeed := 0; scrollAnimationId := None |}
  end.

(** The closure is the one of the chip row [enableChipsCarousel] attaches
    to below [container] in the tree [t]. *)
Definition attached_below (container : Path) (c : Closure) (t : Element) : Prop :=
  querySelector_at (SClass "chips-grid") t container = Some (chipsCarousel c).

Definition smoothScroll (c : Closure) (w : World) : Closure * World :=
  match scrollContainer c with
  | Some box =>
      if negb (scrollSpeed c =? 0)%float then
        let maxScroll := (scrollWidth box - clientWidth box)%float in
        let currentScroll := scrollLeft box in
        if ((scrollSpeed c <? 0)%float && (currentScroll <=? 0)%float)
           || ((0 <? scrollSpeed c)%float && (maxScroll <=? currentScroll)%float)
        then (set_scrollAnimationId None (set_scrollSpeed 0 c), w)
        else
          let c := set_scrollContainer
                     (Some (set_scrollLeft (scrollLeft box + scrollSpeed c)%float box)) c in
          let '(id, w) := requestAnimationFrame w in
          (set_scrollAnimationId (Some id) c, w)
      else (set_scrollAnimationId None c, w)
  | None => (set_scrollAnimationId None c, w)
  end.

Definition updateScrollSpeed (x : float) (c : Closure) (w : World) : Closure * World :=
  match scrollContainer c with
  | None => (c, w)
  | Some box =>
      let maxScroll := (scrollWidth box - clientWidth box)%float in
      let currentScroll := scrollLeft box in
      let scrollZone := 80%float in
      let maxSpeed := 12%float in
      let minSpeed := 2%float in
      let distFromLeft := (x - rect_left box)%float in
      let distFromRight := (rect_right box - x)%float in
      let canScrollLeft := (0 <? currentScroll)%float in
      let canScrollRight := (currentScroll <? maxScroll)%float in
      let c :=
        if (distFromLeft <? scrollZone)%float && (0 <=? distFromLeft)%float && canScrollLeft then
          let ratio := (1 - distFromLeft / scrollZone)%float in
          set_scrollSpeed (- (minSpeed + ratio * (maxSpeed - minSpeed)))%float c
        else if (distFromRight <? scrollZone)%float && (0 <=? distFromRight)%float && canScrollRight then
          let ratio := (1 - distFromRight / scrollZone)%float in
          set_scrollSpeed (minSpeed + ratio * (maxSpeed - minSpeed))%float c
        else set_scrollSpeed 0 c in
      if negb (scrollSpeed c =? 0)%float && bool_decide (scrollAnimationId c = None)
      then
        let '(id, w) := requestAnimationFrame w in
        (set_scrollAnimationId (Some id) c, w)
      else (c, w)
  end.

Definition stopScrolling (c : Closure) (w : World) : Closure * World :=
  let c := set_scrollSpeed 0 c in
  match scrollAnimationId c with
  | Some id => (set_scrollAnimationId None c, cancelAnimationFrame id w)
  | None => (c, w)
  end.

Definition handle_move (e : PointerEvent) (c : Closure) (m : Manager) (w : World)
    : Closure * World :=
  match e with
  | TouchEvent [] => (c, w)
  | TouchEvent ((x, y) :: _) | MouseEvent x y =>
      let c := set_last x y c in
      let w := updateDragVisual x y m w in
      updateScrollSpeed x c w
  end.

Definition onStart (evt : SortableEvent) (c : Closure) (m : Manager) (w : World)
    : Closure * Manager * World :=
  let w := set_isReordering true w in
  let w := mark_dragging (chipsCarousel c) evt w in
  let '(x, y) := start_position evt in
  let c := set_last x y c in
  let '(m, w) := createDragVisual (item_element (chipsCarousel c) evt w) x y true m w in
  let w := addEventListener "mousemove" (onMove c) w in
  let w := addEventListener "touchmove" (onMove c) w in
  let w := vibrate 50 w in
  let w := set_userSelect "none" w in
  (c, m, w).

Definition onEnd (evt : SortableEvent) (c : Closure) (m : Manager) (w : World)
    : Closure * Manager * World :=
  let w := set_isReordering false w in
  let w := unmark_dragging (chipsCarousel c) evt w in
  let '(c, w) := stopScrolling c w in
  let '(m, w) := removeDragVisual m w in
  let w := removeEventListener "mousemove" (onMove c) w in
  let w := removeEventListener "touchmove" (onMove c) w in
  let w := set_userSelect "" w in
  let w := vibrate 30 w in
  let w :=
    match closest sel_chips_grid (tree w) (item_path (chipsCarousel c) evt) with
    | Some chipsGrid => updateChipsOrder chipsGrid m w
    | None => w
    end in
  (c, m, w).

Definition step (i : Input) (c : Closure) (m : Manager) (w : World) : Closure * World :=
  match i with
  | Pointer e => handle_move e c m w
  | Frame =>
      match scrollAnimationId c with
      | Some _ => smoothScroll c w
      | None => (c, w)
      end
  end.

Definition run (ins : list Input) (c : Closure) (m : Manager) (w : World) : Closure * World :=
  foldl (λ '(c, w) i, step i c m w) (c, w) ins.

Definition session (start : SortableEvent) (ins : list Input) (o : Outcome)
    (finish : SortableEvent) (c : Closure) (m : Manager) (w : World)
    : Closure * Manager * World :=
  let '(c, m, w) := onStart start c m w in
  let '(c, w) := run ins c m w in
  let w := library_settle (chipsCarousel c) o w in
  onEnd finish c m w.

End ChipsRow.


(** ** Listener notification: [DashboardStateManager] and
       [RegistrySubscriptionManager] *)

Module Notify.

Section Listeners.

(** [Args] is what a listener is called with, [Consumer] the state of the
    code that registered the listeners, [Error] what a listener may throw.
    A listener acts on the consumer's state and either returns or throws;
    it has no access to the manager's listener set. *)
Context {Args Consumer Error : Type}.

Inductive Completion :=
| Returned
| Threw (e : Error).

Record Listener := {
  lid : nat;
  call : Args → Consumer → Consumer * Completion
}.

(** [listeners.add(callback)], [listeners.delete(callback)] on a [Set]
    that iterates in insertion order. *)
Definition addListener (callback : Listener) (listeners : list Listener) : list Listener :=
  if bool_decide (lid callback ∈ lid <$> listeners) then listeners
  else listeners ++ [callback].

Definition removeListener (callback : Listener) (listeners : list Listener) : list Listener :=
  filter (λ l, lid l ≠ lid callback) listeners.

(** One turn of [listeners.forEach(callback => { try { callback(..) }
    catch (error) { console.error(message, error) } })]; the console is
    the list of [console.error(message, error)] calls. *)
Definition notify_one (message : string) (args : Args)
    (st : Consumer * list (string * Error)) (callback : Listener)
    : Consumer * list (string * Error) :=
  match call callback args st.1 with
  | (c, Returned) => (c, st.2)
  | (c, Threw error) => (c, st.2 ++ [(message, error)])
  end.

Definition notify (message : string) (listeners : list Listener) (args : Args)
    (st : Consumer * list (string * Error)) : Consumer * list (string * Error) :=
  foldl (notify_one message args) st listeners.

(** The errors the listeners throw when run one after the other. *)
Fixpoint thrown (listeners : list Listener) (args : Args) (c : Consumer) : list Error :=
  match listeners with
  | [] => []
  | l :: ls =>
      match call l args c with
      | (c', Returned) => thrown ls args c'
      | (c', Threw e) => e :: thrown ls args c'
      end
  end.

(** The consumer's state after running every listener, whatever each one
    completes with. *)
Definition run_all (listeners : list Listener) (args : Args) (c : Consumer) : Consumer :=
  foldl (λ c l, (call l args c).1) c listeners.

End Listeners.

Arguments Listener : clear implicits.
Arguments Completion : clear implicits.

(** [DashboardStateManager]: the fields the notification path uses. *)
Module Dashboard.

Record State {Consumer Error : Type} := {
  isActive : bool;
  currentDashboardKey : option string;
  listeners : list (Listener (bool * option string) Consumer Error)
}.
Arguments State : clear implicits.

Definition state_listener_message : string :=
  "Apple Home Dashboard: Error in state listener:".

Definition notifyListeners {Consumer Error} (s : State Consumer Error)
    (isActive : bool) (dashboardKey : option string)
    (st : Consumer * list (string * Error)) : Consumer * list (string * Error) :=
  notify state_listener_message (listeners s) (isActive, dashboardKey) st.

Definition setDashboardActive {Consumer Error} (dashboardKey : string)
    (s : State Consumer Error) (st : Consumer * list (string * Error))
    : State Consumer Error * (Consumer * list (string * Error)) :=
  let wasActive := isActive s in
  let previousKey := currentDashboardKey s in
  let s' := {| isActive := true; currentDashboardKey := Some dashboardKey;
               listeners := listeners s |} in
  if negb wasActive || negb (bool_decide (previousKey = Some dashboardKey))
  then (s', notifyListeners s' true (Some dashboardKey) st)
  else (s', st).

Definition setDashboardInactive {Consumer Error}
    (s : State Consumer Error) (st : Consumer * list (string * Error))
    : State Consumer Error * (Consumer * list (string * Error)) :=
  let wasActive := isActive s in
  let s' := {| isActive := false; currentDashboardKey := None;
               listeners := listeners s |} in
  if wasActive then (s', notifyListeners s' false None st) else (s', st).

End Dashboard.

(** [RegistrySubscriptionManager]: the change event and its listeners. *)
Module Registry.

Inductive ChangeType := entity | device | area | entity_state.
Inductive ChangeAction := create | update | remove.

Record RegistryChangeEvent := {
  type : ChangeType;
  action : ChangeAction;
  data : option string
}.

Definition registry_listener_message : string :=
  "Apple Home Dashboard: Error in registry change listener:".

Definition notifyListeners {Consumer Error}
    (listeners : list (Listener RegistryChangeEvent Consumer Error))
    (event : RegistryChangeEvent)
    (st : Consumer * list (string * Error)) : Consumer * list (string * Error) :=
  notify registry_listener_message listeners event st.

End Registry.

End Notify.

(** ** Scenarios: several managers on one document *)

Module Scenario.
Import Dom Engine.

(** Construct one manager per argument pair, in order. *)
Definition construct_all (args : list (option CustomizationManager * option string))
    (w : World) : list Manager * World :=
  foldl (λ st a, let '(m, w) := constructor a.1 a.2 st.2 in (st.1 ++ [m], w)) ([], w) args.

(** Calls of [createDragVisual] and [removeDragVisual] on the [i]-th
    manager. *)
Inductive VisualOp :=
| CreateVisual (i : nat) (element : Element) (x y : float) (isChip : bool)
| RemoveVisual (i : nat).

Definition visual_step (st : list Manager * World) (op : VisualOp) : list Manager * World :=
  match op with
  | CreateVisual i element x y isChip =>
      match st.1 !! i with
      | Some m =>
          let '(m', w') := createDragVisual element x y isChip m st.2 in
          (<[i := m']> st.1, w')
      | None => st
      end
  | RemoveVisual i =>
      match st.1 !! i with
      | Some m =>
          let '(m', w') := removeDragVisual m st.2 in
          (<[i := m']> st.1, w')
      | None => st
      end
  end.

Definition visual_run (ops : list VisualOp) (st : list Manager * World)
    : list Manager * World :=
  foldl visual_step st ops.

(** What holds of the managers and the body between any two calls: the
    nodes of the body have distinct identities, all issued already; they
    are exactly the nodes some manager refers to; no two managers refer to
    the same node; and all of them are drag-visual clones. *)
Definition visual_inv (st : list Manager * World) : Prop :=
  NoDup (nid <$> body st.2)
  ∧ (∀ id, id ∈ nid <$> body st.2
           ↔ ∃ i m, st.1 !! i = Some m ∧ dragVisual m = Some id)
  ∧ (∀ i j m m' id, st.1 !! i = Some m → st.1 !! j = Some m' →
       dragVisual m = Some id → dragVisual m' = Some id → i = j)
  ∧ (∀ id, id ∈ nid <$> body st.2 → id < next_node st.2)
  ∧ Forall (λ n, is_clone n = true) (body st.2).

(** A small dashboard: a grid of three cards for the kitchen, a grid
    without an area id, a card carousel inside its scroll container, and
    the chips container with the markup [generateHTML] renders. *)
Definition card (id : string) : Element :=
  El (mkProps "div" ["entity-card-wrapper"]
        {| areaId := None; sectionType := None; entityId := Some id; chipId := None |})
    [div ["entity-controls"] no_data [];
     El (mkProps "apple-home-card" [] no_data) []].

Definition sample_tree : Element :=
  div ["dashboard"] no_data
    [div ["area-entities"]
       {| areaId := Some "kitchen"; sectionType := None; entityId := None; chipId := None |}
       [card "light.a"; card "light.b"; card "light.c"];
     div ["room-group-grid"] no_data [card "switch.x"; card "switch.y"];
     div ["carousel-container"] no_data
       [div ["carousel-grid"]
          {| areaId := Some "kitchen"; sectionType := Some "cameras";
             entityId := None; chipId := None |}
          [card "camera.a"; card "camera.b"]];
     div ["carousel-container"] no_data
       [div ["carousel-grid"] no_data [card "camera.c"; card "camera.d"]];
     div ["permanent-chips"] no_data
       (Chips.generateHTML false true None
          [Chips.mkChip "climate"; Chips.mkChip "lights"; Chips.mkChip "security"])].

Definition sample_world : World := initial_world sample_tree.

(** The same dashboard after layout: every card is 150.25 by 96.75 pixels
    and every chip 83.25 by 32.75. *)
Definition lay_out (p : Props) : Props :=
  if matches (SClass "entity-card-wrapper") p then set_box 150.25 96.75 p
  else if matches (SClass "chip-wrapper") p then set_box 83.25 32.75 p
  else p.

Definition laid_out_world : World := initial_world (map_props lay_out sample_tree).

(** The closure [enableChipsCarousel] builds for the chips container of
    the sample dashboard when it finds no scroll container. *)
Definition sample_chips_closure : ChipsRow.Closure :=
  {| ChipsRow.chipsCarousel := [4; 1; 0; 0]; ChipsRow.scrollContainer := None;
     ChipsRow.onMove := 0; ChipsRow.lastX := 0; ChipsRow.lastY := 0;
     ChipsRow.scrollSpeed := 0; ChipsRow.scrollAnimationId := None |}.

Definition sample_manager : Manager :=
  {| dragVisual := None;
     customizationManager := Some {| getSavedChipsOrder := [] |};
     context := "home" |}.

Definition mouse_at (i : nat) (x y : float) : Session.SortableEvent :=
  {| Session.item := i; Session.originalEvent := Some (Session.MouseEvent x y) |}.

End Scenario.

(** ** Where the drag visual is placed *)

Module Follow.
Import Engine Session Scroll.

(** The node is placed so that the middle of a box [wd] wide and [ht]
    high lies at the point [(x, y)], as far as double arithmetic goes:
    [left = x - wd / 2] and [top = y - ht / 2]. *)
Definition placed (wd ht x y : float) (n : Node) : Prop :=
  n_left n = (x - wd / 2)%float ∧ n_top n = (y - ht / 2)%float.

(** The nodes of the body that are the manager's drag visual. *)
Definition visual_nodes (m : Manager) (w : World) : list Node :=
  filter (λ n, dragVisual m = Some (nid n)) (body w).

(** Every node of the body carries an identity already issued. *)
Definition issued (w : World) : Prop :=
  ∀ n, n ∈ body w → nid n < next_node w.

(** A pointer event that carries a position; a touch event without touch
    points does not. *)
Definition carries_position (e : PointerEvent) : bool :=
  match e with
  | TouchEvent [] => false
  | _ => true
  end.

Definition moves_pointer (i : Input) : bool :=
  match i with
  | Pointer e => carries_position e
  | Frame => false
  end.

(** Where the drag visual [n] is while the pointer is at [(x, y)]. Before
    any pointer move it is where [createDragVisual] has put it, by the
    size [rect] of the dragged item's box. After a move it is where
    [updateDragVisual] has put it, by the offset size that [layout]
    reported for the visual as it was then: a node [n0] with the identity,
    class and size of [n]. *)
Definition follows (moved : bool) (rect : float * float) (layout : Node → float * float)
    (x y : float) (n : Node) : Prop :=
  if moved
  then ∃ n0, nid n0 = nid n ∧ className n0 = className n
             ∧ n_width n0 = n_width n ∧ n_height n0 = n_height n
             ∧ placed (layout n0).1 (layout n0).2 x y n
  else placed rect.1 rect.2 x y n.

(** What the three pointer-move listeners share: an input leaves one
    drag visual, of the same size, placed as [follows] says. *)
Definition keeps_following {C} (lastX lastY : C → float)
    (step : C → Manager → World → C * World) (moved : bool) : Prop :=
  ∀ c m w n b rect,
    visual_nodes m w = [n] →
    follows b rect (offsetSize w) (lastX c) (lastY c) n →
    ∃ n', visual_nodes m (step c m w).2 = [n']
          ∧ offsetSize (step c m w).2 = offsetSize w
          ∧ follows (b || moved) rect (offsetSize w)
              (lastX (step c m w).1) (lastY (step c m w).1) n'
          ∧ n_width n' = n_width n ∧ n_height n' = n_height n.

End Follow.

(** ** Counting animation frames *)

Module Loop.
Import Engine Scroll.

Definition is_request (e : Effect) : bool :=
  match e with
  | RequestAnimationFrame _ => true
  | _ => false
  end.

(** Number of [requestAnimationFrame] calls made so far. *)
Definition requests (w : World) : nat :=
  length (filter (λ e, is_request e = true) (effects w)).

(** One if a frame request is outstanding, zero if not. *)
Definition pending (scrollAnimationId : option nat) : nat :=
  match scrollAnimationId with
  | Some _ => 1
  | None => 0
  end.

Definition is_frame (i : Input) : bool :=
  match i with
  | Frame => true
  | Pointer _ => false
  end.

(** Number of times the browser came to run an animation frame. *)
Definition frames (ins : list Input) : nat :=
  length (filter (λ i, is_frame i = true) ins).

End Loop.

(** ** JavaScript helpers: strings *)

Module Js.
Import Stdlib.Strings.Ascii.

(** The longest prefix of [s] without the character [c]: what
    [s.split(c)[0]] returns and what a leading [[^c]*] matches. *)
Fixpoint before (c : Ascii.ascii) (s : string) : string :=
  match s with
  | EmptyString => EmptyString
  | String a r => if Ascii.eqb a c then EmptyString else String a (before c r)
  end.

(** [s.startsWith(p)] *)
Definition startsWith (p s : string) : bool := String.prefix p s.

(** [s.includes(kw)] *)
Fixpoint includes (kw s : string) : bool :=
  String.prefix kw s
  || match s with
     | EmptyString => false
     | String _ r => includes kw r
     end.

(** [s.split(c)] for a one-character separator. *)
Fixpoint split (c : Ascii.ascii) (s : string) : list string :=
  match s with
  | EmptyString => [EmptyString]
  | String a r =>
      if Ascii.eqb a c then EmptyString :: split c r
      else match split c r with
           | x :: l => String a x :: l
           | [] => [String a EmptyString]
           end
  end.

(** [s.slice(1)] *)
Definition slice1 (s : string) : string :=
  match s with
  | EmptyString => EmptyString
  | String _ r => r
  end.

(** The white space and line terminators [trim] removes are the code
    points U+0009 to U+000D, U+0020, U+00A0, U+1680, U+2000 to U+200A,
    U+2028, U+2029, U+202F, U+205F, U+3000 and U+FEFF: in UTF-8 one byte
    for those of the ASCII range, two bytes for U+00A0 and three bytes for
    the others. *)
Definition is_space (a : Ascii.ascii) : bool :=
  bool_decide (a ∈ [" "; "009"; "010"; "011"; "012"; "013"]%char).

Definition is_space2 (a b : Ascii.ascii) : bool :=
  Nat.eqb (nat_of_ascii a) 194 && Nat.eqb (nat_of_ascii b) 160.

Definition is_space3 (a b c : Ascii.ascii) : bool :=
  let x := nat_of_ascii a in
  let y := nat_of_ascii b in
  let z := nat_of_ascii c in
  Nat.eqb x 225 && Nat.eqb y 154 && Nat.eqb z 128
  || Nat.eqb x 226 && Nat.eqb y 128
     && (Nat.leb 128 z && Nat.leb z 138 || Nat.eqb z 168 || Nat.eqb z 169 || Nat.eqb z 175)
  || Nat.eqb x 226 && Nat.eqb y 129 && Nat.eqb z 159
  || Nat.eqb x 227 && Nat.eqb y 128 && Nat.eqb z 128
  || Nat.eqb x 239 && Nat.eqb y 187 && Nat.eqb z 191.

(** [s.trim() === '']: the string consists of white space only. *)
Fixpoint is_blank (s : string) : bool :=
  match s with
  | EmptyString => true
  | String a r =>
      if is_space a then is_blank r
      else
        match r with
        | String b r2 =>
            if is_space2 a b then is_blank r2
            else
              match r2 with
              | String c r3 => is_space3 a b c && is_blank r3
              | EmptyString => false
              end
        | EmptyString => false
        end
  end.

End Js.

(** ** [DashboardStateManager]: registration and navigation *)

Module Nav.
Import Stdlib.Strings.Ascii.
Import Notify Notify.Dashboard.

Definition excludedKeys : list string :=
  ["config"; "developer-tools"; "hacs"; "dev-tools"; "api"; "logbook"; "history";
   "profile"; "media-browser"; "energy"; "map"; "todo"; "calendar"; "auth";
   "_my_redirect"].

(** [path.match(/^\/([^\/]+)/)], then the exclusion list. *)
Definition extractDashboardKey (path : string) : option string :=
  match path with
  | String c rest =>
      if Ascii.eqb c "/"%char then
        let key := Js.before "/"%char rest in
        if String.eqb key "" then None
        else if bool_decide (key ∈ excludedKeys) then None
        else Some key
      else None
  | EmptyString => None
  end.

(** The manager: the notification state, the registered keys and the last
    path handled. [window.location.pathname] is an argument of the
    operations that read it. *)
Record Manager {Consumer Error : Type} := {
  state : State Consumer Error;
  registeredDashboardKeys : gset string;
  lastProcessedPath : string
}.
Arguments Manager : clear implicits.

Section Operations.
Context {Consumer Error : Type}.

Definition set_state (s : State Consumer Error) (m : Manager Consumer Error)
    : Manager Consumer Error :=
  {| state := s; registeredDashboardKeys := registeredDashboardKeys m;
     lastProcessedPath := lastProcessedPath m |}.

Definition set_registeredDashboardKeys (ks : gset string) (m : Manager Consumer Error)
    : Manager Consumer Error :=
  {| state := state m; registeredDashboardKeys := ks;
     lastProcessedPath := lastProcessedPath m |}.

Definition set_lastProcessedPath (p : string) (m : Manager Consumer Error)
    : Manager Consumer Error :=
  {| state := state m; registeredDashboardKeys := registeredDashboardKeys m;
     lastProcessedPath := p |}.

Definition set_listeners (ls : list (Listener (bool * option string) Consumer Error))
    (s : State Consumer Error) : State Consumer Error :=
  {| isActive := isActive s; currentDashboardKey := currentDashboardKey s;
     listeners := ls |}.

(** A manager as [getInstance] first creates it. *)
Definition new_manager : Manager Consumer Error :=
  {| state := {| isActive := false; currentDashboardKey := None; listeners := [] |};
     registeredDashboardKeys := ∅;
     lastProcessedPath := "" |}.

Definition registerDashboard (pathname dashboardKey : string) (m : Manager Consumer Error)
    (st : Consumer * list (string * Error))
    : Manager Consumer Error * (Consumer * list (string * Error)) :=
  let m := set_registeredDashboardKeys ({[dashboardKey]} ∪ registeredDashboardKeys m) m in
  let currentKey := extractDashboardKey pathname in
  if bool_decide (currentKey = Some dashboardKey) then
    let '(s, st) := setDashboardActive dashboardKey (state m) st in
    (set_state s m, st)
  else (m, st).

Definition unregisterDashboard (dashboardKey : string) (m : Manager Consumer Error)
    (st : Consumer * list (string * Error))
    : Manager Consumer Error * (Consumer * list (string * Error)) :=
  let m := set_registeredDashboardKeys (registeredDashboardKeys m ∖ {[dashboardKey]}) m in
  if bool_decide (currentDashboardKey (state m) = Some dashboardKey) then
    let '(s, st) := setDashboardInactive (state m) st in
    (set_state s m, st)
  else (m, st).

Definition addListener (callback : Listener (bool * option string) Consumer Error)
    (m : Manager Consumer Error) : Manager Consumer Error :=
  set_state (set_listeners (Notify.addListener callback (listeners (state m))) (state m)) m.

Definition removeListener (callback : Listener (bool * option string) Consumer Error)
    (m : Manager Consumer Error) : Manager Consumer Error :=
  set_state (set_listeners (Notify.removeListener callback (listeners (state m))) (state m)) m.

Definition isCurrentUrlInAppleHomeDashboard (pathname : string)
    (m : Manager Consumer Error)
    : bool * option string :=
  let currentKey := extractDashboardKey pathname in
  if negb (truthy currentKey) then (false, None)
  else if bool_decide (default "" currentKey ∈ registeredDashboardKeys m)
       then (true, currentKey)
       else (false, None).

Definition handleNavigationChange (pathname : string) (m : Manager Consumer Error)
    (st : Consumer * list (string * Error))
    : Manager Consumer Error * (Consumer * list (string * Error)) :=
  let currentPath := pathname in
  if String.eqb currentPath (lastProcessedPath m) then (m, st)
  else
    let m := set_lastProcessedPath currentPath m in
    let '(isInDashboard, dashboardKey) := isCurrentUrlInAppleHomeDashboard pathname m in
    if isInDashboard && truthy dashboardKey then
      let '(s, st) := setDashboardActive (default "" dashboardKey) (state m) st in
      (set_state s m, st)
    else if isActive (state m) then
      let '(s, st) := setDashboardInactive (state m) st in
      (set_state s m, st)
    else (m, st).

Definition checkCurrentState (pathname : string) (m : Manager Consumer Error)
    (st : Consumer * list (string * Error))
    : Manager Consumer Error * (Consumer * list (string * Error)) :=
  handleNavigationChange pathname m st.

(** [destroy] empties the manager; the path last handled is not reset. *)
Definition destroy (m : Manager Consumer Error) : Manager Consumer Error :=
  {| state := {| isActive := false; currentDashboardKey := None; listeners := [] |};
     registeredDashboardKeys := ∅;
     lastProcessedPath := lastProcessedPath m |}.

(** What the strategy and the browser do to the manager. *)
Inductive Op :=
| Register (pathname dashboardKey : string)
| Unregister (dashboardKey : string)
| Navigate (pathname : string)
| CheckCurrentState (pathname : string)
| SetActive (dashboardKey : string)
| SetInactive
| AddListener (callback : Listener (bool * option string) Consumer Error)
| RemoveListener (callback : Listener (bool * option string) Consumer Error)
| Destroy.

Definition step (ms : Manager Consumer Error * (Consumer * list (string * Error))) (op : Op)
    : Manager Consumer Error * (Consumer * list (string * Error)) :=
  let '(m, st) := ms in
  match op with
  | Register pathname key => registerDashboard pathname key m st
  | Unregister key => unregisterDashboard key m st
  | Navigate pathname => handleNavigationChange pathname m st
  | CheckCurrentState pathname => checkCurrentState pathname m st
  | SetActive key =>
      let '(s, st) := setDashboardActive key (state m) st in (set_state s m, st)
  | SetInactive =>
      let '(s, st) := setDashboardInactive (state m) st in (set_state s m, st)
  | AddListener callback => (addListener callback m, st)
  | RemoveListener callback => (removeListener callback m, st)
  | Destroy => (destroy m, st)
  end.

Definition run (ops : list Op) (ms : Manager Consumer Error * (Consumer * list (string * Error)))
    : Manager Consumer Error * (Consumer * list (string * Error)) :=
  foldl step ms ops.

(** The operations that leave the listener set alone. *)
Definition keeps_listeners (op : Op) : bool :=
  match op with
  | AddListener _ | RemoveListener _ | Destroy => false
  | _ => true
  end.

(** The flag and the key agree. *)
Definition flag_matches_key (m : Manager Consumer Error) : Prop :=
  isActive (state m) = true ↔ is_Some (currentDashboardKey (state m)).

(** The active key is a registered dashboard that a URL can name. *)
Definition key_registered (m : Manager Consumer Error) : Prop :=
  ∀ k, currentDashboardKey (state m) = Some k →
       k ∈ registeredDashboardKeys m ∧ (k ∉ excludedKeys) ∧ k ≠ "".

End Operations.

Arguments Op : clear implicits.

(** A listener that writes down what it is told. *)
Definition recorder (id : nat)
    : Listener (bool * option string) (list (bool * option string)) Empty_set :=
  {| lid := id; call := λ args log, (log ++ [args], Returned) |}.

(** No two neighbours of the list are equal. *)
Fixpoint no_repeat {A} `{EqDecision A} (l : list A) : bool :=
  match l with
  | a :: (b :: _) as l' => negb (bool_decide (a = b)) && no_repeat l'
  | _ => true
  end.

(** The last notification, if there was one, tells the manager's state;
    without any notification the manager is inactive. *)
Definition in_sync {Error : Type} (m : Manager (list (bool * option string)) Error)
    (log : list (bool * option string)) : Prop :=
  match last log with
  | Some told => told = (isActive (state m), currentDashboardKey (state m))
  | None => isActive (state m) = false ∧ currentDashboardKey (state m) = None
  end.

(** The recorder is the only listener, its log is in sync with the
    manager and tells no state twice in a row. *)
Definition recording (m : Manager (list (bool * option string)) Empty_set)
    (st : list (bool * option string) * list (string * Empty_set)) : Prop :=
  listeners (state m) = [recorder 0] ∧ in_sync m st.1 ∧ no_repeat st.1 = true
  ∧ flag_matches_key m.

(** The operations that are not a direct call of [setDashboardActive]. *)
Definition not_SetActive {Consumer Error : Type} (op : Op Consumer Error) : bool :=
  match op with
  | SetActive _ => false
  | _ => true
  end.

End Nav.

(** ** [RegistrySubscriptionManager]: debounced updates and polling *)

Module Poll.
Import Notify Notify.Registry.

(** Entries of the three registries as [callWS] returns them.
    [entity_name], [dev_name] and [area_icon] stand for the fields the
    manager never reads. *)
Record EntityEntry := {
  entity_id : string;
  area_id : option string;
  device_id : option string;
  hidden_by : option string;
  disabled_by : option string;
  entity_name : option string
}.

Record DeviceEntry := {
  dev_id : string;
  dev_area_id : option string;
  dev_name : option string
}.

Record AreaEntry := {
  area_area_id : string;
  area_name : string;
  area_icon : option string
}.

(** The objects the hashes are made of: [{id, area, device, hidden,
    disabled}], [{id, area}] and [{id, name}]. *)
Record EntityRow := {
  r_id : string; r_area : string; r_device : string; r_hidden : string; r_disabled : string
}.
Record DeviceRow := { d_id : string; d_area : string }.
Record AreaRow := { a_id : string; a_name : string }.

(** [v || ''] *)
Definition or_empty (v : option string) : string :=
  if truthy v then default "" v else "".

Definition entity_row (e : EntityEntry) : EntityRow :=
  {| r_id := entity_id e; r_area := or_empty (area_id e);
     r_device := or_empty (device_id e); r_hidden := or_empty (hidden_by e);
     r_disabled := or_empty (disabled_by e) |}.

Definition device_row (d : DeviceEntry) : DeviceRow :=
  {| d_id := dev_id d; d_area := or_empty (dev_area_id d) |}.

Definition area_row (a : AreaEntry) : AreaRow :=
  {| a_id := area_area_id a; a_name := area_name a |}.

(** What the platform provides: [Array.prototype.sort] with a comparison
    function, [String.prototype.localeCompare] and [JSON.stringify] on the
    three kinds of rows. *)
Class Platform := {
  Array_sort : ∀ A : Type, (A → A → Z) → list A → list A;
  localeCompare : string → string → Z;
  stringify_entities : list EntityRow → string;
  stringify_devices : list DeviceRow → string;
  stringify_areas : list AreaRow → string
}.

(** Timers and event subscriptions outside the manager. A timeout keeps
    the event its callback closes over; handles are fresh and non-zero. *)
Record Env := {
  timeouts : list (nat * RegistryChangeEvent);
  intervals : list nat;
  next_timer : nat;
  subscriptions : list nat
}.

Definition setTimeout (event : RegistryChangeEvent) (env : Env) : nat * Env :=
  (S (next_timer env),
   {| timeouts := timeouts env ++ [(S (next_timer env), event)];
      intervals := intervals env; next_timer := S (next_timer env);
      subscriptions := subscriptions env |}).

Definition clearTimeout (id : nat) (env : Env) : Env :=
  {| timeouts := filter (λ t, t.1 ≠ id) (timeouts env);
     intervals := intervals env; next_timer := next_timer env;
     subscriptions := subscriptions env |}.

Definition setInterval (env : Env) : nat * Env :=
  (S (next_timer env),
   {| timeouts := timeouts env; intervals := intervals env ++ [S (next_timer env)];
      next_timer := S (next_timer env); subscriptions := subscriptions env |}).

Definition clearInterval (id : nat) (env : Env) : Env :=
  {| timeouts := timeouts env; intervals := filter (λ i, i ≠ id) (intervals env);
     next_timer := next_timer env; subscriptions := subscriptions env |}.

(** The function [subscribeEvents] resolves to: calling it ends the
    subscription, or throws and leaves it. *)
Record Unsubscriber := {
  subscription : nat;
  throws : bool
}.

(** [try { unsubscribe() } catch (e) { }] *)
Definition call_unsubscribe (u : Unsubscriber) (env : Env) : Env :=
  if throws u then env
  else {| timeouts := timeouts env; intervals := intervals env;
          next_timer := next_timer env;
          subscriptions := filter (λ i, i ≠ subscription u) (subscriptions env) |}.

Record State {Consumer Error : Type} := {
  hass : option nat;
  entityRegistryUnsubscribe : option Unsubscriber;
  deviceRegistryUnsubscribe : option Unsubscriber;
  areaRegistryUnsubscribe : option Unsubscriber;
  listeners : list (Listener RegistryChangeEvent Consumer Error);
  isSubscribed : bool;
  pendingUpdate : option nat;
  lastEntityHash : string;
  lastDeviceHash : string;
  lastAreaHash : string;
  pollingInterval : option nat
}.
Arguments State : clear implicits.

(** What the three [callWS] requests of a poll resolve to; a list that is
    not an array is [None]. *)
Record Fetched := {
  f_entities : option (list EntityEntry);
  f_devices : option (list DeviceEntry);
  f_areas : option (list AreaEntry)
}.

Section Manager.
Context {Consumer Error : Type} `{Platform}.

Definition new_manager : State Consumer Error :=
  {| hass := None; entityRegistryUnsubscribe := None;
     deviceRegistryUnsubscribe := None; areaRegistryUnsubscribe := None;
     listeners := []; isSubscribed := false; pendingUpdate := None;
     lastEntityHash := ""; lastDeviceHash := ""; lastAreaHash := "";
     pollingInterval := None |}.

Definition set_pendingUpdate (p : option nat) (s : State Consumer Error)
    : State Consumer Error :=
  {| hass := hass s; entityRegistryUnsubscribe := entityRegistryUnsubscribe s;
     deviceRegistryUnsubscribe := deviceRegistryUnsubscribe s;
     areaRegistryUnsubscribe := areaRegistryUnsubscribe s;
     listeners := listeners s; isSubscribed := isSubscribed s; pendingUpdate := p;
     lastEntityHash := lastEntityHash s; lastDeviceHash := lastDeviceHash s;
     lastAreaHash := lastAreaHash s; pollingInterval := pollingInterval s |}.

Definition set_hashes (e d a : string) (s : State Consumer Error)
    : State Consumer Error :=
  {| hass := hass s; entityRegistryUnsubscribe := entityRegistryUnsubscribe s;
     deviceRegistryUnsubscribe := deviceRegistryUnsubscribe s;
     areaRegistryUnsubscribe := areaRegistryUnsubscribe s;
     listeners := listeners s; isSubscribed := isSubscribed s;
     pendingUpdate := pendingUpdate s;
     lastEntityHash := e; lastDeviceHash := d; lastAreaHash := a;
     pollingInterval := pollingInterval s |}.

Definition set_pollingInterval (p : option nat) (s : State Consumer Error)
    : State Consumer Error :=
  {| hass := hass s; entityRegistryUnsubscribe := entityRegistryUnsubscribe s;
     deviceRegistryUnsubscribe := deviceRegistryUnsubscribe s;
     areaRegistryUnsubscribe := areaRegistryUnsubscribe s;
     listeners := listeners s; isSubscribed := isSubscribed s;
     pendingUpdate := pendingUpdate s;
     lastEntityHash := lastEntityHash s; lastDeviceHash := lastDeviceHash s;
     lastAreaHash := lastAreaHash s; pollingInterval := p |}.

Definition set_hass (h : option nat) (s : State Consumer Error) : State Consumer Error :=
  {| hass := h; entityRegistryUnsubscribe := entityRegistryUnsubscribe s;
     deviceRegistryUnsubscribe := deviceRegistryUnsubscribe s;
     areaRegistryUnsubscribe := areaRegistryUnsubscribe s;
     listeners := listeners s; isSubscribed := isSubscribed s;
     pendingUpdate := pendingUpdate s;
     lastEntityHash := lastEntityHash s; lastDeviceHash := lastDeviceHash s;
     lastAreaHash := lastAreaHash s; pollingInterval := pollingInterval s |}.

Definition set_listeners (ls : list (Listener RegistryChangeEvent Consumer Error))
    (s : State Consumer Error) : State Consumer Error :=
  {| hass := hass s; entityRegistryUnsubscribe := entityRegistryUnsubscribe s;
     deviceRegistryUnsubscribe := deviceRegistryUnsubscribe s;
     areaRegistryUnsubscribe := areaRegistryUnsubscribe s;
     listeners := ls; isSubscribed := isSubscribed s;
     pendingUpdate := pendingUpdate s;
     lastEntityHash := lastEntityHash s; lastDeviceHash := lastDeviceHash s;
     lastAreaHash := lastAreaHash s; pollingInterval := pollingInterval s |}.

Definition createEntityHash (entities : option (list EntityEntry)) : string :=
  match entities with
  | None => ""
  | Some entities =>
      let relevantData := entity_row <$> entities in
      stringify_entities
        (Array_sort _ (λ a b, localeCompare (r_id a) (r_id b)) relevantData)
  end.

Definition createDeviceHash (devices : option (list DeviceEntry)) : string :=
  match devices with
  | None => ""
  | Some devices =>
      let relevantData := device_row <$> devices in
      stringify_devices
        (Array_sort _ (λ a b, localeCompare (d_id a) (d_id b)) relevantData)
  end.

Definition createAreaHash (areas : option (list AreaEntry)) : string :=
  match areas with
  | None => ""
  | Some areas =>
      let relevantData := area_row <$> areas in
      stringify_areas
        (Array_sort _ (λ a b, localeCompare (a_id a) (a_id b)) relevantData)
  end.

(** [scheduleUpdate]: the timeout set here runs [timeout_fires]. *)
Definition scheduleUpdate (event : RegistryChangeEvent)
    (s : State Consumer Error) (env : Env) : State Consumer Error * Env :=
  let env :=
    match pendingUpdate s with
    | Some id => clearTimeout id env
    | None => env
    end in
  let '(id, env) := setTimeout event env in
  (set_pendingUpdate (Some id) s, env).

(** The browser running the timeout with handle [id], when it is still
    set: [() => { this.pendingUpdate = null; this.notifyListeners(event) }]. *)
Definition timeout_fires (id : nat) (s : State Consumer Error) (env : Env)
    (st : Consumer * list (string * Error))
    : State Consumer Error * Env * (Consumer * list (string * Error)) :=
  match list_find (λ t, t.1 = id) (timeouts env) with
  | Some (_, (_, event)) =>
      let env := clearTimeout id env in
      let s := set_pendingUpdate None s in
      (s, env, notifyListeners (listeners s) event st)
  | None => (s, env, st)
  end.

(** [initializeHashes]; [fetched] is what [Promise.all] resolves to, or
    [None] when it rejects. *)
Definition initializeHashes (fetched : option Fetched) (s : State Consumer Error)
    : State Consumer Error :=
  if negb (bool_decide (is_Some (hass s))) then s
  else match fetched with
       | Some f =>
           set_hashes (createEntityHash (f_entities f)) (createDeviceHash (f_devices f))
             (createAreaHash (f_areas f)) s
       | None => s
       end.

Definition startPollingFallback (s : State Consumer Error) (env : Env)
    : State Consumer Error * Env :=
  match pollingInterval s with
  | Some _ => (s, env)
  | None =>
      let '(id, env) := setInterval env in
      (set_pollingInterval (Some id) s, env)
  end.

(** [checkForChanges] from its [await] on: [fetched] is what
    [Promise.all] resolves to, or [None] when it rejects. *)
Definition checkForChanges_resume (fetched : option Fetched)
    (s : State Consumer Error) (env : Env) : State Consumer Error * Env :=
  match fetched with
  | None => (s, env)
  | Some f =>
      let entityHash := createEntityHash (f_entities f) in
      let deviceHash := createDeviceHash (f_devices f) in
      let areaHash := createAreaHash (f_areas f) in
      let changeType : option ChangeType := None in
      let '(s, changeType) :=
        if negb (String.eqb entityHash (lastEntityHash s))
        then (set_hashes entityHash (lastDeviceHash s) (lastAreaHash s) s, Some entity)
        else (s, changeType) in
      let '(s, changeType) :=
        if negb (String.eqb deviceHash (lastDeviceHash s))
        then (set_hashes (lastEntityHash s) deviceHash (lastAreaHash s) s,
              Some (default device changeType))
        else (s, changeType) in
      let '(s, changeType) :=
        if negb (String.eqb areaHash (lastAreaHash s))
        then (set_hashes (lastEntityHash s) (lastDeviceHash s) areaHash s,
              Some (default area changeType))
        else (s, changeType) in
      match changeType with
      | Some t => scheduleUpdate {| type := t; action := update; data := None |} s env
      | None => (s, env)
      end
  end.

(** [checkForChanges] when nothing else happens to the manager while the
    registries are fetched. *)
Definition checkForChanges (fetched : option Fetched)
    (s : State Consumer Error) (env : Env) : State Consumer Error * Env :=
  if negb (bool_decide (is_Some (hass s))) then (s, env)
  else checkForChanges_resume fetched s env.

Definition forceRefresh (fetched : option Fetched)
    (s : State Consumer Error) (env : Env) : State Consumer Error * Env :=
  checkForChanges fetched s env.

Definition unsubscribe (s : State Consumer Error) (env : Env)
    : State Consumer Error * Env :=
  let env :=
    match entityRegistryUnsubscribe s with
    | Some u => call_unsubscribe u env
    | None => env
    end in
  let env :=
    match deviceRegistryUnsubscribe s with
    | Some u => call_unsubscribe u env
    | None => env
    end in
  let env :=
    match areaRegistryUnsubscribe s with
    | Some u => call_unsubscribe u env
    | None => env
    end in
  let env :=
    match pollingInterval s with
    | Some id => clearInterval id env
    | None => env
    end in
  ({| hass := hass s; entityRegistryUnsubscribe := None;
      deviceRegistryUnsubscribe := None; areaRegistryUnsubscribe := None;
      listeners := listeners s; isSubscribed := false;
      pendingUpdate := pendingUpdate s;
      lastEntityHash := lastEntityHash s; lastDeviceHash := lastDeviceHash s;
      lastAreaHash := lastAreaHash s; pollingInterval := None |}, env).

Definition destroy (s : State Consumer Error) (env : Env)
    : State Consumer Error * Env :=
  let '(s, env) := unsubscribe s env in
  (set_hass None (set_listeners [] s), env).

(** What happens to the manager, one call or timer at a time. [Check]
    is a whole call of [checkForChanges]; [CheckResumes] is a call that
    was waiting for the registries while other things happened, and now
    goes on. *)
Inductive Op :=
| Schedule (event : RegistryChangeEvent)
| TimeoutFires (id : nat)
| StartPolling
| IntervalFires (id : nat) (fetched : option Fetched)
| Check (fetched : option Fetched)
| CheckResumes (fetched : option Fetched)
| ForceRefresh (fetched : option Fetched)
| InitializeHashes (fetched : option Fetched)
| Unsubscribe
| Destroy.

Definition step (x : State Consumer Error * Env * (Consumer * list (string * Error)))
    (op : Op) : State Consumer Error * Env * (Consumer * list (string * Error)) :=
  let '(s, env, st) := x in
  match op with
  | Schedule event => (scheduleUpdate event s env, st)
  | TimeoutFires id => timeout_fires id s env st
  | StartPolling => (startPollingFallback s env, st)
  | IntervalFires id fetched =>
      if bool_decide (id ∈ intervals env) then (checkForChanges fetched s env, st)
      else (s, env, st)
  | Check fetched => (checkForChanges fetched s env, st)
  | CheckResumes fetched => (checkForChanges_resume fetched s env, st)
  | ForceRefresh fetched => (forceRefresh fetched s env, st)
  | InitializeHashes fetched => (initializeHashes fetched s, env, st)
  | Unsubscribe => (unsubscribe s env, st)
  | Destroy => (destroy s env, st)
  end.

Definition run (ops : list Op)
    (x : State Consumer Error * Env * (Consumer * list (string * Error)))
    : State Consumer Error * Env * (Consumer * list (string * Error)) :=
  foldl step x ops.

(** The manager's handles and the timers agree: the pending update is
    the only timeout, the polling interval the only interval. *)
Definition coherent (s : State Consumer Error) (env : Env) : Prop :=
  (timeouts env).*1 = option_list (pendingUpdate s)
  ∧ intervals env = option_list (pollingInterval s).

End Manager.

Definition new_env : Env :=
  {| timeouts := []; intervals := []; next_timer := 0; subscriptions := [] |}.

(** Two results of a poll agree on everything the hashes are made of. *)
Definition same_rows (f f' : Fetched) : Prop :=
  fmap (M:=list) entity_row <$> f_entities f' = fmap (M:=list) entity_row <$> f_entities f
  ∧ fmap (M:=list) device_row <$> f_devices f' = fmap (M:=list) device_row <$> f_devices f
  ∧ fmap (M:=list) area_row <$> f_areas f' = fmap (M:=list) area_row <$> f_areas f.

(** The registries that differ from the stored hashes, in the order the
    poll looks at them. *)
Definition changed_registries {Consumer Error : Type} `{Platform}
    (f : Fetched) (s : State Consumer Error) : list ChangeType :=
  (if String.eqb (createEntityHash (f_entities f)) (lastEntityHash s) then [] else [entity])
  ++ (if String.eqb (createDeviceHash (f_devices f)) (lastDeviceHash s) then [] else [device])
  ++ (if String.eqb (createAreaHash (f_areas f)) (lastAreaHash s) then [] else [area]).

(** A platform to run examples on: insertion sort, comparison of strings
    by character codes, and rows written out field by field. *)
Fixpoint sample_insert {A} (cmp : A → A → Z) (x : A) (l : list A) : list A :=
  match l with
  | [] => [x]
  | y :: l' => if (cmp x y <=? 0)%Z then x :: l else y :: sample_insert cmp x l'
  end.

Definition sample_compare (a b : string) : Z :=
  match String.compare a b with
  | Lt => (-1)%Z
  | Eq => 0%Z
  | Gt => 1%Z
  end.

Definition sample_platform : Platform :=
  {| Array_sort := λ A cmp l, foldr (sample_insert cmp) [] l;
     localeCompare := sample_compare;
     stringify_entities := λ rows,
       String.concat ","
         ((λ r, r_id r +:+ "|" +:+ r_area r +:+ "|" +:+ r_device r +:+ "|"
                +:+ r_hidden r +:+ "|" +:+ r_disabled r) <$> rows);
     stringify_devices := λ rows,
       String.concat "," ((λ r, d_id r +:+ "|" +:+ d_area r) <$> rows);
     stringify_areas := λ rows,
       String.concat "," ((λ r, a_id r +:+ "|" +:+ a_name r) <$> rows) |}.

End Poll.

(** ** Attaching and detaching: [enableDragAndDrop], [disableDragAndDrop],
       [destroy] *)

Module Attach.
Import Dom Engine.

(** Which of the three set-up functions created an instance. *)
Inductive Kind := GridSortable | CarouselSortable | ChipsSortable.

(** An instance of the sensing library, bound to the element [el]. *)
Record Sortable := {
  sortable_id : nat;
  el : Path;
  kind : Kind
}.

(** The sensing library: the instances [new Sortable] has created and
    [destroy] has not yet taken down. *)
Record Library := {
  instances : list Sortable;
  next_sortable : nat
}.

Definition new_Sortable (el : Path) (kind : Kind) (lib : Library) : nat * Library :=
  (next_sortable lib,
   {| instances := instances lib
                   ++ [{| sortable_id := next_sortable lib; el := el; kind := kind |}];
      next_sortable := S (next_sortable lib) |}).

Definition Sortable_destroy (id : nat) (lib : Library) : Library :=
  {| instances := filter (λ s, sortable_id s ≠ id) (instances lib);
     next_sortable := next_sortable lib |}.

Definition empty_library : Library := {| instances := []; next_sortable := 0 |}.

Definition sel_grids : Selector := SOr (SClass "area-entities") (SClass "room-group-grid").
Definition sel_carousels : Selector := SAnd (SClass "carousel-grid") (SNot (SClass "chips")).
Definition sel_any_carousel : Selector := SClass "carousel-grid".

(** What the three set-up functions do to [sortableInstances] and to the
    library: destroy the instance recorded for the element, create a new
    one and record it. A state is the table with the library. *)
Definition attach (el : Path) (kind : Kind) (st : gmap Path nat * Library)
    : gmap Path nat * Library :=
  let '(sortableInstances, lib) := st in
  let lib :=
    match sortableInstances !! el with
    | Some existingInstance => Sortable_destroy existingInstance lib
    | None => lib
    end in
  let '(sortable, lib) := new_Sortable el kind lib in
  (<[el := sortable]> sortableInstances, lib).

Definition setupGridSortable (gridContainer : Path) (st : gmap Path nat * Library)
    : gmap Path nat * Library :=
  attach gridContainer GridSortable st.

Definition setupCarouselSortable (carouselGrid : Path) (st : gmap Path nat * Library)
    : gmap Path nat * Library :=
  attach carouselGrid CarouselSortable st.

Definition enableChipsCarousel (container : Path) (t : Element)
    (st : gmap Path nat * Library) : gmap Path nat * Library :=
  match querySelector_at (SClass "chips-grid") t container with
  | None => st
  | Some chipsCarousel => attach chipsCarousel ChipsSortable st
  end.

Definition enableDragAndDrop (container : Path) (t : Element)
    (st : gmap Path nat * Library) : gmap Path nat * Library :=
  let gridContainers := querySelectorAll_at sel_grids t container in
  let st := foldl (λ st gridContainer, setupGridSortable gridContainer st) st gridContainers in
  let carouselContainers := querySelectorAll_at sel_carousels t container in
  let st := foldl (λ st carouselGrid, setupCarouselSortable carouselGrid st) st
              carouselContainers in
  if matches_at (SClass "permanent-chips") t container
  then enableChipsCarousel container t st
  else st.

(** One turn of the loops of [disableDragAndDrop]. *)
Definition detach (el : Path) (st : gmap Path nat * Library) : gmap Path nat * Library :=
  let '(sortableInstances, lib) := st in
  match sortableInstances !! el with
  | Some instance => (delete el sortableInstances, Sortable_destroy instance lib)
  | None => st
  end.

Definition disableDragAndDrop (container : Path) (t : Element)
    (st : gmap Path nat * Library) : gmap Path nat * Library :=
  let gridContainers := querySelectorAll_at sel_grids t container in
  let st := foldl (λ st gridContainer, detach gridContainer st) st gridContainers in
  let carouselContainers := querySelectorAll_at sel_any_carousel t container in
  foldl (λ st carouselGrid, detach carouselGrid st) st carouselContainers.

Definition destroy (st : gmap Path nat * Library) (m : Manager) (w : World)
    : gmap Path nat * Library * Manager * World :=
  let '(m, w) := removeDragVisual m w in
  let '(sortableInstances, lib) := st in
  let lib := foldr (λ kv lib, Sortable_destroy kv.2 lib) lib
               (map_to_list sortableInstances) in
  ((∅ : gmap Path nat), lib, m, w).

(** Calls of the two public functions and of [enableChipsCarousel] on one
    document. *)
Inductive Op :=
| Enable (container : Path)
| EnableChips (container : Path)
| Disable (container : Path).

Definition step (t : Element) (st : gmap Path nat * Library) (op : Op)
    : gmap Path nat * Library :=
  match op with
  | Enable container => enableDragAndDrop container t st
  | EnableChips container => enableChipsCarousel container t st
  | Disable container => disableDragAndDrop container t st
  end.

Definition run (t : Element) (ops : list Op) (st : gmap Path nat * Library)
    : gmap Path nat * Library :=
  foldl (step t) st ops.

(** The table and the library agree: live instances have distinct
    identities, all issued already, and the table records exactly the
    live instances, each under its element. *)
Definition attached (st : gmap Path nat * Library) : Prop :=
  NoDup (sortable_id <$> instances st.2)
  ∧ (∀ s, s ∈ instances st.2 → st.1 !! el s = Some (sortable_id s))
  ∧ (∀ p id, st.1 !! p = Some id →
       ∃ s, s ∈ instances st.2 ∧ el s = p ∧ sortable_id s = id)
  ∧ (∀ s, s ∈ instances st.2 → sortable_id s < next_sortable st.2).

End Attach.

(** ** [AppleChips]: areas, relevant changes, navigation, status cache *)

Module AppleChips.
Import Stdlib.Strings.Ascii.

(** An entry of [hass.states]; of the attributes only [device_class] and
    a numeric [current_temperature] are kept. *)
Record EntityState := {
  entity_id : string;
  state : string;
  device_class : option string;
  current_temperature : option Q
}.

Record EntityRegistryEntry := {
  area_id : option string;
  device_id : option string;
  hidden_by : option string;
  disabled_by : option string
}.

Record DeviceRegistryEntry := {
  dev_area_id : option string
}.

Record Hass := {
  states : gmap string EntityState;
  entities : gmap string EntityRegistryEntry;
  devices : gmap string DeviceRegistryEntry
}.

Definition getEntityAreaId (_hass : option Hass) (entityId : string) : option string :=
  match _hass with
  | None => None
  | Some hass =>
      let entityRegistry := entities hass !! entityId in
      if truthy (entityRegistry ≫= area_id) then entityRegistry ≫= area_id
      else
        let device :=
          if truthy (entityRegistry ≫= device_id)
          then devices hass !! default "" (entityRegistry ≫= device_id)
          else None in
        if truthy (device ≫= dev_area_id) then device ≫= dev_area_id
        else Some "no_area"
  end.

(** [hiddenSections] is what [getHiddenSections] returns. *)
Definition isEntityInHiddenArea (hiddenSections : list string) (_hass : option Hass)
    (entityId : string) : bool :=
  if Nat.eqb (length hiddenSections) 0 then false
  else
    let areaId := getEntityAreaId _hass entityId in
    if negb (truthy areaId) then false
    else bool_decide (default "" areaId ∈ hiddenSections).

Definition relevantDomains : list string :=
  ["light"; "switch"; "climate"; "alarm_control_panel"; "lock"; "media_player";
   "water_heater"].

Definition waterKeywords : list string := ["water"; "leak"; "flood"].

(** [a !== b] on two optional numbers. *)
Definition strict_neq (a b : option Q) : bool :=
  match a, b with
  | Some x, Some y => negb (Qeq_bool x y)
  | None, None => false
  | _, _ => true
  end.

(** The body of the loop of [hasRelevantEntityChanges] for one key of
    [newHass.states]: does this entity make the function return [true]. *)
Definition entity_changed (old : Hass) (entityId : string) (newEntity : EntityState) : bool :=
  let domain := Js.before "."%char entityId in
  let isWaterEntity :=
    existsb (λ keyword, Js.includes keyword entityId) waterKeywords
    || bool_decide (device_class newEntity = Some "moisture") in
  if bool_decide (domain ∈ relevantDomains) || isWaterEntity then
    match states old !! entityId with
    | None => true
    | Some oldEntity =>
        if negb (String.eqb (state oldEntity) (state newEntity)) then true
        else String.eqb domain "climate"
             && strict_neq (current_temperature oldEntity) (current_temperature newEntity)
    end
  else false.

(** [config] tells whether [this.config] is set. *)
Definition hasRelevantEntityChanges (_hass : option Hass) (config : bool) (newHass : Hass)
    : bool :=
  match _hass with
  | None => true
  | Some old =>
      if negb config then true
      else existsb (λ kv, entity_changed old kv.1 kv.2) (map_to_list (states newHass))
  end.

(** [navigateToPath]: the string handed to [history.pushState], if any,
    as the code builds it and before the browser resolves it against the
    document (dot segments in it are not resolved here); [currentPath] is
    [window.location.pathname]. *)
Definition navigateToPath (path : string) (currentPath : string) : option string :=
  if String.eqb path "" || Js.is_blank path then None
  else
    let basePath :=
      if Js.startsWith "/lovelace/" currentPath then "/lovelace/"
      else if String.eqb currentPath "/lovelace" then "/lovelace/"
      else
        let pathParts :=
          filter (λ part, 0 < String.length part) (Js.split "/"%char currentPath) in
        match pathParts with
        | part :: _ => "/" +:+ part +:+ "/"
        | [] => "/lovelace/"
        end in
    let cleanPath := if Js.startsWith "/" path then Js.slice1 path else path in
    let newUrl := basePath +:+ cleanPath in
    if Js.includes "/config/" newUrl && negb (Js.includes "/config/" basePath) then None
    else Some newUrl.

Definition navigateToHomePage (currentPath : string) : option string :=
  navigateToPath "home" currentPath.

(** [handleChipClick] on a chip with [data-group] and [data-navigation]:
    the string it hands to [history.pushState], if any. *)
Definition handleChipClick (editMode : bool) (activeGroup : option string)
    (group navigationPath : option string) (currentPath : string) : option string :=
  if editMode then None
  else if negb (truthy group) && negb (truthy navigationPath) then None
  else if bool_decide (group = activeGroup) then navigateToHomePage currentPath
  else
    let targetPath := js_or navigationPath group in
    if negb (truthy targetPath) || Js.is_blank (default "" targetPath) then None
    else navigateToPath (default "" targetPath) currentPath.

(** [statusTextCache], a [Map] in insertion order. *)
Definition Map_has (k : string) (m : list (string * string)) : bool :=
  bool_decide (k ∈ m.*1).

Definition Map_get (k : string) (m : list (string * string)) : option string :=
  (λ r, r.2.2) <$> list_find (λ kv, kv.1 = k) m.

Definition Map_delete (k : string) (m : list (string * string)) : list (string * string) :=
  filter (λ kv, kv.1 ≠ k) m.

Definition Map_set (k v : string) (m : list (string * string)) : list (string * string) :=
  if Map_has k m then (λ kv, if decide (kv.1 = k) then (k, v) else kv) <$> m
  else m ++ [(k, v)].

(** The key [getGroupStatusText] builds: the group, a colon, and the
    entities' [id:state:temperature] joined by semicolons ([entityPart]). *)
Definition cacheKey (group entityPart : string) : string :=
  group +:+ ":" +:+ entityPart.

(** The caching of [getGroupStatusText]; [compute] is the text the
    [switch] yields for the group and its entities. *)
Definition getGroupStatusText (group entityPart : string) (compute : string)
    (statusTextCache : list (string * string)) : string * list (string * string) :=
  let cacheKey := cacheKey group entityPart in
  if Map_has cacheKey statusTextCache
  then (default "" (Map_get cacheKey statusTextCache), statusTextCache)
  else
    let statusText := compute in
    let statusTextCache :=
      if bool_decide (20 < length statusTextCache) then
        match statusTextCache with
        | (firstKey, _) :: _ =>
            if truthy (Some firstKey) then Map_delete firstKey statusTextCache
            else statusTextCache
        | [] => statusTextCache
        end
      else statusTextCache in
    (statusText, Map_set cacheKey statusText statusTextCache).

End AppleChips.

(** * Properties *)

Lemma filter_ext_in {A} (P Q : A → Prop) `{!∀ x, Decision (P x)} `{!∀ x, Decision (Q x)}
    (l : list A) :
  (∀ x, x ∈ l → P x ↔ Q x) → filter P l = filter Q l.
Proof.
  induction l as [|x l IH]; intros Hext; [done|].
  rewrite !filter_cons. rewrite IH by (intros y Hy; apply Hext; by right).
  pose proof (Hext x ltac:(left)) as Hx. repeat case_decide; tauto || done.
Qed.

(** ** Saved chip order *)

Lemma filter_nil_Forall {A} (P : A → Prop) `{!∀ x, Decision (P x)} (l : list A) :
  Forall (λ x, ¬ P x) l → filter P l = [].
Proof.
  induction 1 as [|x l Hx _ IH]; [done|]. by rewrite filter_cons_False.
Qed.

Module ChipsFacts.
Import Chips.

Lemma chipMap_fold_lookup (chips : list ChipData) (m : gmap string ChipData) g :
  foldl (λ m chip, <[group chip := chip]> m) m chips !! g
  = match last (filter (λ c, group c = g) chips) with
    | Some c => Some c
    | None => m !! g
    end.
Proof.
  revert m. induction chips as [|c chips IH]; intros m; simpl; [done|].
  rewrite IH. rewrite filter_cons. case_decide as Hg.
  - rewrite last_cons. destruct (last _); [done|]. subst g. by rewrite lookup_insert_eq.
  - destruct (last _); [done|]. by rewrite lookup_insert_ne.
Qed.

Lemma filter_group_NoDup (chips : list ChipData) g :
  NoDup (group <$> chips) → length (filter (λ c, group c = g) chips) ≤ 1.
Proof.
  induction chips as [|c chips IH]; simpl; [lia|].
  rewrite NoDup_cons. intros [Hc Hnd]. rewrite filter_cons. case_decide as Hg.
  - destruct (filter (λ c, group c = g) chips) as [|c' l] eqn:E; [simpl; lia|].
    exfalso. assert (c' ∈ filter (λ c, group c = g) chips) as Hin by (rewrite E; left).
    apply list_elem_of_filter in Hin as [Hg' Hc']. apply Hc.
    rewrite Hg, <- Hg'. by apply list_elem_of_fmap_2.
  - by apply IH.
Qed.

Lemma chipMap_lookup (chips : list ChipData) g :
  NoDup (group <$> chips) → chipMap_of chips !! g = chip_of_group chips g.
Proof.
  intros Hnd. unfold chipMap_of, chip_of_group. rewrite chipMap_fold_lookup.
  pose proof (filter_group_NoDup chips g Hnd) as Hlen.
  destruct (filter (λ c, group c = g) chips) as [|c [|c' l]]; simpl in *; [done|done|lia].
Qed.

Lemma saved_fold_fst (M : gmap string ChipData) saved acc used :
  (foldl (saved_step M) (acc, used) saved).1 = acc ++ omap (λ g, M !! g) saved.
Proof.
  revert acc used. induction saved as [|g saved IH]; intros acc used; simpl.
  - by rewrite app_nil_r.
  - unfold saved_step at 2. destruct (M !! g) as [c|] eqn:E; simpl.
    + rewrite IH. by rewrite <- app_assoc.
    + apply IH.
Qed.

Lemma saved_fold_snd (M : gmap string ChipData) saved acc used g :
  g ∈ (foldl (saved_step M) (acc, used) saved).2
  ↔ g ∈ used ∨ (g ∈ saved ∧ is_Some (M !! g)).
Proof.
  revert acc used. induction saved as [|h saved IH]; intros acc used; simpl.
  - rewrite elem_of_nil. naive_solver.
  - unfold saved_step at 2. destruct (M !! h) as [c|] eqn:E; simpl; rewrite IH.
    + rewrite elem_of_union, elem_of_singleton, elem_of_cons.
      assert (is_Some (M !! h)) by (by rewrite E). naive_solver.
    + rewrite elem_of_cons.
      assert (¬ is_Some (M !! h)) by (rewrite E; by intros [? ?]). naive_solver.
Qed.

Lemma rest_fold (U : gset string) (chips acc : list ChipData) :
  foldl (rest_step U) acc chips = acc ++ filter (λ c, group c ∉ U) chips.
Proof.
  revert acc. induction chips as [|c chips IH]; intros acc; simpl.
  - by rewrite app_nil_r.
  - rewrite IH, filter_cons. unfold rest_step. repeat case_decide; try done.
    by rewrite <- app_assoc.
Qed.

Lemma chipMap_has (chips : list ChipData) c :
  c ∈ chips → is_Some (chipMap_of chips !! group c).
Proof.
  intros Hc. unfold chipMap_of. rewrite chipMap_fold_lookup.
  destruct (last (filter (λ c0, group c0 = group c) chips)) as [c'|] eqn:E; [by eexists|].
  apply last_None in E. exfalso.
  assert (c ∈ filter (λ c0, group c0 = group c) chips) as Hin
    by (by apply list_elem_of_filter).
  rewrite E in Hin. by apply elem_of_nil in Hin.
Qed.

(** What the loops compute, for any chip list and any saved order. *)
Lemma applySavedChipsOrder_unfold cm (chips : list ChipData) :
  applySavedChipsOrder (Some cm) chips
  = omap (λ g, chipMap_of chips !! g) (getSavedChipsOrder cm)
      ++ filter (λ c, group c ∉ getSavedChipsOrder cm) chips.
Proof.
  unfold applySavedChipsOrder. destruct cm as [saved]; simpl.
  destruct saved as [|g saved]; simpl Nat.eqb; cbv iota.
  - simpl. symmetry. induction chips as [|c chips IH]; [done|].
    rewrite filter_cons_True by apply not_elem_of_nil. by f_equal.
  - set (sv := g :: saved).
    pose proof (saved_fold_fst (chipMap_of chips) sv [] ∅) as H1.
    pose proof (saved_fold_snd (chipMap_of chips) sv [] ∅) as H2.
    destruct (foldl (saved_step (chipMap_of chips)) ([], ∅) sv) as [ordered used].
    simpl in H1, H2. subst ordered. rewrite rest_fold. f_equal.
    apply filter_ext_in. intros c Hc. rewrite H2. split.
    + intros Hn Hs. apply Hn. right. split; [done|]. by apply chipMap_has.
    + intros Hn [Hu|[Hs _]]; [|done]. by apply elem_of_empty in Hu.
Qed.

Lemma applySavedChipsOrder_spec cm (chips : list ChipData) :
  NoDup (group <$> chips) →
  applySavedChipsOrder (Some cm) chips = saved_then_rest (getSavedChipsOrder cm) chips.
Proof.
  intros Hnd. rewrite applySavedChipsOrder_unfold. unfold saved_then_rest. f_equal.
  generalize (getSavedChipsOrder cm). intros saved.
  apply list_omap_ext, Forall2_same_length_lookup_2; [done|].
  intros i g h Hg Hh. simplify_eq. by apply chipMap_lookup.
Qed.

Lemma chip_of_group_Some (chips : list ChipData) g c :
  chip_of_group chips g = Some c → c ∈ chips ∧ group c = g.
Proof.
  unfold chip_of_group. intros H.
  assert (c ∈ filter (λ c, group c = g) chips) as Hin.
  { destruct (filter (λ c, group c = g) chips); simplify_eq/=. left. }
  apply list_elem_of_filter in Hin. tauto.
Qed.

Lemma chip_of_group_elem (chips : list ChipData) c :
  NoDup (group <$> chips) → c ∈ chips → chip_of_group chips (group c) = Some c.
Proof.
  intros Hnd Hc. unfold chip_of_group.
  pose proof (filter_group_NoDup chips (group c) Hnd) as Hlen.
  assert (c ∈ filter (λ c0, group c0 = group c) chips) as Hin
    by (by apply list_elem_of_filter).
  destruct (filter (λ c0, group c0 = group c) chips) as [|c1 [|c2 l]]; simpl in *.
  - by apply elem_of_nil in Hin.
  - apply list_elem_of_singleton in Hin. by subst.
  - lia.
Qed.

Lemma omap_chip_NoDup (chips : list ChipData) saved :
  NoDup saved → NoDup (omap (chip_of_group chips) saved).
Proof.
  induction 1 as [|g saved Hg Hnd IH]; simpl; [constructor|].
  destruct (chip_of_group chips g) as [c|] eqn:E; [|done].
  constructor; [|done]. intros Hin. apply list_elem_of_omap in Hin as (h & Hh & Hc).
  apply chip_of_group_Some in E as [_ <-]. apply chip_of_group_Some in Hc as [_ Hc].
  by subst h.
Qed.

Lemma saved_then_rest_Permutation (chips : list ChipData) saved :
  NoDup (group <$> chips) → NoDup saved → saved_then_rest saved chips ≡ₚ chips.
Proof.
  intros Hgr Hsv. unfold saved_then_rest.
  rewrite <- (filter_app_complement (λ c, group c ∈ saved) chips) at 3.
  apply Permutation_app; [|done].
  apply NoDup_Permutation.
  - by apply omap_chip_NoDup.
  - apply NoDup_filter. by apply NoDup_fmap_1 in Hgr.
  - intros c. rewrite list_elem_of_omap, list_elem_of_filter. split.
    + intros (g & Hg & Hc). apply chip_of_group_Some in Hc as [Hc <-]. done.
    + intros [Hg Hc]. exists (group c). split; [done|]. by apply chip_of_group_elem.
Qed.

(** C10 (as stated) fails when the saved order names a group twice: the
    chip is pushed once per occurrence, so the result is longer than the
    input. *)
Lemma C10_saved_order_with_repeat_duplicates_chip :
  let chips := [mkChip "lights"] in
  let cm := {| getSavedChipsOrder := ["lights"; "lights"] |} in
  NoDup (group <$> chips) ∧
  applySavedChipsOrder (Some cm) chips = [mkChip "lights"; mkChip "lights"] ∧
  ¬ (applySavedChipsOrder (Some cm) chips ≡ₚ chips).
Proof.
  simpl. split; [|split].
  - apply NoDup_singleton.
  - vm_compute. reflexivity.
  - intros HP. apply Permutation_length in HP. vm_compute in HP. discriminate.
Qed.

(** C10 (amended): for chips with pairwise-distinct groups and a saved
    order without repeated entries, [applySavedChipsOrder] returns a
    permutation of its input: chips whose group is in the saved order
    first, in saved-order sequence, then all remaining chips in their
    original relative order; with an empty saved order, or without a
    customization manager, the input is returned unchanged. *)
Theorem C10_applySavedChipsOrder_permutation cm (chips : list ChipData) :
  NoDup (group <$> chips) →
  NoDup (getSavedChipsOrder cm) →
  applySavedChipsOrder (Some cm) chips ≡ₚ chips
  ∧ applySavedChipsOrder (Some cm) chips
    = omap (chip_of_group chips) (getSavedChipsOrder cm)
        ++ filter (λ c, group c ∉ getSavedChipsOrder cm) chips
  ∧ NoDup (applySavedChipsOrder (Some cm) chips)
  ∧ (getSavedChipsOrder cm = [] → applySavedChipsOrder (Some cm) chips = chips)
  ∧ applySavedChipsOrder None chips = chips.
Proof.
  intros Hgr Hsv. rewrite applySavedChipsOrder_spec by done.
  pose proof (saved_then_rest_Permutation chips _ Hgr Hsv) as HP.
  split; [done|]. split; [done|]. split; [|split; [|done]].
  - rewrite HP. by apply NoDup_fmap_1 in Hgr.
  - intros ->. unfold saved_then_rest. simpl. clear.
    induction chips as [|c chips IH]; [done|].
    rewrite filter_cons_True by apply not_elem_of_nil. by f_equal.
Qed.

(** The saved order [security; climate] applied to the chips climate, lights and security. *)
Lemma C10_applySavedChipsOrder_permutation_witness :
  let chips := [mkChip "climate"; mkChip "lights"; mkChip "security"] in
  let cm := {| getSavedChipsOrder := ["security"; "climate"] |} in
  applySavedChipsOrder (Some cm) chips ≡ₚ chips
  ∧ applySavedChipsOrder (Some cm) chips
    = [mkChip "security"; mkChip "climate"; mkChip "lights"].
Proof.
  simpl.
  assert (NoDup (group <$> [mkChip "climate"; mkChip "lights"; mkChip "security"])) as H1.
  { apply (bool_decide_unpack _). vm_compute. exact I. }
  assert (NoDup ["security"; "climate"]) as H2.
  { apply (bool_decide_unpack _). vm_compute. exact I. }
  split.
  - exact (proj1 (C10_applySavedChipsOrder_permutation
      {| getSavedChipsOrder := ["security"; "climate"] |} _ H1 H2)).
  - vm_compute. reflexivity.
Defined.

End ChipsFacts.

(** ** Listener notification *)

Module NotifyFacts.
Import Notify.

Section Facts.
Context {Args Consumer Error : Type}.
Implicit Types (ls : list (Listener Args Consumer Error)) (c : Consumer).

Lemma notify_spec msg ls (args : Args) c (console : list (string * Error)) :
  notify msg ls args (c, console)
  = (run_all ls args c, console ++ (pair msg <$> thrown ls args c)).
Proof.
  revert c console. induction ls as [|l ls IH]; intros c console; simpl.
  - by rewrite app_nil_r.
  - unfold notify in *. unfold notify_one at 2. simpl.
    destruct (call l args c) as [c' [|e]] eqn:E; simpl; rewrite IH, ?E; [done|].
    simpl. by rewrite <- app_assoc.
Qed.

Lemma run_all_app ls1 ls2 (args : Args) c :
  run_all (ls1 ++ ls2) args c = run_all ls2 args (run_all ls1 args c).
Proof. unfold run_all. by rewrite foldl_app. Qed.

End Facts.

(** C8: a listener that throws is caught and logged where it was
    notified, and every registered listener is still called with the same
    arguments: the consumer ends in the state that running all listeners
    in order produces, whatever each of them completes with, and the
    console receives exactly the thrown errors, under the manager's
    message. This holds for the dashboard state listeners and for the
    registry change listeners. *)
Theorem C8_throwing_listener_does_not_stop_the_others {Consumer Error : Type} :
  (∀ (s : Dashboard.State Consumer Error) isActive dashboardKey c console,
     Dashboard.notifyListeners s isActive dashboardKey (c, console)
     = (run_all (Dashboard.listeners s) (isActive, dashboardKey) c,
        console ++ (pair Dashboard.state_listener_message
                      <$> thrown (Dashboard.listeners s) (isActive, dashboardKey) c)))
  ∧ (∀ (ls : list (Listener Registry.RegistryChangeEvent Consumer Error)) event c console,
       Registry.notifyListeners ls event (c, console)
       = (run_all ls event c,
          console ++ (pair Registry.registry_listener_message <$> thrown ls event c)))
  ∧ (∀ (Args : Type) msg (before after : list (Listener Args Consumer Error)) l args c console,
       (notify msg (before ++ l :: after) args (c, console)).1
       = run_all after args (call l args (run_all before args c)).1).
Proof.
  split; [|split].
  - intros. apply notify_spec.
  - intros. apply notify_spec.
  - intros A msg before after l args c console.
    rewrite (notify_spec msg (before ++ l :: after) args c console). simpl.
    rewrite run_all_app. reflexivity.
Qed.

End NotifyFacts.

(** ** DOM *)

Module DomFacts.
Import Dom.

Lemma Element_ind' (P : Element → Prop) :
  (∀ p ks, Forall P ks → P (El p ks)) → ∀ e, P e.
Proof.
  intros H. fix IH 1. intros [p ks]. apply H.
  induction ks as [|k ks IHks]; constructor; [apply IH | apply IHks].
Qed.

Lemma descendants_El p ks :
  descendants (El p ks) = mjoin ((λ k, k :: descendants k) <$> ks).
Proof.
  simpl. induction ks as [|k ks IH]; [done|]. simpl. by rewrite IH.
Qed.

Lemma props_map_props f e : props (map_props f e) = f (props e).
Proof. by destruct e. Qed.

Lemma kids_map_props f e : kids (map_props f e) = map_props f <$> kids e.
Proof. by destruct e. Qed.

Lemma map_props_compose f g e : map_props f (map_props g e) = map_props (f ∘ g) e.
Proof.
  induction e as [p ks IH] using Element_ind'. simpl. f_equal.
  rewrite <- list_fmap_compose. apply Forall_fmap_ext_1.
  eapply Forall_impl; [exact IH|]. intros k Hk. exact Hk.
Qed.

Lemma map_props_ext f g e : (∀ p, f p = g p) → map_props f e = map_props g e.
Proof.
  intros Hfg. induction e as [p ks IH] using Element_ind'. simpl. rewrite Hfg. f_equal.
  by apply Forall_fmap_ext_1.
Qed.

Lemma descendants_map_props f e :
  descendants (map_props f e) = map_props f <$> descendants e.
Proof.
  induction e as [p ks IH] using Element_ind'.
  change (map_props f (El p ks)) with (El (f p) (map_props f <$> ks)).
  rewrite !descendants_El. induction IH as [|k ks Hk _ IHks]; [done|].
  rewrite !fmap_cons. simpl mjoin. rewrite fmap_cons, fmap_app.
  by rewrite Hk, IHks.
Qed.

(** A rewriting of the records that no selector of interest can observe
    commutes with [querySelectorAll]. *)
Lemma querySelectorAll_map_props sel f e :
  (∀ p, matches sel (f p) = matches sel p) →
  querySelectorAll sel (map_props f e) = map_props f <$> querySelectorAll sel e.
Proof.
  intros Hm. unfold querySelectorAll. rewrite descendants_map_props.
  induction (descendants e) as [|d ds IH]; [done|].
  rewrite fmap_cons, !filter_cons, props_map_props, Hm.
  case_decide; by rewrite ?fmap_cons, IH.
Qed.

Lemma querySelector_map_props sel f e :
  (∀ p, matches sel (f p) = matches sel p) →
  querySelector sel (map_props f e) = map_props f <$> querySelector sel e.
Proof.
  intros Hm. unfold querySelector. rewrite querySelectorAll_map_props by done.
  by destruct (querySelectorAll sel e).
Qed.

Lemma get_map_props f q t : get q (map_props f t) = map_props f <$> get q t.
Proof.
  revert t. induction q as [|i q IH]; intros t; [done|]. simpl.
  rewrite kids_map_props, list_lookup_fmap.
  destruct (kids t !! i) as [k|]; simpl; [apply IH | done].
Qed.

Lemma get_app q1 q2 t : get (q1 ++ q2) t = get q1 t ≫= get q2.
Proof.
  revert t. induction q1 as [|i q1 IH]; intros t; simpl; [done|].
  destruct (kids t !! i) as [k|]; simpl; [apply IH | done].
Qed.

Lemma get_update_same q g t : get q (update q g t) = g <$> get q t.
Proof.
  revert t. induction q as [|i q IH]; intros [p ks]; [done|]. simpl.
  rewrite list_lookup_alter_eq. destruct (ks !! i) as [k|]; simpl; [apply IH | done].
Qed.

(** An update that a view [h] of the records cannot see leaves the view
    of the whole tree as it was. *)
Lemma map_props_update h q g t :
  (∀ e, map_props h (g e) = map_props h e) →
  map_props h (update q g t) = map_props h t.
Proof.
  intros Hg. revert t. induction q as [|i q IH]; intros [p ks]; [apply Hg|].
  simpl. f_equal. apply list_eq. intros j. rewrite !list_lookup_fmap.
  destruct (decide (i = j)) as [->|Hij].
  - rewrite list_lookup_alter_eq. destruct (ks !! j) as [k|]; simpl; [|done].
    by rewrite IH.
  - by rewrite list_lookup_alter_ne.
Qed.

Lemma forEach_selected_map_props h sel f e :
  (∀ p, h (f p) = h p) →
  map_props h (forEach_selected sel f e) = map_props h e.
Proof.
  intros Hf. destruct e as [p ks]. simpl. f_equal.
  rewrite <- list_fmap_compose. apply list_fmap_ext. intros _ k _. simpl.
  rewrite map_props_compose. apply map_props_ext. intros q. simpl.
  by destruct (matches sel q).
Qed.

Lemma on_props_map_props h f e :
  (∀ p, h (f p) = h p) → map_props h (on_props f e) = map_props h e.
Proof. intros Hf. destruct e as [p ks]. simpl. by rewrite Hf. Qed.

(** After [querySelectorAll(sel).forEach(f)] every selected element
    carries [f] of its former record, provided [f] does not change what
    [sel] looks at. *)
Lemma querySelectorAll_forEach_selected sel f e :
  (∀ p, matches sel (f p) = matches sel p) →
  Forall (λ d, ∃ p, props d = f p) (querySelectorAll sel (forEach_selected sel f e)).
Proof.
  intros Hm. destruct e as [p ks]. unfold querySelectorAll, forEach_selected.
  rewrite descendants_El. apply Forall_forall. intros d Hd.
  apply list_elem_of_filter in Hd as [Hsel Hd].
  apply list_elem_of_join in Hd as (l & Hd & Hl).
  apply list_elem_of_fmap in Hl as (k' & -> & Hk').
  apply list_elem_of_fmap in Hk' as (k & -> & Hk).
  set (F := λ q, if matches sel q then f q else q) in *.
  assert (d ∈ map_props F <$> (k :: descendants k)) as Hin.
  { rewrite fmap_cons, <- descendants_map_props. exact Hd. }
  apply list_elem_of_fmap in Hin as (d0 & -> & _).
  rewrite props_map_props in *. unfold F in *.
  destruct (matches sel (props d0)) eqn:E; [by eexists|]. congruence.
Qed.

(** Two trees that a view [h] of the records cannot tell apart give the
    same answer to every query that [h] does not disturb. *)
Lemma observed_through_view {B} (h : Props → Props) (obs : Props → B) sel q t t' :
  (∀ p, matches sel (h p) = matches sel p) →
  (∀ p, obs (h p) = obs p) →
  map_props h t' = map_props h t →
  from_option (λ e, (λ d, obs (props d)) <$> querySelectorAll sel e) [] (get q t')
  = from_option (λ e, (λ d, obs (props d)) <$> querySelectorAll sel e) [] (get q t).
Proof.
  intros Hm Ho Hv.
  pose proof (get_map_props h q t') as H1. rewrite Hv, get_map_props in H1.
  destruct (get q t') as [e'|], (get q t) as [e|]; simplify_eq/=; try done.
  assert ((λ d, obs (props d)) <$> (map_props h <$> querySelectorAll sel e')
          = (λ d, obs (props d)) <$> (map_props h <$> querySelectorAll sel e)) as H.
  { by rewrite <- !querySelectorAll_map_props, H1. }
  rewrite <- !list_fmap_compose in H.
  etrans; [|etrans; [exact H|]]; apply list_fmap_ext; intros _ d _; simpl;
    by rewrite props_map_props, Ho.
Qed.

Lemma querySelectorAll_nil sel p ks :
  Forall (λ k, matches sel (props k) = false ∧ querySelectorAll sel k = []) ks →
  querySelectorAll sel (El p ks) = [].
Proof.
  unfold querySelectorAll. rewrite descendants_El.
  induction 1 as [|k ks [Hk1 Hk2] _ IH]; [done|].
  rewrite fmap_cons.
  change (mjoin ((k :: descendants k) :: ((λ k, k :: descendants k) <$> ks)))
    with ((k :: descendants k) ++ mjoin ((λ k, k :: descendants k) <$> ks)).
  rewrite <- app_comm_cons, filter_cons_False by congruence.
  by rewrite filter_app, Hk2, IH.
Qed.

Lemma prefixes_snoc q i : prefixes (q ++ [i]) = prefixes q ++ [q ++ [i]].
Proof.
  induction q as [|j q IH]; [done|]. simpl. rewrite IH.
  by rewrite fmap_app.
Qed.

(** The nearest match seen from a child that does not match itself is
    the nearest match seen from its parent. *)
Lemma closest_child sel t q i :
  matches_at sel t (q ++ [i]) = false →
  closest sel t (q ++ [i]) = closest sel t q.
Proof.
  intros Hm. unfold closest. rewrite prefixes_snoc, reverse_snoc, filter_cons.
  case_decide; [congruence|done].
Qed.

Lemma closest_self sel t q :
  matches_at sel t q = true → closest sel t q = Some q.
Proof.
  intros Hm. unfold closest. destruct q as [|j q] using rev_ind.
  - change (reverse (prefixes [])) with [[] : Path].
    rewrite filter_cons. by case_decide.
  - rewrite prefixes_snoc, reverse_snoc, filter_cons. by case_decide.
Qed.

Lemma closest_ext sel t t' q :
  (∀ a, matches_at sel t a = matches_at sel t' a) →
  closest sel t q = closest sel t' q.
Proof.
  intros H. unfold closest. f_equal. apply filter_ext_in.
  intros a _. by rewrite H.
Qed.

(** What the visibility and the size of an element cannot change. *)
Lemma matches_set_visibility sel v p : matches sel (set_visibility v p) = matches sel p.
Proof.
  induction sel as [c|t|a IHa b IHb|a IHa b IHb|a IHa]; simpl; try done.
  - by rewrite IHa, IHb.
  - by rewrite IHa, IHb.
  - by rewrite IHa.
Qed.

Lemma matches_set_box sel wd ht p : matches sel (set_box wd ht p) = matches sel p.
Proof.
  induction sel as [c|t|a IHa b IHb|a IHa b IHb|a IHa]; simpl; try done.
  - by rewrite IHa, IHb.
  - by rewrite IHa, IHb.
  - by rewrite IHa.
Qed.

Lemma matches_at_map_props sel h t q :
  (∀ p, matches sel (h p) = matches sel p) →
  matches_at sel (map_props h t) q = matches_at sel t q.
Proof.
  intros Hm. unfold matches_at. rewrite get_map_props.
  destruct (get q t) as [e|]; simpl; [|done]. by rewrite props_map_props.
Qed.

(** Two trees that a view cannot tell apart answer [matches] alike. *)
Lemma matches_at_view sel h t t' q :
  (∀ p, matches sel (h p) = matches sel p) →
  map_props h t' = map_props h t →
  matches_at sel t' q = matches_at sel t q.
Proof.
  intros Hm Hv.
  by rewrite <- (matches_at_map_props sel h t'), <- (matches_at_map_props sel h t), Hv.
Qed.

(** After [classList.remove(c)] on the element at [q], the elements of
    class [c] are those that carried it before, [q] excepted. *)
Lemma matches_at_update_remove c q t a :
  matches_at (SClass c) (update q (on_props (classList_remove c)) t) a
  = matches_at (SClass c) t a && negb (bool_decide (a = q)).
Proof.
  revert a t. induction q as [|i q IH]; intros a [p ks].
  - destruct a as [|j a].
    + unfold matches_at. cbn. rewrite andb_false_r.
      apply bool_decide_eq_false. rewrite list_elem_of_filter. naive_solver.
    + unfold matches_at. cbn. by rewrite andb_true_r.
  - destruct a as [|j a].
    + unfold matches_at. cbn. by rewrite andb_true_r.
    + unfold matches_at in *. cbn [update get kids].
      destruct (decide (i = j)) as [->|Hij].
      * rewrite list_lookup_alter_eq. destruct (ks !! j) as [k|]; cbn; [|done].
        rewrite IH. f_equal. f_equal. apply bool_decide_ext. naive_solver.
      * rewrite list_lookup_alter_ne by done.
        rewrite (bool_decide_eq_false_2 (j :: a = i :: q)) by congruence.
        by rewrite andb_true_r.
Qed.

(** A rewriting that commutes with a view can be done before or after
    taking the view. *)
Lemma map_props_update_natural h q g t :
  (∀ e, map_props h (g e) = g (map_props h e)) →
  map_props h (update q g t) = update q g (map_props h t).
Proof.
  intros Hg. revert t. induction q as [|i q IH]; intros [p ks]; [apply Hg|].
  simpl. f_equal. apply list_eq. intros j. rewrite list_lookup_fmap.
  destruct (decide (i = j)) as [->|Hij].
  - rewrite !list_lookup_alter_eq, list_lookup_fmap.
    destruct (ks !! j); simpl; [by rewrite IH|done].
  - by rewrite !list_lookup_alter_ne, list_lookup_fmap by done.
Qed.

Lemma get_update_prefix q1 q2 g t :
  get q1 (update (q1 ++ q2) g t) = update q2 g <$> get q1 t.
Proof.
  revert t. induction q1 as [|i q1 IH]; intros [p ks]; [done|]. simpl.
  rewrite list_lookup_alter_eq. destruct (ks !! i); simpl; [apply IH|done].
Qed.

(** A rewriting strictly below an element leaves its record alone. *)
Lemma matches_at_update_below sel q1 q2 g t :
  q2 ≠ [] → matches_at sel (update (q1 ++ q2) g t) q1 = matches_at sel t q1.
Proof.
  intros Hq. unfold matches_at. rewrite get_update_prefix.
  destruct (get q1 t) as [[p ks]|]; [|done]. by destruct q2.
Qed.

Lemma prefixes_elem a q : a ∈ prefixes q → ∃ b, q = a ++ b.
Proof.
  revert a. induction q as [|i q IH]; intros a Ha; cbn in Ha.
  - apply list_elem_of_singleton in Ha as ->. by exists [].
  - apply elem_of_cons in Ha as [->|Ha]; [by eexists|].
    apply list_elem_of_fmap in Ha as (a' & -> & Ha').
    destruct (IH _ Ha') as [b ->]. by exists b.
Qed.

Lemma closest_update_below sel q1 q2 g t :
  q2 ≠ [] → closest sel (update (q1 ++ q2) g t) q1 = closest sel t q1.
Proof.
  intros Hq. unfold closest. f_equal. apply filter_ext_in. intros a Ha.
  apply elem_of_reverse, prefixes_elem in Ha as [b ->].
  rewrite <- app_assoc, matches_at_update_below; [done|]. by destruct b, q2.
Qed.

Lemma descendant_paths_map_props f e :
  descendant_paths (map_props f e) = descendant_paths e.
Proof.
  induction e as [p ks IH] using Element_ind'.
  change (map_props f (El p ks)) with (El (f p) (map_props f <$> ks)).
  cbn [descendant_paths]. generalize 0. induction IH as [|k ks Hk _ IHks]; intros i.
  - done.
  - rewrite fmap_cons. rewrite Hk. f_equal. apply IHks.
Qed.

Lemma querySelectorAll_at_map_props sel h t base :
  (∀ p, matches sel (h p) = matches sel p) →
  querySelectorAll_at sel (map_props h t) base = querySelectorAll_at sel t base.
Proof.
  intros Hm. unfold querySelectorAll_at. rewrite get_map_props.
  destruct (get base t) as [e|]; simpl; [|done].
  rewrite descendant_paths_map_props. f_equal. apply filter_ext_in.
  intros q _. by rewrite matches_at_map_props.
Qed.

End DomFacts.

(** ** The document, the manager and the handlers *)

Module EngineFacts.
Import Dom Engine Session Scroll Scenario DomFacts.

(** *** What a drag cannot change in the tree *)

Lemma matches_transient_free sel p :
  avoids "dragging" sel = true → matches sel (transient_free p) = matches sel p.
Proof.
  induction sel as [c|t|a IHa b IHb|a IHa b IHb|a IHa]; simpl; intros Hav.
  - apply bool_decide_ext. rewrite list_elem_of_filter.
    apply negb_true_iff, String.eqb_neq in Hav. naive_solver.
  - done.
  - apply andb_true_iff in Hav as [??]. by rewrite IHa, IHb.
  - apply andb_true_iff in Hav as [??]. by rewrite IHa, IHb.
  - by rewrite IHa.
Qed.

Lemma transient_free_add p : transient_free (classList_add "dragging" p) = transient_free p.
Proof.
  unfold classList_add. case_decide; [done|].
  unfold transient_free, classList_remove, set_visibility, set_classes. simpl.
  f_equal. rewrite filter_app, filter_cons_False, filter_nil, app_nil_r; [done|].
  by intros H'.
Qed.

Lemma transient_free_remove p :
  transient_free (classList_remove "dragging" p) = transient_free p.
Proof.
  unfold transient_free, classList_remove, set_visibility, set_classes. simpl.
  f_equal. apply list_filter_filter_l. done.
Qed.

Lemma transient_free_visibility v p :
  transient_free (set_visibility v p) = transient_free p.
Proof. done. Qed.

Lemma dataset_transient_free p : dataset (transient_free p) = dataset p.
Proof. done. Qed.

Lemma settled_get q t : get q (settled t) = settled <$> get q t.
Proof. apply get_map_props. Qed.

(** The four ways a handler writes to the tree. *)
Lemma settled_update_add q t :
  settled (update q (on_props (classList_add "dragging")) t) = settled t.
Proof.
  apply map_props_update. intros e. apply on_props_map_props, transient_free_add.
Qed.

Lemma settled_update_remove q t :
  settled (update q (on_props (classList_remove "dragging")) t) = settled t.
Proof.
  apply map_props_update. intros e. apply on_props_map_props, transient_free_remove.
Qed.

Lemma settled_update_controls q v t :
  settled (update q (forEach_selected sel_controls (set_visibility v)) t) = settled t.
Proof.
  apply map_props_update. intros e.
  apply forEach_selected_map_props, transient_free_visibility.
Qed.

Ltac settle :=
  repeat first [ rewrite settled_update_add | rewrite settled_update_remove
               | rewrite settled_update_controls ].

(** Observations that only depend on the settled tree. *)
Lemma matches_at_settled sel t q :
  avoids "dragging" sel = true → matches_at sel (settled t) q = matches_at sel t q.
Proof.
  intros Hav. unfold matches_at. rewrite settled_get.
  destruct (get q t) as [e|]; simpl; [|done].
  unfold settled. by rewrite props_map_props, matches_transient_free.
Qed.

Lemma closest_settled sel t t' q :
  avoids "dragging" sel = true → settled t' = settled t →
  closest sel t' q = closest sel t q.
Proof.
  intros Hav Hs. apply closest_ext. intros a.
  by rewrite <- (matches_at_settled sel t'), <- (matches_at_settled sel t), Hs.
Qed.

Lemma get_settled_eq t t' q :
  settled t' = settled t →
  match get q t', get q t with
  | Some e', Some e => settled e' = settled e
  | None, None => True
  | _, _ => False
  end.
Proof.
  intros Hs. pose proof (settled_get q t') as H1. rewrite Hs, settled_get in H1.
  destruct (get q t'), (get q t); simplify_eq/=; done.
Qed.

Lemma settled_dataset e e' :
  settled e' = settled e → dataset (props e') = dataset (props e).
Proof.
  intros Hs. apply (f_equal props) in Hs. unfold settled in Hs.
  rewrite !props_map_props in Hs. by apply (f_equal dataset) in Hs.
Qed.

Lemma querySelectorAll_settled sel e :
  avoids "dragging" sel = true →
  querySelectorAll sel (settled e) = settled <$> querySelectorAll sel e.
Proof.
  intros Hav. apply querySelectorAll_map_props. intros p.
  by apply matches_transient_free.
Qed.

Lemma props_settled e : props (settled e) = transient_free (props e).
Proof. apply props_map_props. Qed.

Lemma wrapper_entityId_settled d : wrapper_entityId (settled d) = wrapper_entityId d.
Proof.
  unfold wrapper_entityId, querySelector.
  rewrite querySelectorAll_settled by done.
  destruct (querySelectorAll sel_home_card d) as [|k ks]; simpl;
    by rewrite !props_settled.
Qed.

Lemma wrapper_chipId_settled d : wrapper_chipId (settled d) = wrapper_chipId d.
Proof. unfold wrapper_chipId. by rewrite !props_settled. Qed.

Lemma omap_settled {B} (f : Element → option B) (l : list Element) :
  (∀ d, f (settled d) = f d) → omap f (settled <$> l) = omap f l.
Proof.
  intros Hf. apply list_omap_ext, Forall2_fmap_l, Forall_Forall2_diag, Forall_forall.
  intros d _. apply Hf.
Qed.

Lemma carousel_order_settled e e' :
  settled e' = settled e → carousel_order e' = carousel_order e.
Proof.
  intros Hs. unfold carousel_order.
  rewrite <- (omap_settled wrapper_entityId (querySelectorAll _ e'))
    by apply wrapper_entityId_settled.
  rewrite <- (omap_settled wrapper_entityId (querySelectorAll _ e))
    by apply wrapper_entityId_settled.
  by rewrite <- !querySelectorAll_settled, Hs.
Qed.

Lemma chips_order_settled e e' :
  settled e' = settled e → chips_order e' = chips_order e.
Proof.
  intros Hs. unfold chips_order.
  rewrite <- (omap_settled wrapper_chipId (querySelectorAll _ e'))
    by apply wrapper_chipId_settled.
  rewrite <- (omap_settled wrapper_chipId (querySelectorAll _ e))
    by apply wrapper_chipId_settled.
  by rewrite <- !querySelectorAll_settled, Hs.
Qed.

Lemma dom_order_settled sel q w w' :
  avoids "dragging" sel = true → settled (tree w') = settled (tree w) →
  dom_order sel q w' = dom_order sel q w.
Proof.
  intros Hav Hs. unfold dom_order. pose proof (get_settled_eq _ _ q Hs) as Hq.
  destruct (get q (tree w')) as [e'|], (get q (tree w)) as [e|]; try done.
  assert ((λ d, dataset (props d)) <$> (settled <$> querySelectorAll sel e')
          = (λ d, dataset (props d)) <$> (settled <$> querySelectorAll sel e)) as H.
  { by rewrite <- !querySelectorAll_settled, Hq. }
  rewrite <- !list_fmap_compose in H.
  etrans; [|etrans; [exact H|]]; apply list_fmap_ext; intros _ d _; simpl;
    by rewrite props_settled.
Qed.

(** *** The markup under the marks of a drag and the layout *)

Lemma matches_bare sel p :
  avoids "dragging" sel = true → matches sel (bare p) = matches sel p.
Proof. intros Hav. unfold bare. by rewrite matches_set_box, matches_transient_free. Qed.

Lemma bare_add p : bare (classList_add "dragging" p) = bare p.
Proof. unfold bare. by rewrite transient_free_add. Qed.

Lemma bare_remove p : bare (classList_remove "dragging" p) = bare p.
Proof. unfold bare. by rewrite transient_free_remove. Qed.

Lemma bare_visibility v p : bare (set_visibility v p) = bare p.
Proof. done. Qed.

Lemma markup_get q t : get q (markup t) = markup <$> get q t.
Proof. apply get_map_props. Qed.

Lemma markup_update_add q t :
  markup (update q (on_props (classList_add "dragging")) t) = markup t.
Proof. apply map_props_update. intros e. apply on_props_map_props, bare_add. Qed.

Lemma markup_update_remove q t :
  markup (update q (on_props (classList_remove "dragging")) t) = markup t.
Proof. apply map_props_update. intros e. apply on_props_map_props, bare_remove. Qed.

Lemma markup_update_controls q v t :
  markup (update q (forEach_selected sel_controls (set_visibility v)) t) = markup t.
Proof.
  apply map_props_update. intros e. apply forEach_selected_map_props, bare_visibility.
Qed.

Lemma querySelectorAll_markup sel e :
  avoids "dragging" sel = true →
  querySelectorAll sel (markup e) = markup <$> querySelectorAll sel e.
Proof. intros Hav. apply querySelectorAll_map_props. intros p. by apply matches_bare. Qed.

Lemma matches_at_markup sel t q :
  avoids "dragging" sel = true → matches_at sel (markup t) q = matches_at sel t q.
Proof. intros Hav. apply matches_at_map_props. intros p. by apply matches_bare. Qed.

Lemma closest_markup sel t q :
  avoids "dragging" sel = true → closest sel (markup t) q = closest sel t q.
Proof. intros Hav. apply closest_ext. intros a. by apply matches_at_markup. Qed.

Lemma wrapper_chipId_markup d : wrapper_chipId (markup d) = wrapper_chipId d.
Proof. unfold wrapper_chipId, markup. by rewrite !props_map_props. Qed.

Lemma chips_order_markup e : chips_order (markup e) = chips_order e.
Proof.
  unfold chips_order. rewrite querySelectorAll_markup by done.
  apply list_omap_ext, Forall2_fmap_l, Forall_Forall2_diag, Forall_forall.
  intros d _. apply wrapper_chipId_markup.
Qed.

(** *** Pointer moves and animation frames *)

Lemma quiet_refl w : quiet w w.
Proof. by repeat split. Qed.

Lemma quiet_trans w1 w2 w3 : quiet w1 w2 → quiet w2 w3 → quiet w1 w3.
Proof. unfold quiet. intros ? ?. destruct_and!. repeat split; congruence. Qed.

Lemma updateDragVisual_ids x y m w :
  nid <$> body (updateDragVisual x y m w) = nid <$> body w
  ∧ className <$> body (updateDragVisual x y m w) = className <$> body w.
Proof.
  unfold updateDragVisual. destruct (dragVisual m) as [id|]; [|done]. simpl.
  rewrite <- !list_fmap_compose.
  split; apply list_fmap_ext; intros _ n _; simpl; by case_decide.
Qed.

Lemma quiet_updateDragVisual x y m w : quiet w (updateDragVisual x y m w).
Proof.
  destruct (updateDragVisual_ids x y m w) as [H1 H2].
  unfold quiet. rewrite H1, H2. unfold updateDragVisual.
  destruct (dragVisual m); by repeat split.
Qed.

Lemma quiet_requestAnimationFrame w : quiet w (requestAnimationFrame w).2.
Proof.
  unfold quiet, persist_calls. simpl. rewrite filter_app. simpl.
  rewrite app_nil_r. by repeat split.
Qed.

Lemma grid_handle_move_quiet e c m w : quiet w (Grid.handle_move e c m w).2.
Proof.
  destruct e as [x y|[|[x y] ts]]; simpl;
    auto using quiet_refl, quiet_updateDragVisual.
Qed.

Lemma grid_moves_quiet es c m w : quiet w (Grid.moves es c m w).2.
Proof.
  unfold Grid.moves. revert c w. induction es as [|e es IH]; intros c w; simpl.
  - apply quiet_refl.
  - destruct (Grid.handle_move e c m w) as [c' w'] eqn:E.
    eapply quiet_trans; [|apply IH].
    pose proof (grid_handle_move_quiet e c m w) as H. by rewrite E in H.
Qed.

Lemma grid_moves_container es c m w :
  Grid.gridContainer (Grid.moves es c m w).1 = Grid.gridContainer c
  ∧ Grid.areaId (Grid.moves es c m w).1 = Grid.areaId c
  ∧ Grid.onMove (Grid.moves es c m w).1 = Grid.onMove c.
Proof.
  unfold Grid.moves. revert c w. induction es as [|e es IH]; intros c w; simpl; [done|].
  destruct (Grid.handle_move e c m w) as [c' w'] eqn:E.
  destruct (IH c' w') as (-> & -> & ->).
  destruct e as [x y|[|[x y] ts]]; simpl in E; by simplify_eq.
Qed.

(** *** Frame lemmas: what each primitive leaves alone *)

(** Reduce projections of the unconditional setters. *)
Ltac wsimpl :=
  cbn [globalStylesInjected isReordering head body next_node userSelect listeners
       can_vibrate next_frame tree effects
       set_globalStylesInjected set_isReordering set_head set_body set_next_node
       set_userSelect set_listeners set_next_frame set_tree set_effects emit
       cancelAnimationFrame removeEventListener mark_dragging unmark_dragging
       set_controls_visibility fst snd
       dragVisual customizationManager context set_dragVisual].

(** Turn [let '(a, b) := e in k] into [k] over [e.1] and [e.2]. *)
Ltac split_pairs :=
  repeat match goal with
         | |- context [match ?e with (_, _) => _ end] =>
             rewrite (surjective_pairing e); cbn [fst snd]
         end.

Section Frames.
Context {A : Type} (F : World → A).

Lemma vibrate_frame ms w :
  (∀ l w, F (set_effects l w) = F w) → F (vibrate ms w) = F w.
Proof. intros H. unfold vibrate. destruct (can_vibrate w); [apply H|done]. Qed.

Lemma reconnectSingleCameraManager_frame el w :
  (∀ l w, F (set_effects l w) = F w) → F (reconnectSingleCameraManager el w) = F w.
Proof.
  intros H. unfold reconnectSingleCameraManager.
  repeat case_match; try done; apply H.
Qed.

Lemma updateCarouselConfiguration_frame q m w :
  (∀ l w, F (set_effects l w) = F w) → F (updateCarouselConfiguration q m w) = F w.
Proof.
  intros H. unfold updateCarouselConfiguration.
  repeat case_match; try done; apply H.
Qed.

Lemma updateChipsOrder_frame q m w :
  (∀ l w, F (set_effects l w) = F w) → F (updateChipsOrder q m w) = F w.
Proof.
  intros H. unfold updateChipsOrder. repeat case_match; try done; apply H.
Qed.

Lemma addEventListener_frame type h w :
  (∀ l w, F (set_listeners l w) = F w) → F (addEventListener type h w) = F w.
Proof. intros H. unfold addEventListener. case_decide; [done|apply H]. Qed.

Lemma library_settle_frame q o w :
  (∀ t w, F (set_tree t w) = F w) → F (library_settle q o w) = F w.
Proof. intros H. destruct o; [apply H|done]. Qed.

Lemma removeDragVisual_frame m w :
  (∀ b w, F (set_body b w) = F w) → F (removeDragVisual m w).2 = F w.
Proof.
  intros H. unfold removeDragVisual. simpl. repeat case_match; try done; apply H.
Qed.

Lemma createDragVisual_frame el x y chip m w :
  (∀ b w, F (set_body b w) = F w) → (∀ n w, F (set_next_node n w) = F w) →
  F (createDragVisual el x y chip m w).2 = F w.
Proof.
  intros Hb Hn. unfold createDragVisual.
  rewrite (surjective_pairing (removeDragVisual m w)). cbn [snd].
  by rewrite Hn, Hb, removeDragVisual_frame.
Qed.

Lemma requestAnimationFrame_frame w :
  (∀ l w, F (set_effects l w) = F w) → (∀ n w, F (set_next_frame n w) = F w) →
  F (requestAnimationFrame w).2 = F w.
Proof. intros He Hn. unfold requestAnimationFrame, emit. cbn [snd]. by rewrite He, Hn. Qed.

End Frames.

(** Rewrite an observation [F] through every primitive that cannot
    change it. *)
Ltac frame F :=
  repeat first
    [ rewrite (vibrate_frame F) by (intros; reflexivity)
    | rewrite (reconnectSingleCameraManager_frame F) by (intros; reflexivity)
    | rewrite (updateCarouselConfiguration_frame F) by (intros; reflexivity)
    | rewrite (updateChipsOrder_frame F) by (intros; reflexivity)
    | rewrite (addEventListener_frame F) by (intros; reflexivity)
    | rewrite (library_settle_frame F) by (intros; reflexivity)
    | rewrite (removeDragVisual_frame F) by (intros; reflexivity)
    | rewrite (createDragVisual_frame F) by (intros; reflexivity)
    | rewrite (requestAnimationFrame_frame F) by (intros; reflexivity)
    | progress wsimpl
    | match goal with
      | |- context [F (?S ?a ?w)] => progress change (F (S a w)) with (F w)
      | |- context [F (?S ?a ?b ?w)] => progress change (F (S a b w)) with (F w)
      | |- context [F (?S ?a ?b ?c ?w)] => progress change (F (S a b c w)) with (F w)
      end ].

Lemma persist_calls_set_effects l w :
  persist_calls (set_effects l w) = filter (λ e, is_persist e = true) l.
Proof. done. Qed.

Lemma persist_calls_emit e w :
  persist_calls (emit e w) = persist_calls w ++ (if is_persist e then [e] else []).
Proof.
  unfold persist_calls. cbn [emit effects set_effects]. rewrite filter_app. f_equal.
  rewrite filter_cons. destruct (is_persist e); by case_decide.
Qed.

Lemma persist_calls_vibrate ms w : persist_calls (vibrate ms w) = persist_calls w.
Proof.
  unfold vibrate. destruct (can_vibrate w); [|done].
  rewrite persist_calls_emit. simpl. by rewrite app_nil_r.
Qed.

Lemma persist_calls_reconnect el w :
  persist_calls (reconnectSingleCameraManager el w) = persist_calls w.
Proof.
  unfold reconnectSingleCameraManager. repeat case_match; try done.
  rewrite persist_calls_emit. simpl. by rewrite app_nil_r.
Qed.

Lemma removeChild_not_elem id b : id ∉ nid <$> removeChild id b.
Proof.
  unfold removeChild. intros (n & -> & Hn)%list_elem_of_fmap.
  apply list_elem_of_filter in Hn as [Hn _]. done.
Qed.

Lemma removeDragVisual_spec m w :
  dragVisual (removeDragVisual m w).1 = None
  ∧ customizationManager (removeDragVisual m w).1 = customizationManager m
  ∧ context (removeDragVisual m w).1 = context m
  ∧ (∀ id, dragVisual m = Some id → id ∉ nid <$> body (removeDragVisual m w).2)
  ∧ (dragVisual m = None → body (removeDragVisual m w).2 = body w).
Proof.
  unfold removeDragVisual. simpl. repeat (split; [done|]). split.
  - intros id ->. case_bool_decide as Hin; simpl; [apply removeChild_not_elem|done].
  - by intros ->.
Qed.

Lemma createDragVisual_manager el x y chip m w :
  customizationManager (createDragVisual el x y chip m w).1 = customizationManager m
  ∧ context (createDragVisual el x y chip m w).1 = context m.
Proof.
  unfold createDragVisual. rewrite (surjective_pairing (removeDragVisual m w)). done.
Qed.

(** *** Grid handlers *)

Lemma grid_onStart_spec evt c m w :
  let r := Grid.onStart evt c m w in
  isReordering r.2 = true
  ∧ tree r.2 = update (Grid.gridContainer c)
                 (forEach_selected sel_controls (set_visibility "hidden"))
                 (update (item_path (Grid.gridContainer c) evt)
                    (on_props (classList_add "dragging")) (tree w))
  ∧ persist_calls r.2 = persist_calls w
  ∧ head r.2 = head w
  ∧ globalStylesInjected r.2 = globalStylesInjected w
  ∧ Grid.gridContainer r.1.1 = Grid.gridContainer c
  ∧ Grid.areaId r.1.1 = Grid.areaId c
  ∧ Grid.onMove r.1.1 = Grid.onMove c
  ∧ customizationManager r.1.2 = customizationManager m
  ∧ context r.1.2 = context m.
Proof.
  unfold Grid.onStart. destruct (start_position evt) as [x y].
  split_pairs. cbn zeta. cbn [fst snd Grid.gridContainer Grid.areaId Grid.onMove Grid.set_last].
  repeat apply conj.
  - by frame isReordering.
  - by frame tree.
  - frame persist_calls. rewrite persist_calls_vibrate. by frame persist_calls.
  - by frame head.
  - by frame globalStylesInjected.
  - done.
  - done.
  - done.
  - apply createDragVisual_manager.
  - apply createDragVisual_manager.
Qed.

Lemma grid_onEnd_spec evt c m w :
  let r := Grid.onEnd evt c m w in
  isReordering r.2 = false
  ∧ tree r.2 = update (Grid.gridContainer c)
                 (forEach_selected sel_controls (set_visibility ""))
                 (update (item_path (Grid.gridContainer c) evt)
                    (on_props (classList_remove "dragging")) (tree w))
  ∧ persist_calls r.2
    = persist_calls w
        ++ (if truthy (Grid.areaId c) then [SaveOrder (default "" (Grid.areaId c))] else [])
  ∧ head r.2 = head w
  ∧ globalStylesInjected r.2 = globalStylesInjected w
  ∧ dragVisual r.1.2 = None
  ∧ (∀ id, dragVisual m = Some id → id ∉ nid <$> body r.2)
  ∧ (("mousemove", Grid.onMove c) ∉ listeners r.2)
  ∧ (("touchmove", Grid.onMove c) ∉ listeners r.2)
  ∧ userSelect r.2 = "".
Proof.
  unfold Grid.onEnd. split_pairs. cbn zeta. cbn [fst snd].
  repeat apply conj.
  - destruct (truthy (Grid.areaId c)); frame isReordering; done.
  - destruct (truthy (Grid.areaId c)); frame tree; done.
  - destruct (truthy (Grid.areaId c)).
    + rewrite persist_calls_emit, persist_calls_reconnect, persist_calls_vibrate.
      cbn [is_persist]. f_equal. by frame persist_calls.
    + rewrite persist_calls_reconnect, persist_calls_vibrate, app_nil_r.
      by frame persist_calls.
  - destruct (truthy (Grid.areaId c)); frame head; done.
  - destruct (truthy (Grid.areaId c)); frame globalStylesInjected; done.
  - apply removeDragVisual_spec.
  - intros id Hid. destruct (truthy (Grid.areaId c)); frame body.
    all: by apply (removeDragVisual_spec m (set_controls_visibility _ _ _)).
  - destruct (truthy (Grid.areaId c)); frame listeners.
    all: intros [_ [? _]%list_elem_of_filter]%list_elem_of_filter; done.
  - destruct (truthy (Grid.areaId c)); frame listeners.
    all: intros [? _]%list_elem_of_filter; done.
  - destruct (truthy (Grid.areaId c)); frame userSelect; done.
Qed.

(** *** Carousel and chip-row handlers *)

Lemma persist_calls_updateCarouselConfiguration q m w :
  persist_calls (updateCarouselConfiguration q m w)
  = persist_calls w
      ++ match get q (tree w) with
         | Some c =>
             if truthy (areaId (dataset (props c))) && truthy (sectionType (dataset (props c)))
             then match customizationManager m with
                  | Some _ =>
                      [UpdateCarouselOrderWithContext
                         (default "" (areaId (dataset (props c))))
                         (default "" (sectionType (dataset (props c))))
                         (carousel_order c) (context m)]
                  | None => []
                  end
             else []
         | None => []
         end.
Proof.
  unfold updateCarouselConfiguration.
  destruct (get q (tree w)) as [e|]; [|by rewrite app_nil_r].
  destruct (truthy (areaId _)), (truthy (sectionType _)); cbn [negb orb andb];
    try by rewrite app_nil_r.
  destruct (customizationManager m); [|by rewrite app_nil_r].
  by rewrite persist_calls_emit.
Qed.

Lemma persist_calls_updateChipsOrder q m w :
  persist_calls (updateChipsOrder q m w)
  = persist_calls w
      ++ match get q (tree w) with
         | Some g =>
             match customizationManager m with
             | Some _ => [SaveChipsOrder (chips_order g)]
             | None => []
             end
         | None => []
         end.
Proof.
  unfold updateChipsOrder.
  destruct (get q (tree w)) as [e|]; [|by rewrite app_nil_r].
  destruct (customizationManager m); [|by rewrite app_nil_r].
  by rewrite persist_calls_emit.
Qed.

Lemma carousel_calls_settled t t' q m :
  settled t' = settled t → carousel_calls t' q m = carousel_calls t q m.
Proof.
  intros Hs. unfold carousel_calls. rewrite (closest_settled _ t t') by done.
  destruct (closest sel_carousel_grid t q) as [p|]; [|done].
  pose proof (get_settled_eq _ _ p Hs) as Hp.
  destruct (get p t') as [e'|], (get p t) as [e|]; try done.
  by rewrite (settled_dataset _ _ Hp), (carousel_order_settled _ _ Hp).
Qed.

Lemma chips_calls_settled t t' q m :
  settled t' = settled t → chips_calls t' q m = chips_calls t q m.
Proof.
  intros Hs. unfold chips_calls. rewrite (closest_settled _ t t') by done.
  destruct (closest sel_chips_grid t q) as [p|]; [|done].
  pose proof (get_settled_eq _ _ p Hs) as Hp.
  destruct (get p t') as [e'|], (get p t) as [e|]; try done.
  by rewrite (chips_order_settled _ _ Hp).
Qed.

Section StopFrames.
Context {A : Type} (F : World → A).

Lemma carousel_stopScrolling_frame c w :
  (∀ l w, F (set_effects l w) = F w) → F (Carousel.stopScrolling c w).2 = F w.
Proof.
  intros H. unfold Carousel.stopScrolling. cbn zeta.
  destruct (Carousel.scrollAnimationId _); [apply H|done].
Qed.

Lemma chips_stopScrolling_frame c w :
  (∀ l w, F (set_effects l w) = F w) → F (ChipsRow.stopScrolling c w).2 = F w.
Proof.
  intros H. unfold ChipsRow.stopScrolling. cbn zeta.
  destruct (ChipsRow.scrollAnimationId _); [apply H|done].
Qed.

End StopFrames.

Ltac frame_stop F :=
  repeat first
    [ rewrite (carousel_stopScrolling_frame F) by (intros; reflexivity)
    | rewrite (chips_stopScrolling_frame F) by (intros; reflexivity)
    | progress frame F ].

Lemma persist_calls_carousel_stopScrolling c w :
  persist_calls (Carousel.stopScrolling c w).2 = persist_calls w.
Proof.
  unfold Carousel.stopScrolling. cbn zeta.
  destruct (Carousel.scrollAnimationId _); [|done].
  cbn [snd]. unfold cancelAnimationFrame. rewrite persist_calls_emit.
  by rewrite app_nil_r.
Qed.

Lemma persist_calls_chips_stopScrolling c w :
  persist_calls (ChipsRow.stopScrolling c w).2 = persist_calls w.
Proof.
  unfold ChipsRow.stopScrolling. cbn zeta.
  destruct (ChipsRow.scrollAnimationId _); [|done].
  cbn [snd]. unfold cancelAnimationFrame. rewrite persist_calls_emit.
  by rewrite app_nil_r.
Qed.

Lemma carousel_stopScrolling_closure c w :
  Carousel.carouselGrid (Carousel.stopScrolling c w).1 = Carousel.carouselGrid c
  ∧ Carousel.onMove (Carousel.stopScrolling c w).1 = Carousel.onMove c
  ∧ Carousel.currentScrollSpeed (Carousel.stopScrolling c w).1 = 0%float
  ∧ Carousel.scrollAnimationId (Carousel.stopScrolling c w).1 = None.
Proof.
  unfold Carousel.stopScrolling. cbn zeta.
  destruct (Carousel.scrollAnimationId _) eqn:E; done.
Qed.

Lemma chips_stopScrolling_closure c w :
  ChipsRow.chipsCarousel (ChipsRow.stopScrolling c w).1 = ChipsRow.chipsCarousel c
  ∧ ChipsRow.onMove (ChipsRow.stopScrolling c w).1 = ChipsRow.onMove c
  ∧ ChipsRow.scrollSpeed (ChipsRow.stopScrolling c w).1 = 0%float
  ∧ ChipsRow.scrollAnimationId (ChipsRow.stopScrolling c w).1 = None.
Proof.
  unfold ChipsRow.stopScrolling. cbn zeta.
  destruct (ChipsRow.scrollAnimationId _) eqn:E; done.
Qed.

Lemma carousel_onStart_spec evt c m w :
  let r := Carousel.onStart evt c m w in
  isReordering r.2 = true
  ∧ tree r.2 = update (Carousel.carouselGrid c)
                 (forEach_selected sel_controls (set_visibility "hidden"))
                 (update (item_path (Carousel.carouselGrid c) evt)
                    (on_props (classList_add "dragging")) (tree w))
  ∧ persist_calls r.2 = persist_calls w
  ∧ head r.2 = head w
  ∧ globalStylesInjected r.2 = globalStylesInjected w
  ∧ Carousel.carouselGrid r.1.1 = Carousel.carouselGrid c
  ∧ Carousel.onMove r.1.1 = Carousel.onMove c
  ∧ customizationManager r.1.2 = customizationManager m
  ∧ context r.1.2 = context m.
Proof.
  unfold Carousel.onStart. destruct (start_position evt) as [x y].
  split_pairs. cbn zeta.
  cbn [fst snd Carousel.carouselGrid Carousel.onMove Carousel.set_last].
  repeat apply conj.
  - by frame isReordering.
  - by frame tree.
  - frame persist_calls. rewrite persist_calls_vibrate. by frame persist_calls.
  - by frame head.
  - by frame globalStylesInjected.
  - done.
  - done.
  - apply createDragVisual_manager.
  - apply createDragVisual_manager.
Qed.

Lemma carousel_onEnd_spec evt c m w :
  let r := Carousel.onEnd evt c m w in
  isReordering r.2 = isReordering w
  ∧ tree r.2 = update (Carousel.carouselGrid c)
                 (forEach_selected sel_controls (set_visibility ""))
                 (update (item_path (Carousel.carouselGrid c) evt)
                    (on_props (classList_remove "dragging")) (tree w))
  ∧ persist_calls r.2
    = persist_calls w ++ carousel_calls (tree w) (item_path (Carousel.carouselGrid c) evt) m
  ∧ head r.2 = head w
  ∧ globalStylesInjected r.2 = globalStylesInjected w
  ∧ dragVisual r.1.2 = None
  ∧ (∀ id, dragVisual m = Some id → id ∉ nid <$> body r.2)
  ∧ (("mousemove", Carousel.onMove c) ∉ listeners r.2)
  ∧ (("touchmove", Carousel.onMove c) ∉ listeners r.2)
  ∧ userSelect r.2 = ""
  ∧ Carousel.currentScrollSpeed r.1.1 = 0%float
  ∧ Carousel.scrollAnimationId r.1.1 = None.
Proof.
  unfold Carousel.onEnd. split_pairs. cbn zeta. cbn [fst snd].
  destruct (carousel_stopScrolling_closure c
              (unmark_dragging (Carousel.carouselGrid c) evt w)) as (Hg & Hm & Hs & Ha).
  rewrite !Hg, !Hm.
  set (w9 := reconnectSingleCameraManager _ _).
  assert (tree w9 = update (Carousel.carouselGrid c)
                      (forEach_selected sel_controls (set_visibility ""))
                      (update (item_path (Carousel.carouselGrid c) evt)
                         (on_props (classList_remove "dragging")) (tree w))) as Ht.
  { unfold w9. by frame_stop tree. }
  assert (persist_calls w9 = persist_calls w) as Hp.
  { unfold w9. rewrite persist_calls_reconnect, persist_calls_vibrate.
    frame persist_calls. rewrite persist_calls_carousel_stopScrolling. done. }
  assert (∀ {A} (F : World → A), (∀ l w, F (set_effects l w) = F w) →
    F match closest sel_carousel_grid (tree w9) (item_path (Carousel.carouselGrid c) evt) with
      | Some carousel => updateCarouselConfiguration carousel m w9
      | None => w9
      end = F w9) as Hfin.
  { intros A F HF. destruct (closest _ _ _); [|done].
    by apply updateCarouselConfiguration_frame. }
  repeat apply conj.
  - rewrite Hfin by done. unfold w9. by frame_stop isReordering.
  - rewrite Hfin by done. exact Ht.
  - rewrite <- (carousel_calls_settled (tree w) (tree w9)).
    2: { rewrite Ht. by settle. }
    unfold carousel_calls. destruct (closest _ _ _) as [p|].
    + rewrite persist_calls_updateCarouselConfiguration. by rewrite Hp.
    + by rewrite app_nil_r.
  - rewrite Hfin by done. unfold w9. by frame_stop head.
  - rewrite Hfin by done. unfold w9. by frame_stop globalStylesInjected.
  - apply removeDragVisual_spec.
  - intros id Hid. rewrite Hfin by done. unfold w9. frame_stop body.
    by apply (removeDragVisual_spec m (set_controls_visibility _ _ _)).
  - rewrite Hfin by done. unfold w9. frame_stop listeners.
    intros [_ [? _]%list_elem_of_filter]%list_elem_of_filter; done.
  - rewrite Hfin by done. unfold w9. frame_stop listeners.
    intros [? _]%list_elem_of_filter; done.
  - rewrite Hfin by done. unfold w9. by frame_stop userSelect.
  - exact Hs.
  - exact Ha.
Qed.

Lemma chips_onStart_spec evt c m w :
  let r := ChipsRow.onStart evt c m w in
  isReordering r.2 = true
  ∧ tree r.2 = update (item_path (ChipsRow.chipsCarousel c) evt)
                 (on_props (classList_add "dragging")) (tree w)
  ∧ persist_calls r.2 = persist_calls w
  ∧ head r.2 = head w
  ∧ globalStylesInjected r.2 = globalStylesInjected w
  ∧ ChipsRow.chipsCarousel r.1.1 = ChipsRow.chipsCarousel c
  ∧ ChipsRow.onMove r.1.1 = ChipsRow.onMove c
  ∧ customizationManager r.1.2 = customizationManager m
  ∧ context r.1.2 = context m.
Proof.
  unfold ChipsRow.onStart. destruct (start_position evt) as [x y].
  split_pairs. cbn zeta.
  cbn [fst snd ChipsRow.chipsCarousel ChipsRow.onMove ChipsRow.set_last].
  repeat apply conj.
  - by frame isReordering.
  - by frame tree.
  - frame persist_calls. rewrite persist_calls_vibrate. by frame persist_calls.
  - by frame head.
  - by frame globalStylesInjected.
  - done.
  - done.
  - apply createDragVisual_manager.
  - apply createDragVisual_manager.
Qed.

Lemma chips_onEnd_spec evt c m w :
  let r := ChipsRow.onEnd evt c m w in
  isReordering r.2 = false
  ∧ tree r.2 = update (item_path (ChipsRow.chipsCarousel c) evt)
                 (on_props (classList_remove "dragging")) (tree w)
  ∧ persist_calls r.2
    = persist_calls w ++ chips_calls (tree w) (item_path (ChipsRow.chipsCarousel c) evt) m
  ∧ head r.2 = head w
  ∧ globalStylesInjected r.2 = globalStylesInjected w
  ∧ dragVisual r.1.2 = None
  ∧ (∀ id, dragVisual m = Some id → id ∉ nid <$> body r.2)
  ∧ (("mousemove", ChipsRow.onMove c) ∉ listeners r.2)
  ∧ (("touchmove", ChipsRow.onMove c) ∉ listeners r.2)
  ∧ userSelect r.2 = ""
  ∧ ChipsRow.scrollSpeed r.1.1 = 0%float
  ∧ ChipsRow.scrollAnimationId r.1.1 = None.
Proof.
  unfold ChipsRow.onEnd. split_pairs. cbn zeta. cbn [fst snd].
  destruct (chips_stopScrolling_closure c
              (unmark_dragging (ChipsRow.chipsCarousel c) evt (set_isReordering false w)))
    as (Hg & Hm & Hs & Ha).
  rewrite !Hg, !Hm.
  set (w9 := vibrate 30 _).
  assert (tree w9 = update (item_path (ChipsRow.chipsCarousel c) evt)
                      (on_props (classList_remove "dragging")) (tree w)) as Ht.
  { unfold w9. by frame_stop tree. }
  assert (persist_calls w9 = persist_calls w) as Hp.
  { unfold w9. rewrite persist_calls_vibrate.
    frame persist_calls. rewrite persist_calls_chips_stopScrolling. done. }
  assert (∀ {A} (F : World → A), (∀ l w, F (set_effects l w) = F w) →
    F match closest sel_chips_grid (tree w9) (item_path (ChipsRow.chipsCarousel c) evt) with
      | Some chipsGrid => updateChipsOrder chipsGrid m w9
      | None => w9
      end = F w9) as Hfin.
  { intros A F HF. destruct (closest _ _ _); [|done].
    by apply updateChipsOrder_frame. }
  repeat apply conj.
  - rewrite Hfin by done. unfold w9. by frame_stop isReordering.
  - rewrite Hfin by done. exact Ht.
  - rewrite <- (chips_calls_settled (tree w) (tree w9)).
    2: { rewrite Ht. by settle. }
    unfold chips_calls. destruct (closest _ _ _) as [p|].
    + rewrite persist_calls_updateChipsOrder. by rewrite Hp.
    + by rewrite app_nil_r.
  - rewrite Hfin by done. unfold w9. by frame_stop head.
  - rewrite Hfin by done. unfold w9. by frame_stop globalStylesInjected.
  - apply removeDragVisual_spec.
  - intros id Hid. rewrite Hfin by done. unfold w9. frame_stop body.
    by apply (removeDragVisual_spec m (ChipsRow.stopScrolling _ _).2).
  - rewrite Hfin by done. unfold w9. frame_stop listeners.
    intros [_ [? _]%list_elem_of_filter]%list_elem_of_filter; done.
  - rewrite Hfin by done. unfold w9. frame_stop listeners.
    intros [? _]%list_elem_of_filter; done.
  - rewrite Hfin by done. unfold w9. by frame_stop userSelect.
  - exact Hs.
  - exact Ha.
Qed.

(** *** Pointer moves and frames in carousels and chip rows *)

Lemma carousel_updateScrollSpeed_quiet x c w :
  quiet w (Carousel.updateScrollSpeed x c w).2
  ∧ Carousel.carouselGrid (Carousel.updateScrollSpeed x c w).1 = Carousel.carouselGrid c
  ∧ Carousel.onMove (Carousel.updateScrollSpeed x c w).1 = Carousel.onMove c.
Proof.
  unfold Carousel.updateScrollSpeed. cbn zeta.
  pose proof (quiet_requestAnimationFrame w) as Hq.
  destruct (Carousel.scrollContainer c) as [box|]; [|auto using quiet_refl].
  destruct (_ || _); [|auto using quiet_refl].
  destruct (_ && _); [|auto using quiet_refl].
  rewrite (surjective_pairing (requestAnimationFrame w)). done.
Qed.

Lemma carousel_animateScroll_quiet c w :
  quiet w (Carousel.animateScroll c w).2
  ∧ Carousel.carouselGrid (Carousel.animateScroll c w).1 = Carousel.carouselGrid c
  ∧ Carousel.onMove (Carousel.animateScroll c w).1 = Carousel.onMove c.
Proof.
  unfold Carousel.animateScroll. cbn zeta.
  pose proof (quiet_requestAnimationFrame w) as Hq.
  destruct (Carousel.scrollContainer c) as [box|]; [|auto using quiet_refl].
  destruct (_ =? _)%float; [auto using quiet_refl|].
  destruct (_ || _); [auto using quiet_refl|].
  rewrite (surjective_pairing (requestAnimationFrame w)). done.
Qed.

Lemma carousel_step_quiet i c m w :
  quiet w (Carousel.step i c m w).2
  ∧ Carousel.carouselGrid (Carousel.step i c m w).1 = Carousel.carouselGrid c
  ∧ Carousel.onMove (Carousel.step i c m w).1 = Carousel.onMove c.
Proof.
  destruct i as [[x y|[|[x y] ts]]|]; cbn [Carousel.step Carousel.handle_move];
    try (split; [apply quiet_refl|done]).
  - destruct (carousel_updateScrollSpeed_quiet x (Carousel.set_last x y c)
                (updateDragVisual x y m w)) as (H1 & H2 & H3).
    split; [|by rewrite H2, H3].
    eapply quiet_trans; [apply quiet_updateDragVisual|exact H1].
  - destruct (carousel_updateScrollSpeed_quiet x (Carousel.set_last x y c)
                (updateDragVisual x y m w)) as (H1 & H2 & H3).
    split; [|by rewrite H2, H3].
    eapply quiet_trans; [apply quiet_updateDragVisual|exact H1].
  - destruct (Carousel.scrollAnimationId c); [apply carousel_animateScroll_quiet|].
    split; [apply quiet_refl|done].
Qed.

Lemma carousel_run_quiet ins c m w :
  quiet w (Carousel.run ins c m w).2
  ∧ Carousel.carouselGrid (Carousel.run ins c m w).1 = Carousel.carouselGrid c
  ∧ Carousel.onMove (Carousel.run ins c m w).1 = Carousel.onMove c.
Proof.
  unfold Carousel.run. revert c w. induction ins as [|i ins IH]; intros c w; simpl.
  - split; [apply quiet_refl|done].
  - destruct (carousel_step_quiet i c m w) as (H1 & H2 & H3).
    destruct (Carousel.step i c m w) as [c' w']. simpl in *.
    destruct (IH c' w') as (H4 & H5 & H6).
    split; [by eapply quiet_trans|]. by rewrite H5, H6.
Qed.

Lemma chips_updateScrollSpeed_quiet x c w :
  quiet w (ChipsRow.updateScrollSpeed x c w).2
  ∧ ChipsRow.chipsCarousel (ChipsRow.updateScrollSpeed x c w).1 = ChipsRow.chipsCarousel c
  ∧ ChipsRow.onMove (ChipsRow.updateScrollSpeed x c w).1 = ChipsRow.onMove c.
Proof.
  unfold ChipsRow.updateScrollSpeed. cbn zeta.
  pose proof (quiet_requestAnimationFrame w) as Hq.
  destruct (ChipsRow.scrollContainer c) as [box|]; [|auto using quiet_refl].
  destruct (_ && _ && _); [|destruct (_ && _ && _)].
  all: destruct (_ && _); [|auto using quiet_refl].
  all: rewrite (surjective_pairing (requestAnimationFrame w)); done.
Qed.

Lemma chips_smoothScroll_quiet c w :
  quiet w (ChipsRow.smoothScroll c w).2
  ∧ ChipsRow.chipsCarousel (ChipsRow.smoothScroll c w).1 = ChipsRow.chipsCarousel c
  ∧ ChipsRow.onMove (ChipsRow.smoothScroll c w).1 = ChipsRow.onMove c.
Proof.
  unfold ChipsRow.smoothScroll. cbn zeta.
  pose proof (quiet_requestAnimationFrame w) as Hq.
  destruct (ChipsRow.scrollContainer c) as [box|]; [|auto using quiet_refl].
  destruct (negb _); [|auto using quiet_refl].
  destruct (_ || _); [auto using quiet_refl|].
  rewrite (surjective_pairing (requestAnimationFrame w)). done.
Qed.

Lemma chips_step_quiet i c m w :
  quiet w (ChipsRow.step i c m w).2
  ∧ ChipsRow.chipsCarousel (ChipsRow.step i c m w).1 = ChipsRow.chipsCarousel c
  ∧ ChipsRow.onMove (ChipsRow.step i c m w).1 = ChipsRow.onMove c.
Proof.
  destruct i as [[x y|[|[x y] ts]]|]; cbn [ChipsRow.step ChipsRow.handle_move];
    try (split; [apply quiet_refl|done]).
  - destruct (chips_updateScrollSpeed_quiet x (ChipsRow.set_last x y c)
                (updateDragVisual x y m w)) as (H1 & H2 & H3).
    split; [|by rewrite H2, H3].
    eapply quiet_trans; [apply quiet_updateDragVisual|exact H1].
  - destruct (chips_updateScrollSpeed_quiet x (ChipsRow.set_last x y c)
                (updateDragVisual x y m w)) as (H1 & H2 & H3).
    split; [|by rewrite H2, H3].
    eapply quiet_trans; [apply quiet_updateDragVisual|exact H1].
  - destruct (ChipsRow.scrollAnimationId c); [apply chips_smoothScroll_quiet|].
    split; [apply quiet_refl|done].
Qed.

Lemma chips_run_quiet ins c m w :
  quiet w (ChipsRow.run ins c m w).2
  ∧ ChipsRow.chipsCarousel (ChipsRow.run ins c m w).1 = ChipsRow.chipsCarousel c
  ∧ ChipsRow.onMove (ChipsRow.run ins c m w).1 = ChipsRow.onMove c.
Proof.
  unfold ChipsRow.run. revert c w. induction ins as [|i ins IH]; intros c w; simpl.
  - split; [apply quiet_refl|done].
  - destruct (chips_step_quiet i c m w) as (H1 & H2 & H3).
    destruct (ChipsRow.step i c m w) as [c' w']. simpl in *.
    destruct (IH c' w') as (H4 & H5 & H6).
    split; [by eapply quiet_trans|]. by rewrite H5, H6.
Qed.

(** *** Style injection *)

Lemma injectGlobalStyles_idemp w :
  injectGlobalStyles (injectGlobalStyles w) = injectGlobalStyles w.
Proof.
  unfold injectGlobalStyles. destruct (globalStylesInjected w) eqn:E; [by rewrite E|done].
Qed.

Lemma injectGlobalStyles_again w :
  globalStylesInjected w = true → injectGlobalStyles w = w.
Proof. unfold injectGlobalStyles. by intros ->. Qed.

Lemma construct_all_app args1 args2 w :
  construct_all (args1 ++ args2) w
  = let st := construct_all args1 w in
    let st' := construct_all args2 st.2 in
    (st.1 ++ st'.1, st'.2).
Proof.
  unfold construct_all. rewrite foldl_app.
  generalize (foldl (λ st a, let '(m, w0) := constructor a.1 a.2 st.2 in (st.1 ++ [m], w0))
                ([], w) args1).
  intros [ms w1]. cbn [fst snd]. cbn zeta. revert ms w1.
  induction args2 as [|a args2 IH] using rev_ind; intros ms w1.
  - simpl. by rewrite app_nil_r.
  - rewrite !foldl_app. cbn [foldl].
    rewrite (IH ms w1). cbn [fst snd].
    unfold constructor. cbn [fst snd]. by rewrite app_assoc.
Qed.

Lemma construct_all_styles t args :
  injected_styles (construct_all args (initial_world t)).2 = Nat.min 1 (length args).
Proof.
  assert (∀ args', args' ≠ [] →
    globalStylesInjected (construct_all args' (initial_world t)).2 = true
    ∧ injected_styles (construct_all args' (initial_world t)).2 = 1) as H.
  { induction args' as [|a args' IH] using rev_ind; [done|]. intros _.
    rewrite construct_all_app. cbn zeta. cbn [snd].
    unfold construct_all at 1 3. cbn [foldl]. unfold constructor. cbn [fst snd].
    destruct args' as [|b args'].
    - by vm_compute.
    - destruct IH as [IH1 IH2]; [done|].
      by rewrite injectGlobalStyles_again. }
  destruct args as [|a args]; [done|].
  destruct (H (a :: args)) as [_ ->]; done.
Qed.

End EngineFacts.

(** ** Whole drag sessions *)

Module SessionFacts.
Import Dom Engine Session Scroll Scenario DomFacts EngineFacts.

Lemma controls_after_update q v t0 w :
  tree w = update q (forEach_selected sel_controls (set_visibility v)) t0 →
  Forall (λ d, visibility (props d) = v) (controls_of q w).
Proof.
  intros Ht. unfold controls_of. rewrite Ht, get_update_same.
  destruct (get q t0) as [e|]; simpl; [|constructor].
  eapply Forall_impl; [by apply querySelectorAll_forEach_selected|].
  intros d [p ->]. done.
Qed.

Lemma grid_session_unfold start es o fin c m w :
  Grid.session start es o fin c m w
  = let r1 := Grid.onStart start c m w in
    let r2 := Grid.moves es r1.1.1 r1.1.2 r1.2 in
    Grid.onEnd fin r2.1 r1.1.2 (library_settle (Grid.gridContainer r2.1) o r2.2).
Proof. unfold Grid.session. by split_pairs. Qed.

Lemma carousel_session_unfold start ins o fin c m w :
  Carousel.session start ins o fin c m w
  = let r1 := Carousel.onStart start c m w in
    let r2 := Carousel.run ins r1.1.1 r1.1.2 r1.2 in
    Carousel.onEnd fin r2.1 r1.1.2 (library_settle (Carousel.carouselGrid r2.1) o r2.2).
Proof. unfold Carousel.session. by split_pairs. Qed.

Lemma chips_session_unfold start ins o fin c m w :
  ChipsRow.session start ins o fin c m w
  = let r1 := ChipsRow.onStart start c m w in
    let r2 := ChipsRow.run ins r1.1.1 r1.1.2 r1.2 in
    ChipsRow.onEnd fin r2.1 r1.1.2 (library_settle (ChipsRow.chipsCarousel r2.1) o r2.2).
Proof. unfold ChipsRow.session. by split_pairs. Qed.

(** What a whole grid gesture amounts to. *)
Lemma grid_session_spec start es o fin c m w :
  let r := Grid.session start es o fin c m w in
  isReordering r.2 = false
  ∧ persist_calls r.2
    = persist_calls w
        ++ (if truthy (Grid.areaId c) then [SaveOrder (default "" (Grid.areaId c))] else [])
  ∧ Forall (λ d, visibility (props d) = "") (controls_of (Grid.gridContainer c) r.2)
  ∧ head r.2 = head w
  ∧ globalStylesInjected r.2 = globalStylesInjected w
  ∧ (o = Cancelled → settled (tree r.2) = settled (tree w)).
Proof.
  rewrite grid_session_unfold. cbn zeta.
  pose proof (grid_onStart_spec start c m w) as (S1 & S2 & S3 & S4 & S5 & S6 & S7 & S8 & _).
  cbn zeta in *. set (r1 := Grid.onStart start c m w) in *.
  pose proof (grid_moves_quiet es r1.1.1 r1.1.2 r1.2)
    as (Q1 & Q2 & Q3 & Q4 & Q5 & Q6 & Q7 & Q8 & Q9 & Q10).
  pose proof (grid_moves_container es r1.1.1 r1.1.2 r1.2) as (M1 & M2 & M3).
  set (r2 := Grid.moves es r1.1.1 r1.1.2 r1.2) in *.
  set (w3 := library_settle (Grid.gridContainer r2.1) o r2.2).
  pose proof (grid_onEnd_spec fin r2.1 r1.1.2 w3) as (E1 & E2 & E3 & E4 & E5 & _).
  cbn zeta in *. repeat apply conj.
  - exact E1.
  - rewrite E3, M2, S7. f_equal. unfold w3. frame persist_calls. congruence.
  - rewrite <- S6, <- M1. eapply controls_after_update. exact E2.
  - rewrite E4. unfold w3. frame head. congruence.
  - rewrite E5. unfold w3. frame globalStylesInjected. congruence.
  - intros ->. rewrite E2. settle. unfold w3. cbn [library_settle].
    rewrite Q9, S2. by settle.
Qed.

Lemma carousel_session_spec start ins o fin c m w :
  let r := Carousel.session start ins o fin c m w in
  isReordering r.2 = true
  ∧ Forall (λ d, visibility (props d) = "") (controls_of (Carousel.carouselGrid c) r.2)
  ∧ head r.2 = head w
  ∧ globalStylesInjected r.2 = globalStylesInjected w
  ∧ (o = Cancelled →
       settled (tree r.2) = settled (tree w)
       ∧ persist_calls r.2
         = persist_calls w
             ++ carousel_calls (tree w) (item_path (Carousel.carouselGrid c) fin)
                  (Carousel.onStart start c m w).1.2).
Proof.
  rewrite carousel_session_unfold. cbn zeta.
  pose proof (carousel_onStart_spec start c m w) as (S1 & S2 & S3 & S4 & S5 & S6 & S7 & _).
  cbn zeta in *. set (r1 := Carousel.onStart start c m w) in *.
  pose proof (carousel_run_quiet ins r1.1.1 r1.1.2 r1.2)
    as ((Q1 & Q2 & Q3 & Q4 & Q5 & Q6 & Q7 & Q8 & Q9 & Q10) & M1 & M2).
  set (r2 := Carousel.run ins r1.1.1 r1.1.2 r1.2) in *.
  set (w3 := library_settle (Carousel.carouselGrid r2.1) o r2.2).
  pose proof (carousel_onEnd_spec fin r2.1 r1.1.2 w3) as (E1 & E2 & E3 & E4 & E5 & _).
  cbn zeta in *. repeat apply conj.
  - rewrite E1. unfold w3. frame isReordering. congruence.
  - rewrite <- S6, <- M1. eapply controls_after_update. exact E2.
  - rewrite E4. unfold w3. frame head. congruence.
  - rewrite E5. unfold w3. frame globalStylesInjected. congruence.
  - intros ->. unfold w3 in *. cbn [library_settle] in *. split.
    + rewrite E2. settle. rewrite Q9, S2. by settle.
    + rewrite E3, Q10, S3, M1, S6. f_equal.
      apply carousel_calls_settled. rewrite Q9, S2. by settle.
Qed.

Lemma chips_session_spec start ins o fin c m w :
  let r := ChipsRow.session start ins o fin c m w in
  isReordering r.2 = false
  ∧ head r.2 = head w
  ∧ globalStylesInjected r.2 = globalStylesInjected w
  ∧ (o = Cancelled →
       settled (tree r.2) = settled (tree w)
       ∧ persist_calls r.2
         = persist_calls w
             ++ chips_calls (tree w) (item_path (ChipsRow.chipsCarousel c) fin)
                  (ChipsRow.onStart start c m w).1.2).
Proof.
  rewrite chips_session_unfold. cbn zeta.
  pose proof (chips_onStart_spec start c m w) as (S1 & S2 & S3 & S4 & S5 & S6 & S7 & _).
  cbn zeta in *. set (r1 := ChipsRow.onStart start c m w) in *.
  pose proof (chips_run_quiet ins r1.1.1 r1.1.2 r1.2)
    as ((Q1 & Q2 & Q3 & Q4 & Q5 & Q6 & Q7 & Q8 & Q9 & Q10) & M1 & M2).
  set (r2 := ChipsRow.run ins r1.1.1 r1.1.2 r1.2) in *.
  set (w3 := library_settle (ChipsRow.chipsCarousel r2.1) o r2.2).
  pose proof (chips_onEnd_spec fin r2.1 r1.1.2 w3) as (E1 & E2 & E3 & E4 & E5 & _).
  cbn zeta in *. repeat apply conj.
  - exact E1.
  - rewrite E4. unfold w3. frame head. congruence.
  - rewrite E5. unfold w3. frame globalStylesInjected. congruence.
  - intros ->. unfold w3 in *. cbn [library_settle] in *. split.
    + rewrite E2. settle. rewrite Q9, S2. by settle.
    + rewrite E3, Q10, S3, M1, S6. f_equal.
      apply chips_calls_settled. rewrite Q9, S2. by settle.
Qed.

End SessionFacts.

(** ** The chip markup *)

Module MarkupFacts.
Import Dom Session Chips DomFacts.

Lemma render_chip_wrappers editMode activeGroup chip :
  querySelectorAll sel_chip_wrapper (render_chip editMode activeGroup chip) = [].
Proof.
  unfold render_chip. apply querySelectorAll_nil.
  constructor; [|constructor]. case_bool_decide; split; vm_compute; reflexivity.
Qed.

Lemma wrapper_chipId_render editMode activeGroup chip :
  wrapper_chipId (render_chip editMode activeGroup chip)
  = if decide (group chip = "") then None else Some (group chip).
Proof.
  unfold wrapper_chipId, render_chip, js_or. cbn.
  destruct (String.eqb_spec (group chip) "") as [->|Hne]; cbn.
  - done.
  - rewrite decide_False by done. by destruct (String.eqb_spec (group chip) "").
Qed.

Lemma chips_order_rendered p editMode activeGroup chips :
  chips_order (El p (render_chip editMode activeGroup <$> chips))
  = filter (λ g, g ≠ "") (group <$> chips).
Proof.
  unfold chips_order, querySelectorAll. rewrite descendants_El.
  induction chips as [|chip chips IH]; [done|].
  rewrite !fmap_cons.
  change (mjoin (?x :: ?l)) with (x ++ mjoin l).
  rewrite <- app_comm_cons, filter_cons_True by (by destruct editMode).
  rewrite filter_app.
  change (filter (λ d, matches sel_chip_wrapper (props d) = true)
            (descendants (render_chip editMode activeGroup chip)))
    with (querySelectorAll sel_chip_wrapper (render_chip editMode activeGroup chip)).
  rewrite render_chip_wrappers, app_nil_l.
  change (omap ?f (?x :: ?l))
    with (match f x with Some y => y :: omap f l | None => omap f l end).
  rewrite wrapper_chipId_render, filter_cons, IH. by repeat case_decide.
Qed.

End MarkupFacts.

(** ** The stated properties of drag sessions *)

Module DragClaims.
Import Dom Engine Session Scroll Scenario DomFacts EngineFacts SessionFacts.

(** C3: every [onStart] sets the reordering flag, and the grid and the
    chip-row sessions leave it false; the carousel's [onEnd] never resets
    it, so after any carousel session, dropped or cancelled, the flag is
    still true. *)
Theorem C3_carousel_session_leaves_isReordering_set :
  (∀ evt c m w, isReordering (Grid.onStart evt c m w).2 = true)
  ∧ (∀ evt c m w, isReordering (Carousel.onStart evt c m w).2 = true)
  ∧ (∀ evt c m w, isReordering (ChipsRow.onStart evt c m w).2 = true)
  ∧ (∀ start es o fin c m w,
       isReordering (Grid.session start es o fin c m w).2 = false)
  ∧ (∀ start ins o fin c m w,
       isReordering (ChipsRow.session start ins o fin c m w).2 = false)
  ∧ (∀ start ins o fin c m w,
       isReordering (Carousel.session start ins o fin c m w).2 = true).
Proof.
  repeat apply conj; intros.
  - apply grid_onStart_spec.
  - apply carousel_onStart_spec.
  - apply chips_onStart_spec.
  - apply grid_session_spec.
  - apply chips_session_spec.
  - apply carousel_session_spec.
Qed.

(** C7: however many managers are constructed on a fresh document, the
    head holds one injected style element as soon as there is one manager
    and never more; injecting is idempotent; and no drag session of any
    container kind adds to the head. Attaching a container only builds
    the closures of its handlers and leaves the document as it is. *)
Theorem C7_styles_injected_once :
  (∀ t args, injected_styles (construct_all args (initial_world t)).2
             = Nat.min 1 (length args))
  ∧ (∀ w, injectGlobalStyles (injectGlobalStyles w) = injectGlobalStyles w)
  ∧ (∀ start es o fin c m w,
       head (Grid.session start es o fin c m w).2 = head w)
  ∧ (∀ start ins o fin c m w,
       head (Carousel.session start ins o fin c m w).2 = head w)
  ∧ (∀ start ins o fin c m w,
       head (ChipsRow.session start ins o fin c m w).2 = head w).
Proof.
  repeat apply conj; intros.
  - apply construct_all_styles.
  - apply injectGlobalStyles_idemp.
  - apply grid_session_spec.
  - apply carousel_session_spec.
  - apply chips_session_spec.
Qed.

Lemma truthy_Some a : a ≠ "" → truthy (Some a) = true.
Proof. intros Ha. simpl. apply negb_true_iff, String.eqb_neq. done. Qed.

(** *** The marks of a drag after [onEnd] *)

(** After the [onEnd] of a grid or a carousel the elements of class
    [dragging] are those that carried the class before, the dropped item
    excepted. *)
Lemma dragging_after_onEnd q item t a :
  matches_at sel_dragging
    (update q (forEach_selected sel_controls (set_visibility ""))
       (update item (on_props (classList_remove "dragging")) t)) a
  = matches_at sel_dragging t a && negb (bool_decide (a = item)).
Proof.
  unfold sel_dragging. rewrite <- matches_at_update_remove.
  apply (matches_at_view _ (set_visibility "")).
  - intros p. apply matches_set_visibility.
  - apply map_props_update. intros e. by apply forEach_selected_map_props.
Qed.

Lemma dragging_gone_after_onEnd q item t :
  matches_at sel_dragging
    (update q (forEach_selected sel_controls (set_visibility ""))
       (update item (on_props (classList_remove "dragging")) t)) item = false
  ∧ (∀ a, matches_at sel_dragging
            (update q (forEach_selected sel_controls (set_visibility ""))
               (update item (on_props (classList_remove "dragging")) t)) a = true →
          matches_at sel_dragging t a = true ∧ a ≠ item).
Proof.
  split.
  - rewrite dragging_after_onEnd, bool_decide_eq_true_2 by done. apply andb_false_r.
  - intros a. rewrite dragging_after_onEnd. intros [H1 H2]%andb_true_iff.
    split; [done|]. by apply negb_true_iff, bool_decide_eq_false in H2.
Qed.

(** *** What [onEnd] of a carousel adds to the effect log *)

Lemma effects_vibrate ms w :
  ∃ l, effects (vibrate ms w) = effects w ++ l
       ∧ Forall (λ e, Loop.is_request e = false) l.
Proof.
  unfold vibrate. destruct (can_vibrate w).
  - exists [Vibrate ms]. split; [done|]. by repeat constructor.
  - exists []. by rewrite app_nil_r.
Qed.

Lemma effects_reconnect el w :
  ∃ l, effects (reconnectSingleCameraManager el w) = effects w ++ l
       ∧ Forall (λ e, Loop.is_request e = false) l.
Proof.
  unfold reconnectSingleCameraManager.
  destruct (querySelector sel_home_card el) as [card|]; [|exists []; by rewrite app_nil_r].
  destruct (has_reloadCameraImage (props card)); [|exists []; by rewrite app_nil_r].
  exists [ReloadCameraImage]. split; [done|]. by repeat constructor.
Qed.

Lemma effects_updateCarouselConfiguration q m w :
  ∃ l, effects (updateCarouselConfiguration q m w) = effects w ++ l
       ∧ Forall (λ e, Loop.is_request e = false) l.
Proof.
  unfold updateCarouselConfiguration.
  destruct (get q (tree w)) as [e|]; [|exists []; by rewrite app_nil_r].
  destruct (negb _ || negb _); [exists []; by rewrite app_nil_r|].
  destruct (customizationManager m); [|exists []; by rewrite app_nil_r].
  eexists [_]. split; [done|]. by repeat constructor.
Qed.

Lemma effects_carousel_stopScrolling c w :
  effects (Carousel.stopScrolling c w).2
  = effects w ++ match Carousel.scrollAnimationId c with
                 | Some id => [CancelAnimationFrame id]
                 | None => []
                 end.
Proof.
  unfold Carousel.stopScrolling. cbn zeta.
  cbn [Carousel.scrollAnimationId Carousel.set_currentScrollSpeed].
  destruct (Carousel.scrollAnimationId c); [done|]. by rewrite app_nil_r.
Qed.

Lemma carousel_onEnd_effects evt c m w :
  ∃ l, effects (Carousel.onEnd evt c m w).2
       = effects w
           ++ match Carousel.scrollAnimationId c with
              | Some id => [CancelAnimationFrame id]
              | None => []
              end ++ l
       ∧ Forall (λ e, Loop.is_request e = false) l.
Proof.
  unfold Carousel.onEnd. split_pairs. cbn zeta. cbn [fst snd].
  set (w1 := unmark_dragging (Carousel.carouselGrid c) evt w).
  set (w9 := reconnectSingleCameraManager _ _).
  assert (∃ l, effects w9
               = effects w
                   ++ match Carousel.scrollAnimationId c with
                      | Some id => [CancelAnimationFrame id]
                      | None => []
                      end ++ l
               ∧ Forall (λ e, Loop.is_request e = false) l) as (l9 & E9 & F9).
  { unfold w9.
    edestruct effects_reconnect as (lr & -> & Fr).
    edestruct effects_vibrate as (lv & -> & Fv).
    frame effects. rewrite effects_carousel_stopScrolling.
    exists (lv ++ lr). split; [by rewrite <- !app_assoc|]. by apply Forall_app. }
  destruct (closest _ _ _) as [carousel|].
  - edestruct (effects_updateCarouselConfiguration carousel) as (lp & -> & Fp).
    exists (l9 ++ lp). rewrite E9. split; [by rewrite <- !app_assoc|]. by apply Forall_app.
  - by exists l9.
Qed.

Lemma requests_app_quiet w w' l :
  effects w' = effects w ++ l → Forall (λ e, Loop.is_request e = false) l →
  Loop.requests w' = Loop.requests w.
Proof.
  intros E F. unfold Loop.requests. rewrite E, filter_app, length_app.
  rewrite (filter_nil_Forall _ l); [simpl; lia|].
  eapply Forall_impl; [exact F|]. intros e He. by rewrite He.
Qed.

(** C9: when the grid carried no usable area id as it was set up, or the
    carousel found from the dropped item lacks an area id or a section
    type, [onEnd] hands nothing to the host and still tears everything
    down: the clone is gone from the document and from the manager, the
    pointer listeners are removed, text selection is allowed again, every
    control of the container has its inline visibility cleared, the
    dropped item no longer carries the class [dragging] (so that the
    stylesheet rule [.dragging .entity-controls] no longer hides its
    controls) and no other element has been given it; a carousel moreover
    ends with speed zero and no animation frame outstanding, having
    cancelled the one that was and requested none. *)
Theorem C9_teardown_without_persistence :
  (∀ grid h w0 x y evt m w,
     truthy (get grid (tree w0) ≫= λ e, areaId (dataset (props e))) = false →
     let c := Grid.set_last x y (Grid.setupGridSortable grid h w0) in
     let r := Grid.onEnd evt c m w in
     persist_calls r.2 = persist_calls w
     ∧ dragVisual r.1.2 = None
     ∧ (∀ id, dragVisual m = Some id → id ∉ nid <$> body r.2)
     ∧ (("mousemove", h) ∉ listeners r.2)
     ∧ (("touchmove", h) ∉ listeners r.2)
     ∧ Forall (λ d, visibility (props d) = "") (controls_of grid r.2)
     ∧ matches_at sel_dragging (tree r.2) (item_path grid evt) = false
     ∧ (∀ a, matches_at sel_dragging (tree r.2) a = true →
             matches_at sel_dragging (tree w) a = true ∧ a ≠ item_path grid evt)
     ∧ userSelect r.2 = ""
     ∧ isReordering r.2 = false)
  ∧ (∀ evt c m w carousel e,
       closest sel_carousel_grid (tree w) (item_path (Carousel.carouselGrid c) evt)
         = Some carousel →
       get carousel (tree w) = Some e →
       truthy (areaId (dataset (props e))) && truthy (sectionType (dataset (props e)))
         = false →
       let r := Carousel.onEnd evt c m w in
       persist_calls r.2 = persist_calls w
       ∧ dragVisual r.1.2 = None
       ∧ (∀ id, dragVisual m = Some id → id ∉ nid <$> body r.2)
       ∧ (("mousemove", Carousel.onMove c) ∉ listeners r.2)
       ∧ (("touchmove", Carousel.onMove c) ∉ listeners r.2)
       ∧ Forall (λ d, visibility (props d) = "")
           (controls_of (Carousel.carouselGrid c) r.2)
       ∧ matches_at sel_dragging (tree r.2) (item_path (Carousel.carouselGrid c) evt)
         = false
       ∧ (∀ a, matches_at sel_dragging (tree r.2) a = true →
               matches_at sel_dragging (tree w) a = true
               ∧ a ≠ item_path (Carousel.carouselGrid c) evt)
       ∧ userSelect r.2 = ""
       ∧ Carousel.currentScrollSpeed r.1.1 = 0%float
       ∧ Carousel.scrollAnimationId r.1.1 = None
       ∧ (∀ id, Carousel.scrollAnimationId c = Some id →
                CancelAnimationFrame id ∈ effects r.2)
       ∧ Loop.requests r.2 = Loop.requests w).
Proof.
  split.
  - intros grid h w0 x y evt m w Hno c r.
    pose proof (grid_onEnd_spec evt c m w)
      as (E1 & E2 & E3 & _ & _ & E6 & E7 & E8 & E9 & E10).
    cbn zeta in *. fold r in E1, E2, E3, E6, E7, E8, E9, E10.
    change (Grid.areaId c) with (get grid (tree w0) ≫= λ e, areaId (dataset (props e))) in E3.
    rewrite Hno, app_nil_r in E3.
    change (Grid.gridContainer c) with grid in E2.
    destruct (dragging_gone_after_onEnd grid (item_path grid evt) (tree w)) as [D1 D2].
    rewrite <- E2 in D1, D2.
    repeat apply conj; try done. eapply controls_after_update. exact E2.
  - intros evt c m w carousel e Hc He Hno r.
    pose proof (carousel_onEnd_spec evt c m w)
      as (_ & E2 & E3 & _ & _ & E6 & E7 & E8 & E9 & E10 & E11 & E12).
    cbn zeta in *. fold r in E2, E3, E6, E7, E8, E9, E10, E11, E12.
    unfold carousel_calls in E3. rewrite Hc, He, Hno, app_nil_r in E3.
    destruct (dragging_gone_after_onEnd (Carousel.carouselGrid c)
                (item_path (Carousel.carouselGrid c) evt) (tree w)) as [D1 D2].
    rewrite <- E2 in D1, D2.
    destruct (carousel_onEnd_effects evt c m w) as (l & El & Fl). fold r in El.
    repeat apply conj; try done.
    + eapply controls_after_update. exact E2.
    + intros id Hid. rewrite El, Hid. set_solver.
    + eapply requests_app_quiet; [exact El|].
      apply Forall_app. split; [|done]. destruct (Carousel.scrollAnimationId c); by repeat constructor.
Qed.

(** A drag in the grid without an area id, and one in the carousel
    without data attributes while its scroll loop is running, of the
    sample dashboard. *)
Lemma C9_teardown_without_persistence_witness :
  let c := Grid.set_last 5 5 (Grid.setupGridSortable [1] 7 sample_world) in
  let started := Grid.onStart (mouse_at 0 5 5) c sample_manager sample_world in
  persist_calls (Grid.onEnd (mouse_at 0 5 5) c started.1.2 started.2).2 = []
  ∧ (let k := Carousel.set_scrollAnimationId (Some 4)
                (Carousel.set_currentScrollSpeed (-9)
                   (Carousel.setupCarouselSortable [3; 0] (Some sample_box) 8)) in
     let begun := Carousel.onStart (mouse_at 1 9 9) k sample_manager sample_world in
     let r := Carousel.onEnd (mouse_at 1 9 9) begun.1.1 begun.1.2 begun.2 in
     persist_calls r.2 = []
     ∧ matches_at sel_dragging (tree begun.2) [3; 0; 1] = true
     ∧ matches_at sel_dragging (tree r.2) [3; 0; 1] = false
     ∧ Carousel.currentScrollSpeed r.1.1 = 0%float
     ∧ CancelAnimationFrame 4 ∈ effects r.2).
Proof.
  split.
  - refine (proj1 (proj1 C9_teardown_without_persistence
                     [1] 7 sample_world 5%float 5%float (mouse_at 0 5 5) _ _ _)).
    vm_compute. reflexivity.
  - cbn zeta.
    set (k := Carousel.set_scrollAnimationId (Some 4)
                (Carousel.set_currentScrollSpeed (-9)
                   (Carousel.setupCarouselSortable [3; 0] (Some sample_box) 8))).
    set (begun := Carousel.onStart (mouse_at 1 9 9) k sample_manager sample_world).
    edestruct (proj2 C9_teardown_without_persistence (mouse_at 1 9 9)
                 begun.1.1 begun.1.2 begun.2 [3; 0])
      as (H1 & _ & _ & _ & _ & _ & H7 & _ & _ & H10 & _ & H12 & _).
    + vm_compute. reflexivity.
    + vm_compute. reflexivity.
    + vm_compute. reflexivity.
    + split; [exact H1|]. split; [vm_compute; reflexivity|].
      split; [exact H7|]. split; [exact H10|]. apply H12. reflexivity.
Defined.

(** *** The chip row as [AppleChips] renders it *)

(** The chips grid of the rendered markup. *)
Lemma rendered_at_grid rtl editMode activeGroup chips container t :
  rendered_at rtl editMode activeGroup chips container t →
  ∃ p, get (container ++ [1; 0; 0]) (markup t)
       = Some (El p (Chips.render_chip editMode activeGroup <$> chips))
       ∧ classes p = ["chips-grid"].
Proof.
  unfold rendered_at. intros H. rewrite get_app.
  destruct (get container (markup t)) as [[p ks]|]; [|done].
  cbn in H. injection H as ->. eexists. split; reflexivity.
Qed.

(** [enableChipsCarousel] finds the chips grid of the rendered markup. *)
Lemma rendered_at_found rtl editMode activeGroup chips container t :
  rendered_at rtl editMode activeGroup chips container t →
  querySelector_at (SClass "chips-grid") t container = Some (container ++ [1; 0; 0]).
Proof.
  intros H. unfold querySelector_at.
  rewrite <- (querySelectorAll_at_map_props _ bare) by (intros; by apply matches_bare).
  fold (markup t). unfold querySelectorAll_at, rendered_at in *.
  destruct (get container (markup t)) as [[p ks]|]; [|done].
  cbn in H. injection H as ->.
  unfold Chips.generateHTML, div.
  cbn [descendant_paths fmap list_fmap app].
  rewrite filter_cons_False by (vm_compute; congruence).
  rewrite filter_cons_False by (vm_compute; congruence).
  rewrite filter_cons_False by (destruct rtl; vm_compute; congruence).
  rewrite filter_cons_True by (vm_compute; congruence). done.
Qed.

Lemma attached_below_rendered rtl editMode activeGroup chips container c t :
  rendered_at rtl editMode activeGroup chips container t →
  ChipsRow.attached_below container c t →
  ChipsRow.chipsCarousel c = container ++ [1; 0; 0].
Proof.
  intros Hr Ha. unfold ChipsRow.attached_below in Ha.
  rewrite (rendered_at_found _ _ _ _ _ _ Hr) in Ha. by injection Ha.
Qed.

(** The rendered chips hold no control element. *)
Lemma rendered_chips_have_no_controls p editMode activeGroup chips :
  querySelectorAll sel_controls (El p (Chips.render_chip editMode activeGroup <$> chips))
  = [].
Proof.
  apply querySelectorAll_nil. apply Forall_fmap, Forall_forall. intros chip _.
  unfold compose, Chips.render_chip.
  destruct editMode; case_bool_decide; split; vm_compute; reflexivity.
Qed.

Lemma rendered_markup_has_no_controls p rtl editMode activeGroup chips :
  querySelectorAll sel_controls (El p (Chips.generateHTML rtl editMode activeGroup chips))
  = [].
Proof.
  unfold Chips.generateHTML, div.
  apply querySelectorAll_nil. repeat constructor.
  apply querySelectorAll_nil. repeat constructor; [by destruct rtl|].
  apply querySelectorAll_nil. repeat constructor.
  apply rendered_chips_have_no_controls.
Qed.

(** A query that finds nothing in the markup finds nothing in the
    element. *)
Lemma controls_of_markup q w e :
  get q (markup (tree w)) = Some e → querySelectorAll sel_controls e = [] →
  controls_of q w = [].
Proof.
  intros Hg He. unfold controls_of. rewrite markup_get in Hg.
  destruct (get q (tree w)) as [g|]; [|done]. cbn in Hg. injection Hg as <-.
  rewrite querySelectorAll_markup in He by done. by apply fmap_nil_inv in He.
Qed.

Lemma rendered_at_controls rtl editMode activeGroup chips container w :
  rendered_at rtl editMode activeGroup chips container (tree w) →
  controls_of container w = [] ∧ controls_of (container ++ [1; 0; 0]) w = [].
Proof.
  intros H. split.
  - unfold rendered_at in H.
    destruct (get container (markup (tree w))) as [[p ks]|] eqn:E; [|done].
    cbn in H. injection H as ->.
    eapply controls_of_markup; [exact E|]. apply rendered_markup_has_no_controls.
  - destruct (rendered_at_grid _ _ _ _ _ _ H) as (p & Hg & _).
    eapply controls_of_markup; [exact Hg|]. apply rendered_chips_have_no_controls.
Qed.

(** Seen from a chip wrapper of the rendered markup, no element up to
    the chips container matches [.carousel-grid.chips]: the chips grid
    carries the class [chips-grid] alone. *)
Lemma rendered_at_below rtl editMode activeGroup chips container t j q :
  rendered_at rtl editMode activeGroup chips container t →
  matches_at sel_chips_grid t (container ++ j :: q)
  = matches_at sel_chips_grid
      (El (mkProps "div" [] no_data) (Chips.generateHTML rtl editMode activeGroup chips))
      (j :: q).
Proof.
  intros H. rewrite <- matches_at_markup by done.
  unfold matches_at, rendered_at in *. rewrite get_app.
  destruct (get container (markup t)) as [[p ks]|]; [|done].
  cbn in H. injection H as ->. reflexivity.
Qed.

Lemma rendered_at_closest rtl editMode activeGroup chips container t i :
  rendered_at rtl editMode activeGroup chips container t →
  closest sel_chips_grid t ((container ++ [1; 0; 0]) ++ [i])
  = closest sel_chips_grid t container.
Proof.
  intros H.
  replace (container ++ [1; 0; 0]) with (((container ++ [1]) ++ [0]) ++ [0])
    by (by rewrite <- !app_assoc).
  rewrite !closest_child; [done|..]; rewrite <- ?app_assoc; cbn [app];
    rewrite (rendered_at_below _ _ _ _ _ _ _ _ H).
  - by destruct rtl.
  - by destruct rtl.
  - done.
  - unfold matches_at. cbn [get kids mbind option_bind Chips.generateHTML div lookup
                            list_lookup].
    rewrite list_lookup_fmap.
    destruct (chips !! i) as [chip|]; [|done]. cbn. by destruct editMode.
Qed.

(** A drop keeps the markup that of [generateHTML], now for the chips in
    their new order. *)
Lemma move_child_fmap {A B} (f : A → B) i j ks :
  f <$> move_child i j ks = move_child i j (f <$> ks).
Proof.
  unfold move_child. rewrite list_lookup_fmap. destruct (ks !! i); simpl; [|done].
  by rewrite fmap_app, fmap_cons, fmap_take, fmap_drop, list_fmap_delete.
Qed.

Lemma markup_move_child q i j t :
  markup (update q (λ e, El (props e) (move_child i j (kids e))) t)
  = update q (λ e, El (props e) (move_child i j (kids e))) (markup t).
Proof.
  apply map_props_update_natural. intros [p ks]. simpl. f_equal. apply move_child_fmap.
Qed.

Lemma rendered_at_move_child rtl editMode activeGroup chips container i j t :
  rendered_at rtl editMode activeGroup chips container t →
  rendered_at rtl editMode activeGroup (move_child i j chips) container
    (update (container ++ [1; 0; 0]) (λ e, El (props e) (move_child i j (kids e))) t).
Proof.
  unfold rendered_at. intros H. rewrite markup_move_child, get_update_prefix.
  destruct (get container (markup t)) as [[p ks]|]; [|done].
  cbn in H. injection H as ->. unfold Chips.generateHTML, div.
  cbn [fmap option_fmap option_map update alter list_alter kids props].
  by rewrite move_child_fmap.
Qed.

(** C6: in every container kind every control of the container is hidden
    once [onStart] has run and visible again once [onEnd] has run, after
    a drop as after a cancel. In grids and carousels [onStart] writes
    [visibility: hidden] on every [.entity-controls] below the container;
    [onEnd] clears it, takes the class [dragging] off the dropped item
    (so that the stylesheet rule [.dragging .entity-controls] lets its
    controls show) and gives the class to no other element. The handlers
    of the chip row do not touch controls, and there is none to touch:
    the markup [AppleChips] renders holds no [.entity-controls]
    element. *)
Theorem C6_controls_hidden_on_start_and_visible_after_the_end :
  (∀ evt c m w,
     Forall (λ d, visibility (props d) = "hidden")
       (controls_of (Grid.gridContainer c) (Grid.onStart evt c m w).2))
  ∧ (∀ evt c m w,
       Forall (λ d, visibility (props d) = "hidden")
         (controls_of (Carousel.carouselGrid c) (Carousel.onStart evt c m w).2))
  ∧ (∀ evt c m w,
       let r := Grid.onEnd evt c m w in
       Forall (λ d, visibility (props d) = "") (controls_of (Grid.gridContainer c) r.2)
       ∧ matches_at sel_dragging (tree r.2) (item_path (Grid.gridContainer c) evt) = false
       ∧ (∀ a, matches_at sel_dragging (tree r.2) a = true →
               matches_at sel_dragging (tree w) a = true))
  ∧ (∀ evt c m w,
       let r := Carousel.onEnd evt c m w in
       Forall (λ d, visibility (props d) = "") (controls_of (Carousel.carouselGrid c) r.2)
       ∧ matches_at sel_dragging (tree r.2) (item_path (Carousel.carouselGrid c) evt)
         = false
       ∧ (∀ a, matches_at sel_dragging (tree r.2) a = true →
               matches_at sel_dragging (tree w) a = true))
  ∧ (∀ start es o fin c m w,
       Forall (λ d, visibility (props d) = "")
         (controls_of (Grid.gridContainer c) (Grid.session start es o fin c m w).2))
  ∧ (∀ start ins o fin c m w,
       Forall (λ d, visibility (props d) = "")
         (controls_of (Carousel.carouselGrid c) (Carousel.session start ins o fin c m w).2))
  ∧ (∀ rtl editMode activeGroup chips container evt c m w,
       rendered_at rtl editMode activeGroup chips container (tree w) →
       ChipsRow.attached_below container c (tree w) →
       Forall (λ d, visibility (props d) = "hidden")
         (controls_of (ChipsRow.chipsCarousel c) (ChipsRow.onStart evt c m w).2)
       ∧ Forall (λ d, visibility (props d) = "")
           (controls_of (ChipsRow.chipsCarousel c) (ChipsRow.onEnd evt c m w).2)
       ∧ controls_of (ChipsRow.chipsCarousel c) (ChipsRow.onStart evt c m w).2 = []
       ∧ controls_of (ChipsRow.chipsCarousel c) (ChipsRow.onEnd evt c m w).2 = []
       ∧ controls_of container w = []).
Proof.
  repeat apply conj.
  - intros. eapply controls_after_update. apply grid_onStart_spec.
  - intros. eapply controls_after_update. apply carousel_onStart_spec.
  - intros evt c m w r.
    pose proof (grid_onEnd_spec evt c m w) as (_ & E2 & _). cbn zeta in E2. fold r in E2.
    destruct (dragging_gone_after_onEnd (Grid.gridContainer c)
                (item_path (Grid.gridContainer c) evt) (tree w)) as [D1 D2].
    rewrite <- E2 in D1, D2.
    split; [by eapply controls_after_update|]. split; [done|].
    intros a Ha. by apply D2.
  - intros evt c m w r.
    pose proof (carousel_onEnd_spec evt c m w) as (_ & E2 & _). cbn zeta in E2. fold r in E2.
    destruct (dragging_gone_after_onEnd (Carousel.carouselGrid c)
                (item_path (Carousel.carouselGrid c) evt) (tree w)) as [D1 D2].
    rewrite <- E2 in D1, D2.
    split; [by eapply controls_after_update|]. split; [done|].
    intros a Ha. by apply D2.
  - intros. apply grid_session_spec.
  - intros. apply carousel_session_spec.
  - intros rtl editMode activeGroup chips container evt c m w Hr Ha.
    pose proof (attached_below_rendered _ _ _ _ _ _ _ Hr Ha) as Hc.
    destruct (rendered_at_grid _ _ _ _ _ _ Hr) as (p & Hg & _).
    destruct (rendered_at_controls _ _ _ _ _ _ Hr) as [Hall _].
    assert (controls_of (ChipsRow.chipsCarousel c) (ChipsRow.onStart evt c m w).2 = [])
      as Hs.
    { eapply controls_of_markup; [|apply rendered_chips_have_no_controls].
      pose proof (chips_onStart_spec evt c m w) as (_ & -> & _).
      rewrite markup_update_add, Hc. exact Hg. }
    assert (controls_of (ChipsRow.chipsCarousel c) (ChipsRow.onEnd evt c m w).2 = [])
      as He.
    { eapply controls_of_markup; [|apply rendered_chips_have_no_controls].
      pose proof (chips_onEnd_spec evt c m w) as (_ & -> & _).
      rewrite markup_update_remove, Hc. exact Hg. }
    rewrite Hs, He. by repeat split.
Qed.

(** A drag of the second chip of the sample dashboard after layout. *)
Lemma C6_controls_hidden_on_start_and_visible_after_the_end_witness :
  let w := laid_out_world in
  let c := sample_chips_closure in
  let evt := mouse_at 1 10 10 in
  ChipsRow.enableChipsCarousel [4] None 0 w = Some c
  ∧ Forall (λ d, visibility (props d) = "hidden")
      (controls_of (ChipsRow.chipsCarousel c) (ChipsRow.onStart evt c sample_manager w).2)
  ∧ controls_of [4] w = [].
Proof.
  cbn zeta. split; [vm_compute; reflexivity|].
  destruct (proj2 (proj2 (proj2 (proj2 (proj2 (proj2
              C6_controls_hidden_on_start_and_visible_after_the_end)))))
              false true None
              [Chips.mkChip "climate"; Chips.mkChip "lights"; Chips.mkChip "security"]
              [4] (mouse_at 1 10 10) sample_chips_closure sample_manager laid_out_world)
    as (H1 & _ & _ & _ & H5).
  - vm_compute. reflexivity.
  - vm_compute. reflexivity.
  - by split.
Defined.

(** Called on the chips grid of the rendered markup, [updateChipsOrder]
    hands the groups of the chips, in their order in the DOM, to
    [saveChipsOrder]. *)
Lemma updateChipsOrder_rendered rtl editMode activeGroup chips container m cm w :
  rendered_at rtl editMode activeGroup chips container (tree w) →
  customizationManager m = Some cm →
  persist_calls (updateChipsOrder (container ++ [1; 0; 0]) m w)
  = persist_calls w ++ [SaveChipsOrder (filter (λ g, g ≠ "") (Chips.group <$> chips))].
Proof.
  intros Hr Hcm. rewrite persist_calls_updateChipsOrder, Hcm.
  destruct (rendered_at_grid _ _ _ _ _ _ Hr) as (p & Hg & _).
  rewrite markup_get in Hg.
  destruct (get (container ++ [1; 0; 0]) (tree w)) as [g|]; [|done].
  cbn in Hg. injection Hg as Hg.
  by rewrite <- chips_order_markup, Hg, MarkupFacts.chips_order_rendered.
Qed.

(** C1: a drop on the chip row is never persisted. At the end of a drag
    the grid's [onEnd] calls [saveOrderCallback] once, with the area id
    alone, when the grid has one; the carousel's [onEnd] calls
    [updateCarouselOrderWithContext] once, with the identifiers of the
    card wrappers in DOM order at drop time, when its nearest carousel
    grid has an area id and a section type and a customization manager is
    present. The chip row's [onEnd] is written the same way, and calls
    nothing: in the markup [AppleChips] renders, the chips grid that
    [enableChipsCarousel] attaches to carries the class [chips-grid]
    alone, while [onEnd] looks for the nearest [.carousel-grid.chips] to
    hand to [updateChipsOrder]. Unless the chips container itself lies
    inside such an element, [onEnd] finds none, with a customization
    manager present and whatever the order of the chips at drop time. So
    a whole gesture that ends in a drop, the chip at place [i] put at
    place [j], leaves the markup that of the chips in their new order and
    hands nothing to the host. The callback itself works: called on the
    grid the row is attached to, [updateChipsOrder] saves the groups of
    the chips in their order in the DOM. *)
Theorem C1_rendered_chip_row_drop_is_not_persisted :
  (∀ evt c m w,
     persist_calls (Grid.onEnd evt c m w).2
     = persist_calls w
         ++ (if truthy (Grid.areaId c) then [SaveOrder (default "" (Grid.areaId c))] else []))
  ∧ (∀ evt c m w carousel e a st cm,
       closest sel_carousel_grid (tree w) (item_path (Carousel.carouselGrid c) evt)
         = Some carousel →
       get carousel (tree w) = Some e →
       areaId (dataset (props e)) = Some a → a ≠ "" →
       sectionType (dataset (props e)) = Some st → st ≠ "" →
       customizationManager m = Some cm →
       persist_calls (Carousel.onEnd evt c m w).2
       = persist_calls w
           ++ [UpdateCarouselOrderWithContext a st (carousel_order e) (context m)])
  ∧ (∀ rtl editMode activeGroup chips container evt c m cm w,
       rendered_at rtl editMode activeGroup chips container (tree w) →
       ChipsRow.attached_below container c (tree w) →
       closest sel_chips_grid (tree w) container = None →
       customizationManager m = Some cm →
       persist_calls (ChipsRow.onEnd evt c m w).2 = persist_calls w
       ∧ persist_calls (updateChipsOrder (ChipsRow.chipsCarousel c) m w)
         = persist_calls w
             ++ [SaveChipsOrder (filter (λ g, g ≠ "") (Chips.group <$> chips))])
  ∧ (∀ rtl editMode activeGroup chips container start ins i j fin c m cm w,
       rendered_at rtl editMode activeGroup chips container (tree w) →
       ChipsRow.attached_below container c (tree w) →
       closest sel_chips_grid (tree w) container = None →
       customizationManager m = Some cm →
       let r := ChipsRow.session start ins (Dropped (move_child i j)) fin c m w in
       persist_calls r.2 = persist_calls w
       ∧ rendered_at rtl editMode activeGroup (move_child i j chips) container (tree r.2)
       ∧ persist_calls (updateChipsOrder (ChipsRow.chipsCarousel c) m r.2)
         = persist_calls w
             ++ [SaveChipsOrder
                   (filter (λ g, g ≠ "") (Chips.group <$> move_child i j chips))]).
Proof.
  repeat apply conj.
  - intros evt c m w. by pose proof (grid_onEnd_spec evt c m w) as (_ & _ & E3 & _).
  - intros evt c m w carousel e a st cm Hc He Ha Hane Hs Hsne Hcm.
    pose proof (carousel_onEnd_spec evt c m w) as (_ & _ & E3 & _).
    cbn zeta in E3. rewrite E3. unfold carousel_calls.
    by rewrite Hc, He, Ha, Hs, Hcm, !truthy_Some.
  - intros rtl editMode activeGroup chips container evt c m cm w Hr Ha Hout Hcm.
    pose proof (attached_below_rendered _ _ _ _ _ _ _ Hr Ha) as Hc. split.
    + pose proof (chips_onEnd_spec evt c m w) as (_ & _ & E3 & _). cbn zeta in E3.
      rewrite E3. unfold chips_calls, item_path. rewrite Hc.
      rewrite (rendered_at_closest _ _ _ _ _ _ _ Hr), Hout. apply app_nil_r.
    + rewrite Hc. by eapply updateChipsOrder_rendered.
  - intros rtl editMode activeGroup chips container start ins i j fin c m cm w
      Hr Ha Hout Hcm.
    pose proof (attached_below_rendered _ _ _ _ _ _ _ Hr Ha) as Hc.
    rewrite chips_session_unfold. cbn zeta.
    pose proof (chips_onStart_spec start c m w) as (S1 & S2 & S3 & S4 & S5 & S6 & S7 & _).
    cbn zeta in *. set (r1 := ChipsRow.onStart start c m w) in *.
    pose proof (chips_run_quiet ins r1.1.1 r1.1.2 r1.2)
      as ((Q1 & Q2 & Q3 & Q4 & Q5 & Q6 & Q7 & Q8 & Q9 & Q10) & M1 & M2).
    set (r2 := ChipsRow.run ins r1.1.1 r1.1.2 r1.2) in *.
    set (w3 := library_settle (ChipsRow.chipsCarousel r2.1) (Dropped (move_child i j)) r2.2).
    pose proof (chips_onEnd_spec fin r2.1 r1.1.2 w3) as (E1 & E2 & E3 & _).
    cbn zeta in *.
    assert (tree w3
            = update (container ++ [1; 0; 0])
                (λ e, El (props e) (move_child i j (kids e)))
                (update ((container ++ [1; 0; 0]) ++ [item start])
                   (on_props (classList_add "dragging")) (tree w))) as Hw3.
    { unfold w3. cbn [library_settle]. rewrite M1, S6, Hc, Q9, S2.
      unfold item_path. by rewrite Hc. }
    assert (rendered_at rtl editMode activeGroup (move_child i j chips) container (tree w3))
      as Hr3.
    { rewrite Hw3. apply rendered_at_move_child. unfold rendered_at.
      by rewrite markup_update_add. }
    assert (persist_calls w3 = persist_calls w) as Hp3.
    { unfold w3. cbn [library_settle]. frame persist_calls. congruence. }
    assert (rendered_at rtl editMode activeGroup (move_child i j chips) container
              (tree (ChipsRow.onEnd fin r2.1 r1.1.2 w3).2)) as Hr4.
    { unfold rendered_at. rewrite E2, markup_update_remove. exact Hr3. }
    assert (persist_calls (ChipsRow.onEnd fin r2.1 r1.1.2 w3).2 = persist_calls w) as Hp4.
    { rewrite E3, Hp3. unfold chips_calls, item_path. rewrite M1, S6, Hc.
      rewrite (rendered_at_closest _ _ _ _ _ _ _ Hr3), Hw3.
      rewrite closest_update_below by done.
      rewrite <- app_assoc, closest_update_below by done.
      rewrite Hout. apply app_nil_r. }
    split; [exact Hp4|]. split; [exact Hr4|].
    rewrite Hc, <- Hp4. by eapply updateChipsOrder_rendered.
Qed.

(** On the sample dashboard: a drop in the camera carousel of the kitchen
    hands the new order of its cards to the host; the first chip dragged
    behind the others leaves the chips in the order lights, security,
    climate, and the whole gesture hands nothing to the host. *)
Lemma C1_rendered_chip_row_drop_is_not_persisted_witness :
  (let c := Carousel.setupCarouselSortable [2; 0] None 8 in
   let w := library_settle [2; 0] (Dropped (move_child 0 1)) laid_out_world in
   persist_calls (Carousel.onEnd (mouse_at 1 60 5) c sample_manager w).2
   = [UpdateCarouselOrderWithContext "kitchen" "cameras" ["camera.b"; "camera.a"] "home"])
  ∧ (let c := sample_chips_closure in
     let r := ChipsRow.session (mouse_at 0 10 10) [Pointer (MouseEvent 200 12)]
                (Dropped (move_child 0 2)) (mouse_at 2 200 12) c sample_manager
                laid_out_world in
     ChipsRow.enableChipsCarousel [4] None 0 laid_out_world = Some c
     ∧ dom_order sel_chip_wrapper [4; 1; 0; 0] r.2
       ≠ dom_order sel_chip_wrapper [4; 1; 0; 0] laid_out_world
     ∧ persist_calls r.2 = []
     ∧ persist_calls (updateChipsOrder (ChipsRow.chipsCarousel c) sample_manager r.2)
       = [SaveChipsOrder ["lights"; "security"; "climate"]]).
Proof.
  split; cbn zeta.
  - pose proof (proj1 (proj2 C1_rendered_chip_row_drop_is_not_persisted)
                  (mouse_at 1 60 5) (Carousel.setupCarouselSortable [2; 0] None 8)
                  sample_manager
                  (library_settle [2; 0] (Dropped (move_child 0 1)) laid_out_world)
                  [2; 0]) as H.
    specialize (H _ "kitchen" "cameras" _
                  ltac:(vm_compute; reflexivity) ltac:(vm_compute; reflexivity)
                  ltac:(vm_compute; reflexivity) ltac:(discriminate)
                  ltac:(vm_compute; reflexivity) ltac:(discriminate)
                  ltac:(reflexivity)).
    exact H.
  - split; [vm_compute; reflexivity|].
    split; [vm_compute; discriminate|].
    destruct (proj2 (proj2 (proj2 C1_rendered_chip_row_drop_is_not_persisted))
                false true None
                [Chips.mkChip "climate"; Chips.mkChip "lights"; Chips.mkChip "security"]
                [4] (mouse_at 0 10 10) [Pointer (MouseEvent 200 12)] 0 2
                (mouse_at 2 200 12) sample_chips_closure sample_manager
                {| getSavedChipsOrder := [] |} laid_out_world) as (H1 & _ & H3).
    + vm_compute. reflexivity.
    + vm_compute. reflexivity.
    + vm_compute. reflexivity.
    + vm_compute. reflexivity.
    + split; [exact H1|exact H3].
Defined.

(** C2 (as stated) fails: a cancelled drag on the kitchen grid leaves the
    order of the cards as it was, and [onEnd] still calls
    [saveOrderCallback]. *)
Lemma C2_cancelled_grid_drag_is_persisted :
  let c := Grid.setupGridSortable [0] 7 sample_world in
  let r := Grid.session (mouse_at 0 5 5) [MouseEvent 60 5] Cancelled
             (mouse_at 0 60 5) c sample_manager sample_world in
  dom_order sel_card_wrapper [0] r.2 = dom_order sel_card_wrapper [0] sample_world
  ∧ persist_calls r.2 = [SaveOrder "kitchen"]
  ∧ persist_calls r.2 ≠ [].
Proof.
  cbn zeta.
  assert (persist_calls
            (Grid.session (mouse_at 0 5 5) [MouseEvent 60 5] Cancelled
               (mouse_at 0 60 5) (Grid.setupGridSortable [0] 7 sample_world)
               sample_manager sample_world).2 = [SaveOrder "kitchen"]) as H
    by (vm_compute; reflexivity).
  split; [vm_compute; reflexivity|]. split; [exact H|by rewrite H].
Qed.

(** C2 (amended): after a cancelled drag the container's DOM order is
    what it was before the drag started, in every container kind; the
    handlers have no cancel path, so [onEnd] hands the order to the host
    under the same conditions as after a drop, for instance once for a
    grid with a non-empty area id. *)
Theorem C2_cancelled_drag_keeps_order_but_still_persists :
  (∀ start es fin c m w q,
     dom_order sel_card_wrapper q (Grid.session start es Cancelled fin c m w).2
     = dom_order sel_card_wrapper q w)
  ∧ (∀ start ins fin c m w q,
       dom_order sel_card_wrapper q (Carousel.session start ins Cancelled fin c m w).2
       = dom_order sel_card_wrapper q w)
  ∧ (∀ start ins fin c m w q,
       dom_order sel_chip_wrapper q (ChipsRow.session start ins Cancelled fin c m w).2
       = dom_order sel_chip_wrapper q w)
  ∧ (∀ start es fin c m w a,
       Grid.areaId c = Some a → a ≠ "" →
       persist_calls (Grid.session start es Cancelled fin c m w).2
       = persist_calls w ++ [SaveOrder a]).
Proof.
  repeat apply conj.
  - intros. apply dom_order_settled; [done|].
    by apply (grid_session_spec start es Cancelled fin c m w).
  - intros. apply dom_order_settled; [done|].
    by apply (carousel_session_spec start ins Cancelled fin c m w).
  - intros. apply dom_order_settled; [done|].
    by apply (chips_session_spec start ins Cancelled fin c m w).
  - intros start es fin c m w a Ha Hne.
    pose proof (grid_session_spec start es Cancelled fin c m w) as (_ & E2 & _).
    cbn zeta in E2. by rewrite E2, Ha, truthy_Some.
Qed.

(** A cancelled drag of the first card of the kitchen grid. *)
Lemma C2_cancelled_drag_keeps_order_but_still_persists_witness :
  let c := Grid.setupGridSortable [0] 7 sample_world in
  persist_calls (Grid.session (mouse_at 0 5 5) [MouseEvent 60 5] Cancelled
                   (mouse_at 0 60 5) c sample_manager sample_world).2
  = [SaveOrder "kitchen"].
Proof.
  cbn zeta.
  refine (proj2 (proj2 (proj2 C2_cancelled_drag_keeps_order_but_still_persists))
            _ _ _ _ _ _ "kitchen" _ _).
  - vm_compute. reflexivity.
  - discriminate.
Defined.

End DragClaims.

(** ** The drag visual *)

Module VisualFacts.
Import Dom Engine Scenario EngineFacts.

Lemma removeChild_ids id b :
  nid <$> removeChild id b = filter (λ x, x ≠ id) (nid <$> b).
Proof.
  unfold removeChild. induction b as [|n b IH]; [done|].
  rewrite fmap_cons, !filter_cons. repeat case_decide; try done.
  by rewrite fmap_cons, IH.
Qed.

Lemma removeChild_absent id b : id ∉ nid <$> b → removeChild id b = b.
Proof.
  unfold removeChild. induction b as [|n b IH]; [done|].
  rewrite fmap_cons, not_elem_of_cons. intros [Hn Hb].
  rewrite filter_cons_True by done. by rewrite IH.
Qed.

Lemma removeDragVisual_body m w :
  body (removeDragVisual m w).2
  = match dragVisual m with
    | Some id => removeChild id (body w)
    | None => body w
    end.
Proof.
  unfold removeDragVisual. cbn [snd]. destruct (dragVisual m) as [id|]; [|done].
  case_bool_decide; [done|]. by rewrite removeChild_absent.
Qed.

Lemma removeDragVisual_next_node m w :
  next_node (removeDragVisual m w).2 = next_node w.
Proof. by frame next_node. Qed.

Lemma visual_inv_remove ms w i m :
  visual_inv (ms, w) → ms !! i = Some m →
  visual_inv (<[i := (removeDragVisual m w).1]> ms, (removeDragVisual m w).2).
Proof.
  intros (I1 & I2 & I3 & I4 & I5) Hi. unfold visual_inv in *. cbn [fst snd] in *.
  assert (i < length ms) as Hlt by (by eapply lookup_lt_Some).
  rewrite removeDragVisual_body, removeDragVisual_next_node.
  change (removeDragVisual m w).1 with (set_dragVisual None m).
  destruct (dragVisual m) as [id|] eqn:Hd.
  - rewrite removeChild_ids. repeat apply conj.
    + by apply NoDup_filter.
    + intros id'. rewrite list_elem_of_filter, I2. split.
      * intros (Hne & j & m' & Hj & Hm'). exists j, m'. split; [|done].
        rewrite list_lookup_insert_ne; [done|]. intros <-. congruence.
      * intros (j & m' & Hj & Hm').
        destruct (decide (i = j)) as [<-|Hij].
        { rewrite list_lookup_insert_eq in Hj by done. by simplify_eq. }
        rewrite list_lookup_insert_ne in Hj by done. split; [|by eauto].
        intros ->. apply Hij. by eapply I3.
    + intros j k m1 m2 id' Hj Hk H1 H2.
      destruct (decide (i = j)) as [<-|Hij].
      { rewrite list_lookup_insert_eq in Hj by done. by simplify_eq. }
      destruct (decide (i = k)) as [<-|Hik].
      { rewrite list_lookup_insert_eq in Hk by done. by simplify_eq. }
      rewrite list_lookup_insert_ne in Hj, Hk by done. by eapply I3.
    + intros id' [_ Hin]%list_elem_of_filter. by apply I4.
    + unfold removeChild. rewrite Forall_forall in *.
      intros n [_ Hn]%list_elem_of_filter. by apply I5.
  - assert (<[i := set_dragVisual None m]> ms !! i = Some (set_dragVisual None m)) as Hi'
      by (by apply list_lookup_insert_eq).
    assert (∀ j m' id, <[i := set_dragVisual None m]> ms !! j = Some m' →
              dragVisual m' = Some id → ms !! j = Some m') as Hback.
    { intros j m' id' Hj Hm'. destruct (decide (i = j)) as [<-|Hij].
      - rewrite Hi' in Hj. by simplify_eq.
      - by rewrite list_lookup_insert_ne in Hj. }
    repeat apply conj; try done.
    + intros id'. rewrite I2. split.
      * intros (j & m' & Hj & Hm'). exists j, m'. split; [|done].
        rewrite list_lookup_insert_ne; [done|]. intros <-. congruence.
      * intros (j & m' & Hj & Hm'). exists j, m'. eauto.
    + intros j k m1 m2 id' Hj Hk H1 H2. eapply I3; eauto.
Qed.

Lemma is_clone_new (isChip : bool) (id : nat) (l t wd ht : float) :
  is_clone {| nid := id;
              className := "drag-visual-clone" +:+ (if isChip then " chip" else "");
              n_left := l; n_top := t; n_width := wd; n_height := ht |} = true.
Proof. by destruct isChip. Qed.

Lemma visual_inv_create ms w i m el x y chip :
  visual_inv (ms, w) → ms !! i = Some m →
  visual_inv (<[i := (createDragVisual el x y chip m w).1]> ms,
              (createDragVisual el x y chip m w).2).
Proof.
  intros Hinv Hi.
  assert (i < length ms) as Hlt by (by eapply lookup_lt_Some).
  pose proof (visual_inv_remove ms w i m Hinv Hi) as (I1 & I2 & I3 & I4 & I5).
  unfold createDragVisual. rewrite (surjective_pairing (removeDragVisual m w)).
  cbn [fst snd] in *.
  set (ms1 := <[i := (removeDragVisual m w).1]> ms) in *.
  set (w1 := (removeDragVisual m w).2) in *.
  set (m1 := (removeDragVisual m w).1) in *.
  assert (ms1 !! i = Some m1) as Hi1 by (by apply list_lookup_insert_eq).
  assert (dragVisual m1 = None) as Hm1 by done.
  assert (next_node w1 ∉ nid <$> body w1) as Hfresh.
  { intros Hin. apply I4 in Hin. lia. }
  replace (<[i := set_dragVisual (Some (next_node w1)) m1]> ms)
    with (<[i := set_dragVisual (Some (next_node w1)) m1]> ms1)
    by (unfold ms1; apply list_insert_insert_eq).
  unfold visual_inv. cbn [fst snd body next_node set_next_node set_body nid].
  rewrite fmap_app. cbn [fmap list_fmap nid].
  repeat apply conj.
  - apply NoDup_app. split; [done|]. split; [|apply NoDup_singleton].
    intros id Hid Heq%list_elem_of_singleton. by subst.
  - intros id. rewrite elem_of_app, list_elem_of_singleton, I2. split.
    + intros [(j & m' & Hj & Hm') | ->].
      * exists j, m'. split; [|done].
        rewrite list_lookup_insert_ne; [done|]. intros <-. congruence.
      * exists i, (set_dragVisual (Some (next_node w1)) m1). split; [|done].
        apply list_lookup_insert_eq. unfold ms1. by rewrite length_insert.
    + intros (j & m' & Hj & Hm'). destruct (decide (i = j)) as [<-|Hij].
      * rewrite list_lookup_insert_eq in Hj
          by (unfold ms1; by rewrite length_insert).
        simplify_eq. cbn in Hm'. simplify_eq. by right.
      * rewrite list_lookup_insert_ne in Hj by done. left. eauto.
  - intros j k ma mb id Hj Hk Ha Hb.
    destruct (decide (i = j)) as [<-|Hij]; destruct (decide (i = k)) as [<-|Hik];
      try done.
    + rewrite list_lookup_insert_eq in Hj by (unfold ms1; by rewrite length_insert).
      rewrite list_lookup_insert_ne in Hk by done. simplify_eq. cbn in Ha. simplify_eq.
      exfalso. apply Hfresh, I2. eauto.
    + rewrite list_lookup_insert_eq in Hk by (unfold ms1; by rewrite length_insert).
      rewrite list_lookup_insert_ne in Hj by done. simplify_eq. cbn in Hb. simplify_eq.
      exfalso. apply Hfresh, I2. eauto.
    + rewrite list_lookup_insert_ne in Hj, Hk by done. by eapply I3.
  - intros id [Hin|Heq%list_elem_of_singleton]%elem_of_app; [|lia].
    apply I4 in Hin. lia.
  - apply Forall_app. split; [done|]. apply Forall_singleton, is_clone_new.
Qed.

Lemma visual_inv_step st op : visual_inv st → visual_inv (visual_step st op).
Proof.
  destruct st as [ms w]. intros Hinv.
  destruct op as [i el x y chip|i]; cbn [visual_step fst snd];
    destruct (ms !! i) as [m|] eqn:Hi; try done.
  - rewrite (surjective_pairing (createDragVisual el x y chip m w)).
    by apply visual_inv_create.
  - rewrite (surjective_pairing (removeDragVisual m w)).
    by apply visual_inv_remove.
Qed.

Lemma visual_step_length st op : length (visual_step st op).1 = length st.1.
Proof.
  destruct st as [ms w].
  destruct op as [i el x y chip|i]; cbn [visual_step fst snd];
    destruct (ms !! i) as [m|]; try done.
  - rewrite (surjective_pairing (createDragVisual el x y chip m w)). cbn [fst].
    apply length_insert.
  - rewrite (surjective_pairing (removeDragVisual m w)). cbn [fst].
    apply length_insert.
Qed.

Lemma visual_run_inv ops st :
  visual_inv st →
  visual_inv (visual_run ops st) ∧ length (visual_run ops st).1 = length st.1.
Proof.
  unfold visual_run. revert st. induction ops as [|op ops IH]; intros st Hinv; [done|].
  simpl. destruct (IH (visual_step st op)) as [H1 H2]; [by apply visual_inv_step|].
  split; [done|]. by rewrite H2, visual_step_length.
Qed.

Lemma injectGlobalStyles_body w :
  body (injectGlobalStyles w) = body w
  ∧ next_node (injectGlobalStyles w) = next_node w.
Proof. unfold injectGlobalStyles. by destruct (globalStylesInjected w). Qed.

Lemma construct_all_snoc args a w :
  construct_all (args ++ [a]) w
  = ((construct_all args w).1
       ++ [{| dragVisual := None; customizationManager := a.1;
              context := default "home" a.2 |}],
     injectGlobalStyles (construct_all args w).2).
Proof. unfold construct_all. by rewrite foldl_app. Qed.

Lemma construct_all_fresh args t :
  let st := construct_all args (initial_world t) in
  body st.2 = [] ∧ next_node st.2 = 0 ∧ length st.1 = length args
  ∧ Forall (λ m, dragVisual m = None) st.1.
Proof.
  induction args as [|a args IH] using rev_ind; [by repeat split|].
  rewrite construct_all_snoc. cbn zeta in *. cbn [fst snd].
  destruct IH as (IH1 & IH2 & IH3 & IH4).
  repeat apply conj.
  - by rewrite (proj1 (injectGlobalStyles_body _)).
  - by rewrite (proj2 (injectGlobalStyles_body _)).
  - rewrite !length_app, IH3. done.
  - apply Forall_app. split; [done|]. by repeat constructor.
Qed.

Lemma visual_inv_initial args t : visual_inv (construct_all args (initial_world t)).
Proof.
  pose proof (construct_all_fresh args t) as (H1 & H2 & H3 & H4). cbn zeta in *.
  unfold visual_inv. rewrite H1. repeat apply conj.
  - constructor.
  - intros id. split; [by intros ?%elem_of_nil|].
    intros (i & m & Hi & Hm). eapply Forall_lookup_1 in H4; [|exact Hi]. congruence.
  - intros i j m m' id Hi _ Hm _.
    eapply Forall_lookup_1 in H4; [|exact Hi]. congruence.
  - by intros id ?%elem_of_nil.
  - constructor.
Qed.

Lemma NoDup_omap_lookup {A B} (f : A → option B) (l : list A) :
  (∀ i j x y z, l !! i = Some x → l !! j = Some y → f x = Some z → f y = Some z → i = j) →
  NoDup (omap f l).
Proof.
  induction l as [|a l IH]; intros H; [constructor|].
  assert (NoDup (omap f l)) as Hl.
  { apply IH. intros i j x y z Hi Hj Hx Hy.
    assert (S i = S j) by (by eapply (H (S i) (S j))). lia. }
  cbn. destruct (f a) as [z|] eqn:E; [|done].
  constructor; [|done]. intros (y & Hy & Hfy)%list_elem_of_omap.
  apply list_elem_of_lookup in Hy as [j Hj].
  assert (0 = S j) by (by eapply (H 0 (S j) a y z)). lia.
Qed.

Lemma length_omap_le {A B} (f : A → option B) (l : list A) :
  length (omap f l) ≤ length l.
Proof.
  induction l as [|a l IH]; [done|]. cbn. destruct (f a); simpl; lia.
Qed.

Lemma length_omap_lt {A B} (f : A → option B) (l : list A) i x :
  l !! i = Some x → f x = None → length (omap f l) < length l.
Proof.
  revert i. induction l as [|a l IH]; intros i Hi Hx; [done|].
  destruct i as [|i]; simpl in Hi.
  - simplify_eq. cbn. rewrite Hx. pose proof (length_omap_le f l). simpl. lia.
  - pose proof (IH i Hi Hx). cbn. destruct (f a); simpl; lia.
Qed.

Lemma visual_inv_clones st :
  visual_inv st →
  clones st.2 = body st.2 ∧ nid <$> body st.2 ≡ₚ omap dragVisual st.1.
Proof.
  intros (I1 & I2 & I3 & I4 & I5). split.
  - unfold clones. clear -I5. induction I5 as [|n b Hn _ IH]; [done|].
    by rewrite filter_cons_True, IH.
  - apply NoDup_Permutation; [done|by apply NoDup_omap_lookup|].
    intros id. rewrite I2, list_elem_of_omap. split.
    + intros (i & m & Hi & Hm). exists m. split; [|done].
      apply list_elem_of_lookup. eauto.
    + intros (m & [i Hi]%list_elem_of_lookup & Hm). eauto.
Qed.

(** C4 (as stated) fails with two managers: the clone is an instance
    field, so a second manager starting a drag does not remove the first
    manager's clone and the document holds two. *)
Lemma C4_two_managers_two_clones :
  let st := visual_run [CreateVisual 0 (card "light.a") 10 10 false;
                        CreateVisual 1 (card "camera.a") 20 20 false]
              (construct_all [(None, None); (None, Some "room")]
                 (initial_world sample_tree)) in
  length (clones st.2) = 2 ∧ ¬ length (clones st.2) ≤ 1.
Proof. cbn zeta. split; [vm_compute; reflexivity|]. vm_compute. lia. Qed.

(** C4 (amended): at every moment the clone nodes in the document are
    exactly the nodes the managers refer to, one per manager at most, so
    there are never more clones than managers and at most one when a
    single manager exists; [createDragVisual] first removes the manager's
    own previous clone, and [createDragVisual] followed by
    [removeDragVisual] on a manager leaves that manager without a clone:
    one clone fewer than there are managers at most, none with a single
    manager. *)
Theorem C4_at_most_one_clone_per_manager t args ops :
  let st := visual_run ops (construct_all args (initial_world t)) in
  nid <$> clones st.2 ≡ₚ omap dragVisual st.1
  ∧ length (clones st.2) ≤ length args
  ∧ (∀ i el x y chip, i < length args →
       let st' := visual_run [CreateVisual i el x y chip; RemoveVisual i] st in
       (∃ m, st'.1 !! i = Some m ∧ dragVisual m = None)
       ∧ length (clones st'.2) ≤ length args - 1).
Proof.
  cbn zeta.
  pose proof (construct_all_fresh args t) as (_ & _ & Hlen0 & _). cbn zeta in Hlen0.
  destruct (visual_run_inv ops _ (visual_inv_initial args t)) as [Hinv Hlen].
  set (st := visual_run ops (construct_all args (initial_world t))) in *.
  destruct (visual_inv_clones st Hinv) as [Hc Hp].
  repeat apply conj.
  - by rewrite Hc.
  - rewrite Hc. erewrite <- length_fmap, Hp. etrans; [apply length_omap_le|]. lia.
  - intros i el x y chip Hi.
    destruct (visual_run_inv [CreateVisual i el x y chip; RemoveVisual i] st Hinv)
      as [Hinv' Hlen'].
    set (st' := visual_run [CreateVisual i el x y chip; RemoveVisual i] st) in *.
    assert (∃ m, st'.1 !! i = Some m ∧ dragVisual m = None) as (m & Hm & Hnone).
    { unfold st', visual_run. cbn [foldl].
      set (st1 := visual_step st (CreateVisual i el x y chip)).
      assert (length st1.1 = length args) as Hl1.
      { unfold st1. rewrite visual_step_length. lia. }
      destruct (lookup_lt_is_Some_2 st1.1 i ltac:(lia)) as [m1 Hm1].
      destruct st1 as [ms1 w1]. cbn [visual_step fst snd] in *. rewrite Hm1.
      rewrite (surjective_pairing (removeDragVisual m1 w1)). cbn [fst].
      eexists. split; [apply list_lookup_insert_eq; lia|]. done. }
    split; [by eauto|].
    destruct (visual_inv_clones st' Hinv') as [Hc' Hp'].
    rewrite Hc'. erewrite <- length_fmap, Hp'.
    pose proof (length_omap_lt dragVisual st'.1 i m Hm Hnone). lia.
Qed.

(** One manager: a clone is created, replaced by a second one and removed. *)
Lemma C4_at_most_one_clone_per_manager_witness :
  let st := visual_run [CreateVisual 0 (card "light.a") 10 10 false; RemoveVisual 0]
              (visual_run [CreateVisual 0 (card "light.c") 1 1 false]
                 (construct_all [(None, None)] (initial_world sample_tree))) in
  length (clones st.2) ≤ 1 - 1.
Proof.
  cbn zeta.
  refine (proj2 (proj2 (proj2 (C4_at_most_one_clone_per_manager sample_tree [(None, None)]
                          [CreateVisual 0 (card "light.c") 1 1 false]))
                   0 (card "light.a") 10%float 10%float false _)).
  vm_compute. lia.
Defined.

End VisualFacts.

(** ** Edge auto-scroll *)

Module ScrollFacts.
Import Dom Engine Session Scroll Scenario.




(** Where the two edge zones overlap the left one wins: in the middle of
    a chip row 150 wide that can scroll both ways the pointer is inside
    the right zone and the speed is negative. *)
Lemma chips_overlapping_zones_left_wins :
  let c := ChipsRow.set_scrollContainer (Some narrow_box) sample_chips_closure in
  let v := ChipsRow.scrollSpeed (ChipsRow.updateScrollSpeed 75 c sample_world).1 in
  in_zone 80 (rect_right narrow_box - 75) = true ∧ canScrollRight narrow_box = true
  ∧ v = (-2.625)%float ∧ (v <? 0)%float = true.
Proof. cbn zeta. repeat apply conj; vm_compute; reflexivity. Qed.






End ScrollFacts.

(** ** Dashboard keys and navigation *)

Module NavFacts.
Import Stdlib.Strings.Ascii.
Import Notify Notify.Dashboard Nav.

Lemma prefix_char c s :
  String.prefix (String c "") s = true ↔ ∃ r, s = String c r.
Proof.
  destruct s as [|a r]; cbn.
  - split; [done|]. by intros [r Hr].
  - destruct (ascii_dec c a) as [->|Hne].
    + split; [by exists r|]. by destruct r.
    + split; [done|]. intros [r' Hr]. injection Hr as Hr _. by subst.
Qed.

Lemma includes_char_cons c a s :
  Js.includes (String c "") (String a s)
  = bool_decide (a = c) || Js.includes (String c "") s.
Proof.
  cbn [Js.includes]. f_equal. cbn. destruct (ascii_dec c a) as [->|Hne].
  - rewrite bool_decide_eq_true_2 by done. by destruct s.
  - by rewrite bool_decide_eq_false_2 by congruence.
Qed.

Lemma eqb_char a c : Ascii.eqb a c = bool_decide (a = c).
Proof.
  destruct (Ascii.eqb_spec a c) as [->|Hne].
  - by rewrite bool_decide_eq_true_2.
  - by rewrite bool_decide_eq_false_2.
Qed.

(** [before] cuts at the first occurrence of the character. *)
Lemma before_no_char c s : Js.includes (String c "") (Js.before c s) = false.
Proof.
  induction s as [|a s IH]; [done|]. cbn [Js.before]. rewrite eqb_char.
  case_bool_decide as Hac; [done|].
  rewrite includes_char_cons, IH. by rewrite bool_decide_eq_false_2.
Qed.

Lemma before_split c s :
  s = Js.before c s ∨ ∃ r, s = Js.before c s +:+ String c r.
Proof.
  induction s as [|a s IH]; [by left|]. cbn [Js.before]. rewrite eqb_char.
  case_bool_decide as Hac.
  - subst. right. by exists s.
  - destruct IH as [IH|[r IH]].
    + left. cbn. by f_equal.
    + right. exists r. exact (f_equal (String a) IH).
Qed.

Lemma append_nil s : "" +:+ s = s.
Proof. reflexivity. Qed.

Lemma append_cons a k s : String a k +:+ s = String a (k +:+ s).
Proof. reflexivity. Qed.

Lemma before_app c k r :
  Js.includes (String c "") k = false → Js.before c (k +:+ String c r) = k.
Proof.
  induction k as [|a k IH]; intros Hk.
  - rewrite append_nil. cbn. rewrite eqb_char. by rewrite bool_decide_eq_true_2.
  - rewrite includes_char_cons in Hk. apply orb_false_iff in Hk as [Ha Hk].
    rewrite append_cons. cbn [Js.before]. rewrite eqb_char, Ha. f_equal. by apply IH.
Qed.

Lemma before_id c k : Js.includes (String c "") k = false → Js.before c k = k.
Proof.
  induction k as [|a k IH]; intros Hk; [done|].
  rewrite includes_char_cons in Hk. apply orb_false_iff in Hk as [Ha Hk].
  cbn. rewrite eqb_char, Ha. f_equal. by apply IH.
Qed.

Lemma extractDashboardKey_unfold rest :
  extractDashboardKey (String "/" rest)
  = if String.eqb (Js.before "/" rest) "" then None
    else if bool_decide (Js.before "/" rest ∈ excludedKeys) then None
    else Some (Js.before "/" rest).
Proof. reflexivity. Qed.

Lemma extractDashboardKey_Some path key :
  extractDashboardKey path = Some key →
  key ≠ "" ∧ Js.includes "/" key = false ∧ (key ∉ excludedKeys)
  ∧ ∃ rest, path = String "/" rest ∧ Js.before "/" rest = key.
Proof.
  destruct path as [|c rest]; [done|]. unfold extractDashboardKey.
  rewrite eqb_char. case_bool_decide as Hc; [subst c|done].
  destruct (String.eqb_spec (Js.before "/" rest) "") as [|Hne]; [done|].
  case_bool_decide as Hex; [done|]. intros [= <-].
  repeat apply conj; [done|apply before_no_char|done|by exists rest].
Qed.

Lemma extractDashboardKey_intro rest key :
  key ≠ "" → key ∉ excludedKeys → Js.before "/" rest = key →
  extractDashboardKey (String "/" rest) = Some key.
Proof.
  intros Hne Hex Hk. rewrite extractDashboardKey_unfold, Hk.
  destruct (String.eqb_spec key "") as [|_]; [done|].
  by rewrite bool_decide_eq_false_2.
Qed.

Lemma NavFacts_key_truthy path k :
  extractDashboardKey path = Some k → truthy (Some k) = true.
Proof.
  intros H. apply extractDashboardKey_Some in H as (Hne & _). cbn.
  by destruct (String.eqb_spec k "").
Qed.

(** X1. [extractDashboardKey] returns exactly the first path segment: a
    key is returned if and only if it is non-empty, free of slashes, not
    one of the excluded core pages, and the path is a slash followed by
    the key, alone or followed by a further slash and anything. *)
Theorem X1_extractDashboardKey_first_segment path key :
  extractDashboardKey path = Some key
  ↔ key ≠ "" ∧ Js.includes "/" key = false ∧ (key ∉ excludedKeys)
    ∧ (path = "/" +:+ key ∨ ∃ rest, path = "/" +:+ key +:+ "/" +:+ rest).
Proof.
  split.
  - intros H. apply extractDashboardKey_Some in H as (Hne & Hsl & Hex & rest & -> & Hk).
    repeat apply conj; try done.
    destruct (before_split "/" rest) as [Hr|[r Hr]]; rewrite Hk in Hr.
    + left. rewrite append_cons, append_nil. congruence.
    + right. exists r. rewrite !append_cons, !append_nil. congruence.
  - intros (Hne & Hsl & Hex & [->|[rest ->]]); rewrite !append_cons, !append_nil.
    + apply extractDashboardKey_intro; try done. by apply before_id.
    + apply extractDashboardKey_intro; try done. by apply before_app.
Qed.

Section Traces.
Context {Consumer Error : Type}.
Implicit Types (m : Manager Consumer Error) (s : State Consumer Error).
Implicit Types (st : Consumer * list (string * Error)).

Lemma setDashboardActive_state k s st :
  (setDashboardActive k s st).1
  = {| isActive := true; currentDashboardKey := Some k; listeners := listeners s |}.
Proof. unfold setDashboardActive. by destruct (_ || _). Qed.

Lemma setDashboardInactive_state s st :
  (setDashboardInactive s st).1
  = {| isActive := false; currentDashboardKey := None; listeners := listeners s |}.
Proof. unfold setDashboardInactive. by destruct (isActive s). Qed.

(** The manager after each operation, without the listeners' side. *)
Lemma registerDashboard_manager path k m st :
  (registerDashboard path k m st).1
  = let m' := set_registeredDashboardKeys ({[k]} ∪ registeredDashboardKeys m) m in
    if bool_decide (extractDashboardKey path = Some k)
    then set_state {| isActive := true; currentDashboardKey := Some k;
                      listeners := listeners (state m) |} m'
    else m'.
Proof.
  unfold registerDashboard. cbn zeta. case_bool_decide; [|done].
  EngineFacts.split_pairs. by rewrite setDashboardActive_state.
Qed.

Lemma unregisterDashboard_manager k m st :
  (unregisterDashboard k m st).1
  = let m' := set_registeredDashboardKeys (registeredDashboardKeys m ∖ {[k]}) m in
    if bool_decide (currentDashboardKey (state m) = Some k)
    then set_state {| isActive := false; currentDashboardKey := None;
                      listeners := listeners (state m) |} m'
    else m'.
Proof.
  unfold unregisterDashboard. cbn zeta. cbn [state set_registeredDashboardKeys].
  case_bool_decide; [|done].
  EngineFacts.split_pairs. by rewrite setDashboardInactive_state.
Qed.

Lemma handleNavigationChange_manager path m st :
  (handleNavigationChange path m st).1
  = if String.eqb path (lastProcessedPath m) then m
    else
      let m' := set_lastProcessedPath path m in
      match extractDashboardKey path with
      | Some k =>
          if bool_decide (k ∈ registeredDashboardKeys m)
          then set_state {| isActive := true; currentDashboardKey := Some k;
                            listeners := listeners (state m) |} m'
          else if isActive (state m)
               then set_state {| isActive := false; currentDashboardKey := None;
                                 listeners := listeners (state m) |} m'
               else m'
      | None =>
          if isActive (state m)
          then set_state {| isActive := false; currentDashboardKey := None;
                            listeners := listeners (state m) |} m'
          else m'
      end.
Proof.
  unfold handleNavigationChange. cbn zeta. destruct (String.eqb _ _); [done|].
  unfold isCurrentUrlInAppleHomeDashboard.
  cbn [registeredDashboardKeys set_lastProcessedPath state].
  destruct (extractDashboardKey path) as [k|] eqn:Ek.
  - apply NavFacts_key_truthy in Ek as Ht. rewrite Ht. cbn [negb].
    change (default "" (Some k)) with k. case_bool_decide.
    + cbn [andb]. rewrite Ht. EngineFacts.split_pairs.
      by rewrite setDashboardActive_state.
    + cbn [andb]. destruct (isActive (state m)); [|done].
      EngineFacts.split_pairs. by rewrite setDashboardInactive_state.
  - cbn [truthy negb andb]. destruct (isActive (state m)); [|done].
    EngineFacts.split_pairs. by rewrite setDashboardInactive_state.
Qed.

Lemma step_manager m st op :
  (step (m, st) op).1
  = match op with
    | Register path k => (registerDashboard path k m st).1
    | Unregister k => (unregisterDashboard k m st).1
    | Navigate path | CheckCurrentState path => (handleNavigationChange path m st).1
    | SetActive k =>
        set_state {| isActive := true; currentDashboardKey := Some k;
                     listeners := listeners (state m) |} m
    | SetInactive =>
        set_state {| isActive := false; currentDashboardKey := None;
                     listeners := listeners (state m) |} m
    | AddListener callback => addListener callback m
    | RemoveListener callback => removeListener callback m
    | Destroy => destroy m
    end.
Proof.
  destruct op; try reflexivity; cbn [step]; EngineFacts.split_pairs.
  - by rewrite setDashboardActive_state.
  - by rewrite setDashboardInactive_state.
Qed.

Lemma nav_run_snoc ops op
    (x : Manager Consumer Error * (Consumer * list (string * Error))) :
  run (ops ++ [op]) x = step (run ops x) op.
Proof. unfold run. by rewrite foldl_app. Qed.

Lemma flag_matches_key_step m st op :
  flag_matches_key m → flag_matches_key (step (m, st) op).1.
Proof.
  unfold flag_matches_key. intros Hm. rewrite step_manager.
  destruct op as [path k|k|path|path|k| |cb|cb|];
    rewrite ?registerDashboard_manager, ?unregisterDashboard_manager,
      ?handleNavigationChange_manager; cbn zeta;
    repeat case_bool_decide; repeat case_match;
    cbn [state set_state set_registeredDashboardKeys set_lastProcessedPath
         isActive currentDashboardKey addListener removeListener destroy
         Nav.set_listeners];
    try done; try (split; [by eauto|done]); try (split; [done|by intros [? [=]]]);
    try (match goal with H : isActive _ = _ |- _ => by rewrite H end).
Qed.

Lemma key_registered_step m st op :
  not_SetActive op = true → key_registered m → key_registered (step (m, st) op).1.
Proof.
  unfold key_registered. intros Hop Hm. rewrite step_manager.
  destruct op as [path k|k|path|path|k| |cb|cb|]; try done;
    rewrite ?registerDashboard_manager, ?unregisterDashboard_manager,
      ?handleNavigationChange_manager; cbn zeta;
    repeat case_bool_decide; repeat case_match;
    cbn [state set_state set_registeredDashboardKeys set_lastProcessedPath
         isActive currentDashboardKey addListener removeListener destroy
         registeredDashboardKeys Nav.set_listeners];
    intros k' Hk'; try done; simplify_eq;
    repeat match goal with
           | H : bool_decide _ = true |- _ => apply bool_decide_eq_true in H
           end;
    try (match goal with
         | H : extractDashboardKey _ = Some _ |- _ =>
             apply extractDashboardKey_Some in H as (? & ? & ? & ?)
         end);
    try (by repeat apply conj; try done; set_solver);
    try (destruct (Hm _ Hk') as (? & ? & ?); repeat apply conj; try done; set_solver).
Qed.

(** X2. Whatever is done to the manager, in whatever order - registering
    and unregistering dashboards, navigation events, direct activation and
    deactivation, adding and removing listeners, destroying it - the
    manager is active exactly when it holds a current dashboard key. *)
Theorem X2_active_exactly_when_key_is_set
    (ops : list (Op Consumer Error)) st :
  let m := (run ops (new_manager, st)).1 in
  isActive (state m) = true ↔ is_Some (currentDashboardKey (state m)).
Proof.
  cbn zeta. change (flag_matches_key (run ops (new_manager, st)).1).
  induction ops as [|op ops IH] using rev_ind.
  - cbn. split; [done|]. by intros [? [=]].
  - rewrite nav_run_snoc. destruct (run ops (new_manager, st)) as [m' st'].
    by apply flag_matches_key_step.
Qed.

(** X3. As long as nobody calls [setDashboardActive] directly, the
    current dashboard key is always one of the registered keys, and it is
    a key a URL can yield: non-empty and not an excluded core page. *)
Theorem X3_active_key_is_registered
    (ops : list (Op Consumer Error)) st k :
  forallb not_SetActive ops = true →
  let m := (run ops (new_manager, st)).1 in
  currentDashboardKey (state m) = Some k →
  k ∈ registeredDashboardKeys m ∧ (k ∉ excludedKeys) ∧ k ≠ "".
Proof.
  intros Hops. cbn zeta. revert k.
  change (key_registered (run ops (new_manager, st)).1).
  induction ops as [|op ops IH] using rev_ind.
  - intros k. by cbn.
  - rewrite forallb_app in Hops. apply andb_true_iff in Hops as [Hops Hop].
    cbn in Hop. rewrite andb_true_r in Hop.
    rewrite nav_run_snoc. destruct (run ops (new_manager, st)) as [m' st'] eqn:E.
    apply key_registered_step; [done|]. by apply IH.
Qed.

End Traces.

(** Two dashboards are registered while the browser moves between
    them and a core page. *)
Lemma X3_active_key_is_registered_witness :
  let ops : list (Op unit Empty_set) :=
    [Register "/apple-home/home" "apple-home"; Register "/apple-home/home" "tablet";
     Navigate "/config/dashboard"; Navigate "/tablet/0"; Unregister "apple-home"] in
  let m := (run ops (new_manager, (tt, []))).1 in
  currentDashboardKey (state m) = Some "tablet"
  ∧ "tablet" ∈ registeredDashboardKeys m ∧ ("tablet" ∉ excludedKeys) ∧ "tablet" ≠ "".
Proof.
  cbn zeta. split; [vm_compute; reflexivity|].
  apply (X3_active_key_is_registered
           [Register "/apple-home/home" "apple-home"; Register "/apple-home/home" "tablet";
            Navigate "/config/dashboard"; Navigate "/tablet/0"; Unregister "apple-home"]
           (tt, []) "tablet"); vm_compute; reflexivity.
Defined.

Lemma no_repeat_snoc {A} `{EqDecision A} (l : list A) a :
  no_repeat (l ++ [a]) = no_repeat l && negb (bool_decide (last l = Some a)).
Proof.
  induction l as [|b l IH]; [done|].
  destruct l as [|c l].
  - cbn. rewrite andb_true_r. f_equal. apply bool_decide_ext. split; congruence.
  - change (no_repeat ((b :: c :: l) ++ [a]))
      with (negb (bool_decide (b = c)) && no_repeat ((c :: l) ++ [a])).
    rewrite IH. change (no_repeat (b :: c :: l))
      with (negb (bool_decide (b = c)) && no_repeat (c :: l)).
    change (last (b :: c :: l)) with (last (c :: l)). by rewrite andb_assoc.
Qed.

Lemma recorder_notified (s : State (list (bool * option string)) Empty_set) b k st :
  listeners s = [recorder 0] →
  notifyListeners s b k st = (st.1 ++ [(b, k)], st.2).
Proof. intros Hl. unfold notifyListeners, notify. by rewrite Hl. Qed.

Lemma recording_same m m' st :
  state m' = state m → recording m st → recording m' st.
Proof. unfold recording, in_sync, flag_matches_key. intros Hs. by rewrite Hs. Qed.

Lemma recording_active m m' st k :
  state m' = state m → recording m st →
  recording (set_state (setDashboardActive k (state m') st).1 m')
    (setDashboardActive k (state m') st).2.
Proof.
  intros Hs (Hl & Hsync & Hrep & Hflag). rewrite Hs.
  unfold recording, in_sync, flag_matches_key in *. rewrite setDashboardActive_state.
  cbn [state set_state listeners isActive currentDashboardKey].
  split; [done|].
  match goal with
  | |- ?A ∧ ?B ∧ ?C =>
      enough (A ∧ B) as [? ?] by (split; [done|split; [done|by split; eauto]])
  end.
  unfold setDashboardActive.
  destruct (negb (isActive (state m))
            || negb (bool_decide (currentDashboardKey (state m) = Some k))) eqn:E.
  - cbn [snd]. rewrite recorder_notified by done. cbn [fst].
    rewrite last_snoc, no_repeat_snoc, Hrep. split; [done|].
    rewrite bool_decide_eq_false_2; [done|]. intros Hlast. rewrite Hlast in Hsync.
    injection Hsync as Ha Hk. rewrite <- Ha, <- Hk in E.
    by rewrite bool_decide_eq_true_2 in E.
  - cbn [snd]. apply orb_false_iff in E as [Ea Ek].
    apply negb_false_iff in Ea, Ek. apply bool_decide_eq_true in Ek.
    split; [|done]. destruct (last st.1) as [told|].
    + by rewrite Hsync, Ea, Ek.
    + destruct Hsync as [Ha _]. congruence.
Qed.

Lemma recording_inactive m m' st :
  state m' = state m → recording m st →
  recording (set_state (setDashboardInactive (state m') st).1 m')
    (setDashboardInactive (state m') st).2.
Proof.
  intros Hs (Hl & Hsync & Hrep & Hflag). rewrite Hs.
  unfold recording, in_sync, flag_matches_key in *. rewrite setDashboardInactive_state.
  cbn [state set_state listeners isActive currentDashboardKey].
  split; [done|].
  match goal with
  | |- ?A ∧ ?B ∧ ?C =>
      enough (A ∧ B) as [? ?]
        by (split; [done|split; [done|by split; [|intros [? [=]]]]])
  end.
  unfold setDashboardInactive.
  destruct (isActive (state m)) eqn:E.
  - cbn [snd]. rewrite recorder_notified by done. cbn [fst].
    rewrite last_snoc, no_repeat_snoc, Hrep. split; [done|].
    rewrite bool_decide_eq_false_2; [done|]. intros Hlast. rewrite Hlast in Hsync.
    congruence.
  - cbn [snd]. split; [|done].
    assert (currentDashboardKey (state m) = None) as Hk.
    { destruct (currentDashboardKey (state m)); [|done].
      assert (false = true) as Hft by (apply Hflag; eauto). discriminate Hft. }
    destruct (last st.1) as [told|] eqn:El; [|done].
    by rewrite Hsync, Hk.
Qed.

Lemma recording_step m st op :
  keeps_listeners op = true → recording m st →
  recording (step (m, st) op).1 (step (m, st) op).2.
Proof.
  intros Hop Hrec. destruct op as [path k|k|path|path|k| |cb|cb|]; try done; cbn [step].
  - unfold registerDashboard. cbn zeta. case_bool_decide.
    + EngineFacts.split_pairs. by apply (recording_active m).
    + by apply (recording_same m).
  - unfold unregisterDashboard. cbn zeta. case_bool_decide.
    + EngineFacts.split_pairs. by apply (recording_inactive m).
    + by apply (recording_same m).
  - unfold handleNavigationChange. cbn zeta. destruct (String.eqb _ _); [done|].
    destruct (isCurrentUrlInAppleHomeDashboard _ _) as [b key]. cbn [fst snd].
    destruct (b && truthy key).
    + EngineFacts.split_pairs. by apply (recording_active m).
    + destruct (isActive _) eqn:Ea.
      * EngineFacts.split_pairs. by apply (recording_inactive m).
      * by apply (recording_same m).
  - unfold checkCurrentState, handleNavigationChange. cbn zeta.
    destruct (String.eqb _ _); [done|].
    destruct (isCurrentUrlInAppleHomeDashboard _ _) as [b key]. cbn [fst snd].
    destruct (b && truthy key).
    + EngineFacts.split_pairs. by apply (recording_active m).
    + destruct (isActive _) eqn:Ea.
      * EngineFacts.split_pairs. by apply (recording_inactive m).
      * by apply (recording_same m).
  - EngineFacts.split_pairs. by apply (recording_active m).
  - EngineFacts.split_pairs. by apply (recording_inactive m).
Qed.

(** X4. A listener registered before anything happens is kept in sync:
    whatever sequence of registrations, navigation events, activations and
    deactivations follows, the last notification it received tells the
    manager's present state (and it received none only if the manager is
    still inactive), and it is never told the same state twice in a row. *)
Theorem X4_listener_in_sync_and_never_told_twice
    (ops : list (Op (list (bool * option string)) Empty_set)) :
  forallb keeps_listeners ops = true →
  let r := run ops (addListener (recorder 0) new_manager, ([], [])) in
  in_sync r.1 r.2.1 ∧ no_repeat r.2.1 = true.
Proof.
  intros Hops. cbn zeta.
  enough (recording (run ops (addListener (recorder 0) new_manager, ([], []))).1
            (run ops (addListener (recorder 0) new_manager, ([], []))).2) as (_ & ? & ? & _)
    by done.
  induction ops as [|op ops IH] using rev_ind.
  - cbn. repeat apply conj; try done. by intros [? [=]].
  - rewrite forallb_app in Hops. apply andb_true_iff in Hops as [Hops Hop].
    cbn in Hop. rewrite andb_true_r in Hop.
    rewrite nav_run_snoc. destruct (run ops _) as [m' st'].
    apply recording_step; [done|]. by apply IH.
Qed.

Lemma X4_listener_in_sync_and_never_told_twice_witness :
  let ops : list (Op (list (bool * option string)) Empty_set) :=
    [Register "/apple-home/home" "apple-home"; Navigate "/apple-home/lights";
     Navigate "/config/dashboard"; Register "/config/dashboard" "tablet";
     Navigate "/tablet/0"; SetActive "tablet"; SetInactive; SetInactive] in
  let r := run ops (addListener (recorder 0) new_manager, ([], [])) in
  r.2.1 = [(true, Some "apple-home"); (false, None); (true, Some "tablet"); (false, None)]
  ∧ in_sync r.1 r.2.1 ∧ no_repeat r.2.1 = true.
Proof.
  cbn zeta. split; [vm_compute; reflexivity|].
  apply (X4_listener_in_sync_and_never_told_twice
           [Register "/apple-home/home" "apple-home"; Navigate "/apple-home/lights";
            Navigate "/config/dashboard"; Register "/config/dashboard" "tablet";
            Navigate "/tablet/0"; SetActive "tablet"; SetInactive; SetInactive]).
  vm_compute; reflexivity.
Defined.

(** X5. A navigation event for the path handled last does nothing:
    handling the same path a second time changes neither the manager nor
    what the listeners have seen. *)
Theorem X5_repeated_navigation_is_ignored {Consumer Error : Type}
    path (m : Manager Consumer Error) (st : Consumer * list (string * Error)) :
  let r := handleNavigationChange path m st in
  handleNavigationChange path r.1 r.2 = r.
Proof.
  cbn zeta.
  assert (lastProcessedPath (handleNavigationChange path m st).1 = path) as Hlast.
  { rewrite handleNavigationChange_manager.
    destruct (String.eqb_spec path (lastProcessedPath m)) as [->|_]; [done|].
    cbn zeta. repeat case_match; reflexivity. }
  destruct (handleNavigationChange path m st) as [m' st'] eqn:E. cbn [fst snd] in *.
  unfold handleNavigationChange at 1. cbn zeta. rewrite Hlast.
  by rewrite String.eqb_refl.
Qed.

End NavFacts.

(** ** Registry updates: debounce and polling *)

Module PollFacts.
Import Notify Notify.Registry Poll.

Section Facts.
Context {Consumer Error : Type} `{Platform}.
Implicit Types (s : State Consumer Error) (env : Env).
Implicit Types (st : Consumer * list (string * Error)).

Lemma sole_timeout env id :
  (timeouts env).*1 = [id] → ∃ event, timeouts env = [(id, event)].
Proof.
  destruct (timeouts env) as [|[i e] [|? ?]]; try done. cbn. intros [= ->]. by exists e.
Qed.

(** With the handles in agreement, scheduling leaves exactly one timeout:
    the new one. *)
Lemma scheduleUpdate_spec event s env :
  (timeouts env).*1 = option_list (pendingUpdate s) →
  scheduleUpdate event s env
  = (set_pendingUpdate (Some (S (next_timer env))) s,
     {| timeouts := [(S (next_timer env), event)]; intervals := intervals env;
        next_timer := S (next_timer env); subscriptions := subscriptions env |}).
Proof.
  intros Hco. unfold scheduleUpdate. destruct (pendingUpdate s) as [id|] eqn:Ep.
  - apply sole_timeout in Hco as [e0 He0]. unfold clearTimeout, setTimeout.
    cbn [timeouts intervals next_timer subscriptions]. rewrite He0.
    rewrite filter_cons_False by (cbn; tauto). by rewrite filter_nil.
  - cbn in Hco. apply fmap_nil_inv in Hco. unfold setTimeout. by rewrite Hco.
Qed.

Lemma coherent_scheduleUpdate event s env :
  coherent s env → coherent (scheduleUpdate event s env).1 (scheduleUpdate event s env).2.
Proof.
  intros [Ht Hi]. rewrite scheduleUpdate_spec by done. by split.
Qed.

Lemma timeout_fires_pending id event s env st :
  pendingUpdate s = Some id → timeouts env = [(id, event)] →
  timeout_fires id s env st
  = (set_pendingUpdate None s,
     {| timeouts := []; intervals := intervals env; next_timer := next_timer env;
        subscriptions := subscriptions env |},
     notifyListeners (listeners s) event st).
Proof.
  intros Hp Ht. unfold timeout_fires. rewrite Ht. cbn [list_find].
  rewrite decide_True by done. cbn [fmap option_fmap option_map].
  unfold clearTimeout. rewrite Ht. rewrite filter_cons_False by (cbn; tauto).
  by rewrite filter_nil.
Qed.

Lemma coherent_timeout_fires id s env st :
  coherent s env →
  coherent (timeout_fires id s env st).1.1 (timeout_fires id s env st).1.2.
Proof.
  intros [Ht Hi]. unfold timeout_fires.
  destruct (list_find _ _) as [[i [j event]]|] eqn:Ef; [|by split].
  apply list_find_Some in Ef as (Hl & Hj & _). cbn in Hj. subst j.
  destruct (pendingUpdate s) as [p|] eqn:Ep.
  - apply sole_timeout in Ht as [e0 He0]. rewrite He0 in Hl.
    apply list_lookup_singleton_Some in Hl as [-> [= <- <-]].
    cbn [fst snd]. split; [|done]. unfold clearTimeout. cbn [timeouts].
    rewrite He0. rewrite filter_cons_False by (cbn; tauto). by rewrite filter_nil.
  - cbn in Ht. apply fmap_nil_inv in Ht. by rewrite Ht in Hl.
Qed.

Lemma coherent_startPollingFallback s env :
  coherent s env →
  coherent (startPollingFallback s env).1 (startPollingFallback s env).2.
Proof.
  intros [Ht Hi]. unfold startPollingFallback.
  destruct (pollingInterval s) as [id|] eqn:Ep.
  - split; [done|]. cbn [fst snd]. by rewrite Hi, Ep.
  - cbn. split; [done|]. by rewrite Hi.
Qed.

Lemma call_unsubscribe_timers u env :
  timeouts (call_unsubscribe u env) = timeouts env
  ∧ intervals (call_unsubscribe u env) = intervals env.
Proof. unfold call_unsubscribe. by destruct (throws u). Qed.

Lemma unsubscribe_timers s env :
  timeouts (unsubscribe s env).2 = timeouts env
  ∧ intervals (unsubscribe s env).2
    = match pollingInterval s with
      | Some id => filter (λ i, i ≠ id) (intervals env)
      | None => intervals env
      end.
Proof.
  unfold unsubscribe. cbn [snd].
  destruct (pollingInterval s); cbn [clearInterval timeouts intervals];
    destruct (entityRegistryUnsubscribe s), (deviceRegistryUnsubscribe s),
      (areaRegistryUnsubscribe s);
    split; repeat first [rewrite (proj1 (call_unsubscribe_timers _ _))
                        |rewrite (proj2 (call_unsubscribe_timers _ _))]; done.
Qed.

Lemma coherent_unsubscribe s env :
  coherent s env → coherent (unsubscribe s env).1 (unsubscribe s env).2.
Proof.
  intros [Ht Hi]. destruct (unsubscribe_timers s env) as [Ht' Hi'].
  split; [by rewrite Ht'|]. rewrite Hi'. cbn [unsubscribe fst pollingInterval].
  destruct (pollingInterval s) as [id|]; [|done]. rewrite Hi. cbn.
  by rewrite decide_False by tauto.
Qed.

Lemma coherent_destroy s env :
  coherent s env → coherent (destroy s env).1 (destroy s env).2.
Proof.
  intros Hco. apply coherent_unsubscribe in Hco. unfold destroy.
  by destruct (unsubscribe s env).
Qed.

Lemma coherent_hashes e d a s env : coherent s env → coherent (set_hashes e d a s) env.
Proof. done. Qed.

Lemma coherent_checkForChanges_resume fetched s env :
  coherent s env →
  coherent (checkForChanges_resume fetched s env).1 (checkForChanges_resume fetched s env).2.
Proof.
  intros Hco. unfold checkForChanges_resume.
  destruct fetched as [f|]; [|done]. cbn zeta.
  repeat match goal with
         | |- context [if negb (String.eqb ?a ?b) then _ else _] =>
             destruct (negb (String.eqb a b));
             cbn [lastEntityHash lastDeviceHash lastAreaHash set_hashes]
         end;
    try done; cbn [default]; by apply coherent_scheduleUpdate.
Qed.

Lemma coherent_checkForChanges fetched s env :
  coherent s env →
  coherent (checkForChanges fetched s env).1 (checkForChanges fetched s env).2.
Proof.
  intros Hco. unfold checkForChanges. destruct (negb _); [done|].
  by apply coherent_checkForChanges_resume.
Qed.

Lemma coherent_step
    (x : State Consumer Error * Env * (Consumer * list (string * Error))) op :
  coherent x.1.1 x.1.2 → coherent (step x op).1.1 (step x op).1.2.
Proof.
  destruct x as [[s env] st]. cbn [fst snd]. intros Hco.
  destruct op; cbn [step fst snd].
  - by apply coherent_scheduleUpdate.
  - by apply coherent_timeout_fires.
  - by apply coherent_startPollingFallback.
  - case_bool_decide; [|done]. by apply coherent_checkForChanges.
  - by apply coherent_checkForChanges.
  - by apply coherent_checkForChanges_resume.
  - by apply coherent_checkForChanges.
  - unfold initializeHashes. by repeat case_match.
  - by apply coherent_unsubscribe.
  - by apply coherent_destroy.
Qed.

Lemma poll_run_snoc ops op
    (x : State Consumer Error * Env * (Consumer * list (string * Error))) :
  run (ops ++ [op]) x = step (run ops x) op.
Proof. unfold run. by rewrite foldl_app. Qed.

(** X7. The manager never has more than one debounce timeout and never
    more than one polling interval running: after any sequence of
    scheduled updates, timeouts firing, polls (also polls that go on after
    other things happened while they were waiting), forced refreshes,
    initialisations of the hashes, starts of the polling fallback,
    unsubscriptions and destructions, the timeouts set are
    exactly the pending update and the intervals set exactly the polling
    interval the manager holds. *)
Theorem X7_one_timeout_one_interval (ops : list Op) st :
  let r := run ops (new_manager, new_env, st) in
  (timeouts r.1.2).*1 = option_list (pendingUpdate r.1.1)
  ∧ intervals r.1.2 = option_list (pollingInterval r.1.1).
Proof.
  cbn zeta. change (coherent (run ops (new_manager, new_env, st)).1.1
                      (run ops (new_manager, new_env, st)).1.2).
  induction ops as [|op ops IH] using rev_ind; [done|].
  rewrite poll_run_snoc. by apply coherent_step.
Qed.

Lemma run_schedules events s env st :
  coherent s env → events ≠ [] →
  ∃ env', run (Schedule <$> events) (s, env, st)
          = (set_pendingUpdate (Some (next_timer env')) s, env', st)
          ∧ (∃ event, last events = Some event
                      ∧ timeouts env' = [(next_timer env', event)])
          ∧ intervals env' = intervals env.
Proof.
  intros Hco Hne. induction events as [|event events IH] using rev_ind; [done|].
  rewrite fmap_app. change (Schedule <$> [event]) with [Schedule event].
  rewrite poll_run_snoc, last_snoc.
  destruct events as [|e0 events0].
  - cbn [fmap list_fmap run foldl step]. destruct Hco as [Ht Hi].
    rewrite scheduleUpdate_spec by done.
    exists {| timeouts := [(S (next_timer env), event)]; intervals := intervals env;
              next_timer := S (next_timer env); subscriptions := subscriptions env |}.
    split; [reflexivity|]. cbn. split; [by exists event|done].
  - destruct IH as (env' & -> & (e' & _ & Ht') & Hi'); [done|].
    cbn [step]. rewrite scheduleUpdate_spec by (by rewrite Ht').
    exists {| timeouts := [(S (next_timer env'), event)]; intervals := intervals env';
              next_timer := S (next_timer env'); subscriptions := subscriptions env' |}.
    split; [reflexivity|]. cbn. split; [by exists event|done].
Qed.

(** X8. Debouncing: however many updates are scheduled before the
    timeout runs, one timeout is left, and when it runs the listeners are
    notified once, with the event scheduled last; the earlier events are
    never delivered. *)
Theorem X8_only_the_last_scheduled_event_is_delivered events event s env st :
  coherent s env →
  let r := run (Schedule <$> (events ++ [event])) (s, env, st) in
  ∃ id,
    pendingUpdate r.1.1 = Some id
    ∧ timeouts r.1.2 = [(id, event)]
    ∧ r.2 = st
    ∧ let r' := step r (TimeoutFires id) in
      pendingUpdate r'.1.1 = None
      ∧ timeouts r'.1.2 = []
      ∧ r'.2 = notifyListeners (listeners s) event st.
Proof.
  intros Hco. cbn zeta.
  destruct (run_schedules (events ++ [event]) s env st Hco) as (env' & -> & (e' & He' & Ht') & _).
  { by destruct events. }
  rewrite last_snoc in He'. injection He' as <-.
  exists (next_timer env'). cbn [fst snd step].
  rewrite (timeout_fires_pending _ event) by done. by cbn.
Qed.

(** X9. [unsubscribe] does not cancel a scheduled notification: an
    update scheduled before it is still delivered to the listeners when
    its timeout runs afterwards. *)
Theorem X9_unsubscribe_keeps_the_pending_update event s env st :
  coherent s env →
  let r := run [Schedule event; Unsubscribe] (s, env, st) in
  ∃ id,
    pendingUpdate r.1.1 = Some id
    ∧ pollingInterval r.1.1 = None
    ∧ intervals r.1.2 = []
    ∧ (step r (TimeoutFires id)).2 = notifyListeners (listeners s) event st.
Proof.
  intros Hco. cbn zeta. cbn [run foldl step].
  pose proof (coherent_scheduleUpdate event s env Hco) as Hco'.
  rewrite scheduleUpdate_spec in * by apply Hco.
  cbn [fst snd] in Hco'. apply coherent_unsubscribe in Hco' as Hco''.
  match goal with
  | |- context [unsubscribe ?s1 ?e1] =>
      destruct (unsubscribe_timers s1 e1) as [Ht Hi];
      destruct (unsubscribe s1 e1) as [s2 env2] eqn:Eu;
      assert (pendingUpdate s2 = Some (S (next_timer env))
              ∧ listeners s2 = listeners s ∧ pollingInterval s2 = None) as (Hp & Hl & Hn)
        by (apply (f_equal fst) in Eu; cbn in Eu; by subst s2)
  end.
  cbn [fst snd] in *. exists (S (next_timer env)).
  split; [done|]. split; [done|]. split.
  { destruct Hco'' as [_ Hi'']. by rewrite Hi'', Hn. }
  cbn [timeouts] in Ht. cbn [step]. rewrite (timeout_fires_pending _ event) by done.
  cbn [snd]. by rewrite Hl.
Qed.

Lemma set_hashes_same s : set_hashes (lastEntityHash s) (lastDeviceHash s) (lastAreaHash s) s = s.
Proof. by destruct s. Qed.

(** A poll, case by case. *)
Lemma checkForChanges_spec f s env :
  is_Some (hass s) →
  checkForChanges (Some f) s env
  = match changed_registries f s with
    | [] => (s, env)
    | t :: _ =>
        scheduleUpdate {| type := t; action := update; data := None |}
          (set_hashes (createEntityHash (f_entities f)) (createDeviceHash (f_devices f))
             (createAreaHash (f_areas f)) s) env
    end.
Proof.
  intros Hh. unfold checkForChanges, checkForChanges_resume, changed_registries.
  rewrite bool_decide_eq_true_2 by done. cbn [negb]. cbn zeta.
  destruct (String.eqb_spec (createEntityHash (f_entities f)) (lastEntityHash s)) as [He|He];
    cbn [negb lastEntityHash lastDeviceHash lastAreaHash set_hashes];
    destruct (String.eqb_spec (createDeviceHash (f_devices f)) (lastDeviceHash s)) as [Hd|Hd];
    cbn [negb lastEntityHash lastDeviceHash lastAreaHash set_hashes];
    destruct (String.eqb_spec (createAreaHash (f_areas f)) (lastAreaHash s)) as [Ha|Ha];
    cbn [negb lastEntityHash lastDeviceHash lastAreaHash set_hashes app default];
    rewrite ?He, ?Hd, ?Ha; try reflexivity.
Qed.

Lemma same_rows_hashes f f' :
  same_rows f f' →
  createEntityHash (f_entities f') = createEntityHash (f_entities f)
  ∧ createDeviceHash (f_devices f') = createDeviceHash (f_devices f)
  ∧ createAreaHash (f_areas f') = createAreaHash (f_areas f).
Proof.
  intros (He & Hd & Ha). unfold createEntityHash, createDeviceHash, createAreaHash.
  repeat apply conj.
  - destruct (f_entities f'), (f_entities f); try done. cbn in He. by injection He as ->.
  - destruct (f_devices f'), (f_devices f); try done. cbn in Hd. by injection Hd as ->.
  - destruct (f_areas f'), (f_areas f); try done. cbn in Ha. by injection Ha as ->.
Qed.

Lemma scheduleUpdate_hashes event s env :
  lastEntityHash (scheduleUpdate event s env).1 = lastEntityHash s
  ∧ lastDeviceHash (scheduleUpdate event s env).1 = lastDeviceHash s
  ∧ lastAreaHash (scheduleUpdate event s env).1 = lastAreaHash s
  ∧ hass (scheduleUpdate event s env).1 = hass s.
Proof. unfold scheduleUpdate. by destruct (pendingUpdate s). Qed.

Lemma checkForChanges_hashes f s env :
  is_Some (hass s) →
  let r := checkForChanges (Some f) s env in
  lastEntityHash r.1 = createEntityHash (f_entities f)
  ∧ lastDeviceHash r.1 = createDeviceHash (f_devices f)
  ∧ lastAreaHash r.1 = createAreaHash (f_areas f)
  ∧ hass r.1 = hass s.
Proof.
  intros Hh. cbn zeta. rewrite checkForChanges_spec by done.
  destruct (changed_registries f s) as [|t ts] eqn:E.
  - unfold changed_registries in E. cbn [fst].
    destruct (String.eqb_spec (createEntityHash (f_entities f)) (lastEntityHash s));
      destruct (String.eqb_spec (createDeviceHash (f_devices f)) (lastDeviceHash s));
      destruct (String.eqb_spec (createAreaHash (f_areas f)) (lastAreaHash s)); done.
  - destruct (scheduleUpdate_hashes {| type := t; action := update; data := None |}
                (set_hashes (createEntityHash (f_entities f))
                   (createDeviceHash (f_devices f)) (createAreaHash (f_areas f)) s) env)
      as (-> & -> & -> & ->). done.
Qed.

Lemma checkForChanges_no_hass fetched s env :
  hass s = None → checkForChanges fetched s env = (s, env).
Proof. intros Hh. unfold checkForChanges. by rewrite Hh. Qed.

(** X10. A poll tells a change once, and only a change of what the
    hashes are made of: a second poll that fetches the same registries, or
    registries that differ only in fields that are not hashed (an entity's
    name, a device's name, an area's icon), schedules nothing and leaves
    the manager and the timers as the first poll left them. *)
Theorem X10_poll_ignores_what_it_has_seen f f' s env :
  same_rows f f' →
  let r := checkForChanges (Some f) s env in
  checkForChanges (Some f') r.1 r.2 = r.
Proof.
  intros Hrows. cbn zeta. destruct (hass s) as [h|] eqn:Eh.
  - assert (is_Some (hass s)) as Hh by (by rewrite Eh).
    destruct (checkForChanges_hashes f s env Hh) as (He & Hd & Ha & Hh').
    destruct (same_rows_hashes f f' Hrows) as (He' & Hd' & Ha').
    destruct (checkForChanges (Some f) s env) as [s1 env1]. cbn [fst snd] in *.
    rewrite checkForChanges_spec by (by rewrite Hh').
    unfold changed_registries. rewrite He', Hd', Ha', He, Hd, Ha.
    by rewrite !String.eqb_refl.
  - rewrite (checkForChanges_no_hass (Some f)) by done. cbn [fst snd].
    by rewrite checkForChanges_no_hass.
Qed.

(** X11. What a poll reports: afterwards the three stored hashes are
    those of the fetched registries; if none of them differed from the
    stored ones nothing else happens, and otherwise exactly one update is
    scheduled, typed by the first registry that changed in the order
    entity, device, area - so a device or area change that comes together
    with an entity change is never reported on its own. *)
Theorem X11_poll_reports_the_first_changed_registry f s env :
  is_Some (hass s) →
  let r := checkForChanges (Some f) s env in
  lastEntityHash r.1 = createEntityHash (f_entities f)
  ∧ lastDeviceHash r.1 = createDeviceHash (f_devices f)
  ∧ lastAreaHash r.1 = createAreaHash (f_areas f)
  ∧ match changed_registries f s with
    | [] => r = (s, env)
    | t :: _ =>
        r = scheduleUpdate {| type := t; action := update; data := None |}
              (set_hashes (createEntityHash (f_entities f))
                 (createDeviceHash (f_devices f)) (createAreaHash (f_areas f)) s) env
    end.
Proof.
  intros Hh. cbn zeta.
  destruct (checkForChanges_hashes f s env Hh) as (He & Hd & Ha & _).
  repeat apply conj; try done. rewrite checkForChanges_spec by done.
  by destruct (changed_registries f s).
Qed.

End Facts.

(** Three events in a burst: only the area event is delivered. *)
Lemma X8_only_the_last_scheduled_event_is_delivered_witness :
  let e1 := {| type := entity; action := create; data := Some "light.a" |} in
  let e2 := {| type := device; action := update; data := None |} in
  let e3 := {| type := area; action := remove; data := Some "attic" |} in
  let r := run (H:=sample_platform) (Schedule <$> ([e1; e2] ++ [e3]))
             (new_manager (Consumer:=unit) (Error:=Empty_set), new_env, (tt, [])) in
  ∃ id,
    pendingUpdate r.1.1 = Some id
    ∧ timeouts r.1.2 = [(id, e3)]
    ∧ r.2 = (tt, [])
    ∧ let r' := step (H:=sample_platform) r (TimeoutFires id) in
      pendingUpdate r'.1.1 = None
      ∧ timeouts r'.1.2 = []
      ∧ r'.2 = notifyListeners (listeners (new_manager (Consumer:=unit) (Error:=Empty_set)))
                 e3 (tt, []).
Proof.
  cbn zeta.
  apply (X8_only_the_last_scheduled_event_is_delivered (H:=sample_platform)
           [{| type := entity; action := create; data := Some "light.a" |};
            {| type := device; action := update; data := None |}]
           {| type := area; action := remove; data := Some "attic" |}
           new_manager new_env (tt, [])).
  split; reflexivity.
Defined.

Lemma X9_unsubscribe_keeps_the_pending_update_witness :
  let e := {| type := entity; action := update; data := None |} in
  let s := set_pollingInterval (Some 1) (new_manager (Consumer:=unit) (Error:=Empty_set)) in
  let env := {| timeouts := []; intervals := [1]; next_timer := 1; subscriptions := [] |} in
  let r := run (H:=sample_platform) [Schedule e; Unsubscribe] (s, env, (tt, [])) in
  ∃ id,
    pendingUpdate r.1.1 = Some id
    ∧ pollingInterval r.1.1 = None
    ∧ intervals r.1.2 = []
    ∧ (step (H:=sample_platform) r (TimeoutFires id)).2
      = notifyListeners (listeners s) e (tt, []).
Proof.
  cbn zeta.
  apply (X9_unsubscribe_keeps_the_pending_update (H:=sample_platform)
           {| type := entity; action := update; data := None |}
           (set_pollingInterval (Some 1) new_manager)
           {| timeouts := []; intervals := [1]; next_timer := 1; subscriptions := [] |}
           (tt, [])).
  split; reflexivity.
Defined.

(** The second poll sees the same registries, except that the lamp has
    been renamed. *)
Lemma X10_poll_ignores_what_it_has_seen_witness :
  let lamp name :=
    {| entity_id := "light.lamp"; area_id := Some "attic"; device_id := None;
       hidden_by := None; disabled_by := None; entity_name := name |} in
  let f := {| f_entities := Some [lamp (Some "Lamp")]; f_devices := Some [];
              f_areas := Some [{| area_area_id := "attic"; area_name := "Attic";
                                  area_icon := None |}] |} in
  let f' := {| f_entities := Some [lamp (Some "Reading lamp")]; f_devices := Some [];
               f_areas := Some [{| area_area_id := "attic"; area_name := "Attic";
                                   area_icon := Some "mdi:home-roof" |}] |} in
  let s := set_hass (Some 0) (new_manager (Consumer:=unit) (Error:=Empty_set)) in
  let r := checkForChanges (H:=sample_platform) (Some f) s new_env in
  pendingUpdate r.1 = Some 1
  ∧ checkForChanges (H:=sample_platform) (Some f') r.1 r.2 = r.
Proof.
  cbn zeta. split; [vm_compute; reflexivity|].
  apply (X10_poll_ignores_what_it_has_seen (H:=sample_platform)).
  repeat split.
Defined.

(** Entities and areas change together: one update, of type entity. *)
Lemma X11_poll_reports_the_first_changed_registry_witness :
  let f := {| f_entities :=
                Some [{| entity_id := "light.lamp"; area_id := Some "attic";
                         device_id := None; hidden_by := None; disabled_by := None;
                         entity_name := None |}];
              f_devices := None;
              f_areas := Some [{| area_area_id := "attic"; area_name := "Attic";
                                  area_icon := None |}] |} in
  let s := set_hass (Some 0) (new_manager (Consumer:=unit) (Error:=Empty_set)) in
  let r := checkForChanges (H:=sample_platform) (Some f) s new_env in
  changed_registries (H:=sample_platform) f s = [entity; area]
  ∧ lastEntityHash r.1 = createEntityHash (H:=sample_platform) (f_entities f)
  ∧ lastDeviceHash r.1 = createDeviceHash (H:=sample_platform) (f_devices f)
  ∧ lastAreaHash r.1 = createAreaHash (H:=sample_platform) (f_areas f)
  ∧ match changed_registries (H:=sample_platform) f s with
    | [] => r = (s, new_env)
    | t :: _ =>
        r = scheduleUpdate {| type := t; action := update; data := None |}
              (set_hashes (createEntityHash (H:=sample_platform) (f_entities f))
                 (createDeviceHash (H:=sample_platform) (f_devices f))
                 (createAreaHash (H:=sample_platform) (f_areas f)) s) new_env
    end.
Proof.
  cbn zeta. split; [vm_compute; reflexivity|].
  apply (X11_poll_reports_the_first_changed_registry (H:=sample_platform)).
  by eexists.
Defined.

End PollFacts.

(** ** The listener set *)

Module ListenerFacts.
Import Notify.

Section Facts.
Context {Args Consumer Error : Type}.
Implicit Types (ls : list (Listener Args Consumer Error)).
Implicit Types (callback : Listener Args Consumer Error).

Lemma addListener_fresh callback ls :
  lid callback ∉ lid <$> ls → addListener callback ls = ls ++ [callback].
Proof. intros Hn. unfold addListener. by rewrite bool_decide_eq_false_2. Qed.

Lemma addListener_known callback ls :
  lid callback ∈ lid <$> ls → addListener callback ls = ls.
Proof. intros Hn. unfold addListener. by rewrite bool_decide_eq_true_2. Qed.

Lemma removeListener_fresh callback ls :
  lid callback ∉ lid <$> ls → removeListener callback ls = ls.
Proof.
  intros Hn. unfold removeListener. induction ls as [|l ls IH]; [done|].
  rewrite fmap_cons, not_elem_of_cons in Hn. destruct Hn as [Hl Hn].
  rewrite filter_cons_True by done. by rewrite IH.
Qed.

(** X6. The listeners form a set: a callback added twice is held once,
    at the end; a notification calls it once, after the listeners that
    were there before; and removing it once gives back the set as it
    was. *)
Theorem X6_listener_added_twice_is_called_once callback ls msg args
    (st : Consumer * list (string * Error)) :
  lid callback ∉ lid <$> ls →
  addListener callback (addListener callback ls) = ls ++ [callback]
  ∧ notify msg (addListener callback (addListener callback ls)) args st
    = notify_one msg args (notify msg ls args st) callback
  ∧ removeListener callback (addListener callback (addListener callback ls)) = ls.
Proof.
  intros Hn. rewrite (addListener_fresh callback ls) by done.
  rewrite addListener_known by (rewrite fmap_app; set_solver).
  repeat apply conj; [done| |].
  - unfold notify. by rewrite foldl_app.
  - unfold removeListener. rewrite filter_app. cbn.
    rewrite decide_False by tauto. rewrite app_nil_r.
    by apply removeListener_fresh.
Qed.

End Facts.

Lemma X6_listener_added_twice_is_called_once_witness :
  let count (id : nat) : Listener unit nat Empty_set :=
    {| lid := id; call := λ _ n, (S n, Returned) |} in
  let ls := [count 1; count 2] in
  addListener (count 3) (addListener (count 3) ls) = ls ++ [count 3]
  ∧ notify "m" (addListener (count 3) (addListener (count 3) ls)) tt (0, [])
    = notify_one "m" tt (notify "m" ls tt (0, [])) (count 3)
  ∧ removeListener (count 3) (addListener (count 3) (addListener (count 3) ls)) = ls.
Proof.
  cbn zeta.
  apply (X6_listener_added_twice_is_called_once
           {| lid := 3; call := λ (_ : unit) (n : nat), (S n, Returned (Error:=Empty_set)) |}).
  cbn. set_solver.
Defined.

End ListenerFacts.

(** ** The chip row's view of Home Assistant *)

Module AppleChipsFacts.
Import Stdlib.Strings.Ascii.
Import AppleChips.

Lemma strict_neq_same a : strict_neq a a = false.
Proof.
  destruct a as [x|]; [|done]. cbn. apply negb_false_iff, Qeq_bool_iff. reflexivity.
Qed.

Lemma entity_changed_same old entityId e :
  states old !! entityId = Some e → entity_changed old entityId e = false.
Proof.
  intros Hold. unfold entity_changed. cbn zeta. rewrite Hold.
  rewrite String.eqb_refl, strict_neq_same, andb_false_r. cbn [negb].
  by destruct (_ || _).
Qed.

Lemma existsb_false {A} (f : A → bool) (l : list A) :
  (∀ x, x ∈ l → f x = false) → existsb f l = false.
Proof.
  induction l as [|x l IH]; intros Hf; [done|]. cbn.
  rewrite (Hf x) by left. apply IH. intros y Hy. apply Hf. by right.
Qed.

Lemma existsb_true {A} (f : A → bool) (l : list A) x :
  x ∈ l → f x = true → existsb f l = true.
Proof.
  intros Hx Hf. induction l as [|y l IH]; [by apply elem_of_nil in Hx|].
  cbn. apply elem_of_cons in Hx as [->|Hx]; [by rewrite Hf|].
  rewrite IH by done. apply orb_true_r.
Qed.

(** X12. [hasRelevantEntityChanges] only looks at the entities of the new
    snapshot: when every one of them is in the old snapshot with the same
    record, no change is reported - also when entities of the old
    snapshot, relevant ones included, are gone from the new one. *)
Theorem X12_removed_entities_are_not_a_change old newHass :
  states newHass ⊆ states old →
  hasRelevantEntityChanges (Some old) true newHass = false.
Proof.
  intros Hsub. unfold hasRelevantEntityChanges. cbn [negb].
  apply existsb_false. intros [entityId e] Hin. cbn [fst snd].
  apply elem_of_map_to_list in Hin. apply entity_changed_same.
  by eapply lookup_weaken.
Qed.

(** The plug is gone from the new snapshot; nothing is reported. *)
Lemma X12_removed_entities_are_not_a_change_witness :
  let lamp :=
    {| entity_id := "light.lamp"; state := "on"; device_class := None;
       current_temperature := None |} in
  let plug :=
    {| entity_id := "switch.plug"; state := "on"; device_class := None;
       current_temperature := None |} in
  let newHass := {| states := {["light.lamp" := lamp]}; entities := ∅; devices := ∅ |} in
  let old :=
    {| states := <["switch.plug" := plug]> {["light.lamp" := lamp]};
       entities := ∅; devices := ∅ |} in
  Js.before "." "switch.plug" ∈ relevantDomains
  ∧ hasRelevantEntityChanges (Some old) true newHass = false.
Proof.
  cbn zeta. split; [vm_compute; set_solver|].
  apply X12_removed_entities_are_not_a_change. cbn [states].
  apply insert_subseteq. by apply lookup_singleton_ne.
Defined.

(** X13. An entity of a relevant domain that is new, or whose state
    differs from the old snapshot, is always reported as a change. *)
Theorem X13_new_or_changed_state_is_a_change old newHass entityId e :
  states newHass !! entityId = Some e →
  Js.before "." entityId ∈ relevantDomains →
  (∀ e', states old !! entityId = Some e' → state e' ≠ state e) →
  hasRelevantEntityChanges (Some old) true newHass = true.
Proof.
  intros Hnew Hdom Hdiff. unfold hasRelevantEntityChanges. cbn [negb].
  apply (existsb_true _ _ (entityId, e)); [by apply elem_of_map_to_list|].
  cbn [fst snd]. unfold entity_changed. cbn zeta.
  rewrite bool_decide_eq_true_2 by done. cbn [orb].
  destruct (states old !! entityId) as [e'|] eqn:Eold; [|done].
  specialize (Hdiff e' eq_refl).
  by destruct (String.eqb_spec (state e') (state e)).
Qed.

Lemma X13_new_or_changed_state_is_a_change_witness :
  let lamp st :=
    {| entity_id := "light.lamp"; state := st; device_class := None;
       current_temperature := None |} in
  let old := {| states := {["light.lamp" := lamp "off"]}; entities := ∅; devices := ∅ |} in
  let newHass := {| states := {["light.lamp" := lamp "on"]}; entities := ∅; devices := ∅ |} in
  hasRelevantEntityChanges (Some old) true newHass = true.
Proof.
  cbn zeta.
  apply (X13_new_or_changed_state_is_a_change _ _ "light.lamp"
           {| entity_id := "light.lamp"; state := "on"; device_class := None;
              current_temperature := None |}).
  - cbn [states]. apply lookup_singleton_eq.
  - vm_compute. set_solver.
  - cbn [states]. intros e'. rewrite lookup_singleton_eq. by intros [= <-].
Defined.

(** X14. With a [hass] object every entity gets a non-empty area id, and
    which one is decided in this order: its own area when the entity
    registry names one; else the area of its device, when the entity
    names a device, the device registry knows it and gives it an area;
    else ["no_area"], which is returned only when that device area is
    missing too. An empty string counts as missing throughout. *)
Theorem X14_area_of_the_entity_then_of_its_device hass entityId :
  let own := entities hass !! entityId ≫= area_id in
  ∃ a, getEntityAreaId (Some hass) entityId = Some a
       ∧ a ≠ ""
       ∧ (own = Some a
          ∨ (truthy own = false
             ∧ ∃ r d dv, entities hass !! entityId = Some r ∧ device_id r = Some d
                         ∧ d ≠ "" ∧ devices hass !! d = Some dv
                         ∧ dev_area_id dv = Some a)
          ∨ (truthy own = false ∧ a = "no_area"
             ∧ ∀ r d dv, entities hass !! entityId = Some r → device_id r = Some d →
                         d ≠ "" → devices hass !! d = Some dv →
                         truthy (dev_area_id dv) = false)).
Proof.
  cbn zeta. unfold getEntityAreaId. cbn zeta.
  assert (∃ own, entities hass !! entityId ≫= area_id = own) as [own Eown] by eauto.
  rewrite Eown.
  destruct (truthy own) eqn:Town.
  { destruct own as [a|]; [|done]. exists a. split; [done|]. split; [|by left].
    cbn in Town. intros ->. done. }
  assert (∀ P : Prop, P → "no_area" ≠ "" ∧ (own = Some "no_area" ∨ P)) as Hno.
  { intros P HP. split; [done|]. by right. }
  destruct (entities hass !! entityId) as [r|] eqn:Er; cbn [mbind option_bind].
  2: { exists "no_area". split; [done|]. apply Hno. right. by repeat split. }
  destruct (device_id r) as [d|] eqn:Ed; cbn [truthy].
  2: { exists "no_area". split; [done|]. apply Hno. right. repeat split; try done.
       intros r0 d0 dv0 ? ? ? ?. simplify_eq. }
  destruct (String.eqb_spec d "") as [->|Hd]; cbn [negb truthy mbind option_bind].
  { exists "no_area". split; [done|]. apply Hno. right. repeat split; try done.
    intros r0 d0 dv0 ? ? ? ?. simplify_eq. }
  cbn [default]. change (id d) with d.
  destruct (devices hass !! d) as [dv|] eqn:Edv; cbn [mbind option_bind truthy].
  2: { exists "no_area". split; [done|]. apply Hno. right. repeat split; try done.
       intros r0 d0 dv0 ? ? ? ?. simplify_eq. }
  destruct (truthy (dev_area_id dv)) eqn:Tdv.
  - destruct (dev_area_id dv) as [a'|] eqn:Ea'; [|done].
    exists a'. split; [done|]. split; [by intros ->|].
    right. left. split; [done|]. by exists r, d, dv.
  - exists "no_area". split; [done|]. apply Hno. right. repeat split; try done.
    intros r0 d0 dv0 ? ? ? ?. by simplify_eq.
Qed.

(** An entity whose device has an area, and one whose device has none. *)
Lemma getEntityAreaId_device_area_sample :
  let hass :=
    {| states := ∅;
       entities :=
         <["light.lamp" := {| area_id := Some ""; device_id := Some "dev1";
                              hidden_by := None; disabled_by := None |}]>
           {["switch.plug" := {| area_id := None; device_id := Some "dev2";
                                 hidden_by := None; disabled_by := None |}]};
       devices := <["dev1" := {| dev_area_id := Some "kitchen" |}]>
                    {["dev2" := {| dev_area_id := None |}]} |} in
  getEntityAreaId (Some hass) "light.lamp" = Some "kitchen"
  ∧ getEntityAreaId (Some hass) "switch.plug" = Some "no_area".
Proof. cbn zeta. split; vm_compute; reflexivity. Qed.

Lemma getEntityAreaId_truthy hass entityId :
  truthy (getEntityAreaId (Some hass) entityId) = true.
Proof.
  unfold getEntityAreaId. cbn zeta.
  destruct (truthy (entities hass !! entityId ≫= area_id)) eqn:Eown; [done|].
  match goal with |- context [if truthy ?d then _ else _] => destruct (truthy d) eqn:Edev end;
    done.
Qed.

(** X30. The guards of [isEntityInHiddenArea] do not change its meaning:
    an entity is reported to be in a hidden area exactly when the area id
    [getEntityAreaId] gives it is one of the hidden sections - without a
    [hass] object, or with no hidden sections, never. *)
Theorem X30_hidden_exactly_when_the_area_is_hidden hiddenSections _hass entityId :
  isEntityInHiddenArea hiddenSections _hass entityId = true
  ↔ ∃ a, getEntityAreaId _hass entityId = Some a ∧ a ∈ hiddenSections.
Proof.
  unfold isEntityInHiddenArea. destruct hiddenSections as [|h hs].
  - cbn. split; [done|]. intros (a & _ & Ha). by apply elem_of_nil in Ha.
  - cbn [length Nat.eqb]. destruct _hass as [hass|].
    + rewrite getEntityAreaId_truthy. cbn [negb].
      destruct (getEntityAreaId (Some hass) entityId) as [a|] eqn:Ea.
      * cbn [default]. rewrite bool_decide_eq_true. split.
        -- intros Hin. by exists a.
        -- by intros (a' & [= <-] & Hin).
      * pose proof (getEntityAreaId_truthy hass entityId) as Ht. by rewrite Ea in Ht.
    + cbn. split; [done|]. by intros (a & [=] & _).
Qed.

Lemma prefix_inv p s : String.prefix p s = true → ∃ r, s = p +:+ r.
Proof.
  revert s. induction p as [|a p IH]; intros s Hp; [by exists s|].
  destruct s as [|b s]; [done|]. cbn in Hp.
  destruct (ascii_dec a b) as [->|]; [|done].
  destruct (IH s Hp) as [r ->]. by exists r.
Qed.

Lemma split_head c s : ∃ l, Js.split c s = Js.before c s :: l.
Proof.
  induction s as [|a s [l IH]]; [by exists []|]. cbn [Js.split Js.before].
  destruct (Ascii.eqb a c); [by eexists|]. rewrite IH. by eexists.
Qed.

Lemma append_assoc_s a b c : (a +:+ b) +:+ c = a +:+ (b +:+ c).
Proof.
  induction a as [|x a IH]; [done|].
  rewrite !NavFacts.append_cons. by rewrite IH.
Qed.

Lemma length_pos_nonempty k : k ≠ "" → 0 < String.length k.
Proof. destruct k; [done|]. cbn. lia. Qed.

(** From inside a dashboard, [navigateToPath] builds its URL on the
    dashboard's key. *)
Lemma navigateToPath_spec path cur key :
  Nav.extractDashboardKey cur = Some key →
  navigateToPath path cur
  = if String.eqb path "" || Js.is_blank path then None
    else
      let newUrl := ("/" +:+ key +:+ "/")
                    +:+ (if Js.startsWith "/" path then Js.slice1 path else path) in
      if Js.includes "/config/" newUrl && negb (Js.includes "/config/" ("/" +:+ key +:+ "/"))
      then None
      else Some newUrl.
Proof.
  intros Hkey. unfold navigateToPath. cbn zeta.
  destruct (String.eqb path "" || Js.is_blank path); [done|].
  set (basePath := if Js.startsWith "/lovelace/" cur then _ else _).
  assert (basePath = "/" +:+ key +:+ "/") as ->; [|done].
  unfold basePath. destruct (Js.startsWith "/lovelace/" cur) eqn:Es.
  - apply prefix_inv in Es as [r ->]. cbn in Hkey. by injection Hkey as <-.
  - destruct (String.eqb_spec cur "/lovelace") as [->|_].
    + cbn in Hkey. by injection Hkey as <-.
    + apply NavFacts.extractDashboardKey_Some in Hkey
        as (Hne & _ & _ & rest & -> & Hrest).
      cbn [Js.split]. destruct (split_head "/" rest) as [l ->]. rewrite Hrest.
      change (Ascii.eqb "/" "/") with true. cbn match.
      rewrite filter_cons_False by (cbn; lia).
      by rewrite filter_cons_True by (by apply length_pos_nonempty).
Qed.

Lemma navigateToPath_url path cur key url :
  Nav.extractDashboardKey cur = Some key →
  navigateToPath path cur = Some url →
  url = ("/" +:+ key +:+ "/")
        +:+ (if Js.startsWith "/" path then Js.slice1 path else path).
Proof.
  intros Hkey. rewrite (navigateToPath_spec _ _ _ Hkey). cbn zeta.
  destruct (_ || _); [done|]. destruct (_ && _); [done|]. by intros [= <-].
Qed.

(** X15. The URL a chip click hands to [history.pushState] is built on
    the current dashboard: whatever the chip carries and whichever chip
    is active, if the click navigates at all, the string passed is
    ["/"], the dashboard key that [DashboardStateManager] reads off the
    current path, ["/"], and then the target path without its leading
    slash, the target being the chip's navigation path, else its group,
    or ["home"] for the active chip. (What the browser makes of dot
    segments in that string is its own business.) *)
Theorem X15_chip_click_url_is_built_on_the_dashboard_key
    editMode activeGroup group navigationPath cur key url :
  Nav.extractDashboardKey cur = Some key →
  handleChipClick editMode activeGroup group navigationPath cur = Some url →
  let targetPath :=
    if bool_decide (group = activeGroup) then "home"
    else default "" (js_or navigationPath group) in
  url = "/" +:+ key +:+ "/"
        +:+ (if Js.startsWith "/" targetPath then Js.slice1 targetPath else targetPath)
  ∧ editMode = false.
Proof.
  intros Hkey Hclick. cbn zeta.
  unfold handleChipClick, navigateToHomePage in Hclick.
  destruct editMode; [done|]. destruct (_ && _); [done|].
  case_bool_decide.
  - rewrite (navigateToPath_url _ _ _ _ Hkey Hclick).
    by rewrite !append_assoc_s.
  - destruct (_ || _); [done|].
    rewrite (navigateToPath_url _ _ _ _ Hkey Hclick).
    by rewrite !append_assoc_s.
Qed.

(** A click on the climate chip while the lights chip is active. *)
Lemma X15_chip_click_url_is_built_on_the_dashboard_key_witness :
  Nav.extractDashboardKey "/apple-home/lights" = Some "apple-home"
  ∧ handleChipClick false (Some "lights") (Some "climate") (Some "/rooms/climate")
      "/apple-home/lights"
    = Some "/apple-home/rooms/climate"
  ∧ "/apple-home/rooms/climate" = "/" +:+ "apple-home" +:+ "/" +:+ "rooms/climate".
Proof.
  assert (Nav.extractDashboardKey "/apple-home/lights" = Some "apple-home") as H1
    by (vm_compute; reflexivity).
  assert (handleChipClick false (Some "lights") (Some "climate") (Some "/rooms/climate")
            "/apple-home/lights"
          = Some "/apple-home/rooms/climate") as H2 by (vm_compute; reflexivity).
  split; [exact H1|]. split; [exact H2|].
  exact (proj1 (X15_chip_click_url_is_built_on_the_dashboard_key _ _ _ _ _ _ _ H1 H2)).
Defined.

Lemma includes_skip kw k s :
  Js.includes "/" k = false → String.prefix "/" kw = true →
  Js.includes kw (k +:+ s) = Js.includes kw s.
Proof.
  intros Hk Hkw. induction k as [|a k IH]; [done|].
  rewrite NavFacts.includes_char_cons in Hk. apply orb_false_iff in Hk as [Ha Hk].
  apply bool_decide_eq_false in Ha.
  rewrite NavFacts.append_cons. cbn [Js.includes]. rewrite IH by done.
  apply NavFacts.prefix_char in Hkw as [r ->]. cbn [String.prefix].
  destruct (ascii_dec "/" a) as [Heq|]; [|done]. by destruct Ha.
Qed.

(** The URL of a dashboard's home view does not look like a
    configuration page. *)
Lemma home_url_is_no_config_url key :
  Js.includes "/" key = false → key ∉ Nav.excludedKeys →
  Js.includes "/config/" (("/" +:+ key +:+ "/") +:+ "home") = false.
Proof.
  intros Hsl Hex.
  rewrite !NavFacts.append_cons, !NavFacts.append_nil, append_assoc_s.
  cbn [Js.includes]. rewrite includes_skip by done.
  change (Js.includes "/config/" ("/" +:+ "home")) with false. rewrite orb_false_r.
  destruct (String.prefix "/config/" (String "/" (key +:+ "/" +:+ "home"))) eqn:Ep; [|done].
  apply prefix_inv in Ep as [r Hr]. exfalso. apply Hex.
  rewrite !NavFacts.append_cons, !NavFacts.append_nil in Hr. injection Hr as Hr.
  assert (Js.before "/" (key +:+ String "/" "home") = "config") as Hb by (by rewrite Hr).
  rewrite NavFacts.before_app in Hb by done. subst key. set_solver.
Qed.

(** X16. A click on the chip of the active group leads to the home view
    of the current dashboard, [/<key>/home], whatever navigation path the
    chip carries. *)
Theorem X16_click_on_active_chip_goes_home group navigationPath cur key :
  group ≠ "" →
  Nav.extractDashboardKey cur = Some key →
  handleChipClick false (Some group) (Some group) navigationPath cur
  = Some ("/" +:+ key +:+ "/home").
Proof.
  intros Hg Hkey. unfold handleChipClick.
  assert (truthy (Some group) = true) as -> by (cbn; by destruct (String.eqb_spec group "")).
  cbn [negb andb]. rewrite bool_decide_eq_true_2 by done.
  unfold navigateToHomePage. rewrite (navigateToPath_spec _ _ _ Hkey).
  change (String.eqb "home" "" || Js.is_blank "home") with false.
  change (Js.startsWith "/" "home") with false. cbn zeta. cbn match.
  apply NavFacts.extractDashboardKey_Some in Hkey as (Hne & Hsl & Hex & _).
  rewrite (home_url_is_no_config_url key Hsl Hex). cbn [andb].
  by rewrite !NavFacts.append_cons, !NavFacts.append_nil, append_assoc_s.
Qed.

Lemma X16_click_on_active_chip_goes_home_witness :
  handleChipClick false (Some "lights") (Some "lights") (Some "rooms/attic")
    "/tablet/lights"
  = Some ("/" +:+ "tablet" +:+ "/home").
Proof.
  apply (X16_click_on_active_chip_goes_home "lights" (Some "rooms/attic")
           "/tablet/lights" "tablet"); [done|vm_compute; reflexivity].
Defined.

Lemma cacheKey_nonempty group entityPart : cacheKey group entityPart ≠ "".
Proof. unfold cacheKey. by destruct group. Qed.

Lemma Map_delete_head k v (m : list (string * string)) :
  NoDup ((k, v) :: m).*1 → Map_delete k ((k, v) :: m) = m.
Proof.
  rewrite fmap_cons, NoDup_cons. intros [Hk _]. unfold Map_delete.
  rewrite filter_cons_False by (cbn; tauto).
  induction m as [|[k' v'] m IH]; [done|].
  rewrite fmap_cons, not_elem_of_cons in Hk. destruct Hk as [Hne Hk].
  rewrite filter_cons_True by (cbn; intros ->; by apply Hne). by rewrite IH.
Qed.

(** What a call leaves of the cache: distinct, non-empty keys, at most
    twenty-one of them. *)
Lemma statusTextCache_step group entityPart compute (cache : list (string * string)) :
  NoDup cache.*1 ∧ Forall (λ k, k ≠ "") cache.*1 ∧ length cache ≤ 21 →
  let cache' := (getGroupStatusText group entityPart compute cache).2 in
  NoDup cache'.*1 ∧ Forall (λ k, k ≠ "") cache'.*1 ∧ length cache' ≤ 21.
Proof.
  intros (Hnd & Hne & Hlen). unfold getGroupStatusText. cbn zeta.
  destruct (Map_has (cacheKey group entityPart) cache) eqn:Hhit; [by cbn [snd]|].
  apply bool_decide_eq_false in Hhit. cbn [snd].
  pose proof (cacheKey_nonempty group entityPart) as Hkey.
  assert (∀ m : list (string * string),
            NoDup m.*1 → Forall (λ k, k ≠ "") m.*1 → cacheKey group entityPart ∉ m.*1 →
            NoDup (Map_set (cacheKey group entityPart) compute m).*1
            ∧ Forall (λ k, k ≠ "") (Map_set (cacheKey group entityPart) compute m).*1
            ∧ length (Map_set (cacheKey group entityPart) compute m) = S (length m)) as Hset.
  { intros m Hm1 Hm2 Hm3. unfold Map_set, Map_has. rewrite bool_decide_eq_false_2 by done.
    rewrite fmap_app, length_app. cbn. repeat apply conj.
    - apply NoDup_app. repeat apply conj; [done| |apply NoDup_singleton].
      intros k Hk Hk'. apply list_elem_of_singleton in Hk'. by subst.
    - apply Forall_app. split; [done|]. by apply Forall_singleton.
    - lia. }
  case_bool_decide as Hfull.
  - destruct cache as [|[firstKey v] rest]; [cbn in Hfull; lia|].
    assert (truthy (Some firstKey) = true) as ->.
    { apply Forall_cons in Hne as [Hf _]. cbn in *.
      by destruct (String.eqb_spec firstKey ""). }
    rewrite Map_delete_head by done.
    rewrite fmap_cons in Hnd, Hne, Hhit. apply NoDup_cons in Hnd as [_ Hnd].
    apply Forall_cons in Hne as [_ Hne]. apply not_elem_of_cons in Hhit as [_ Hhit].
    destruct (Hset rest Hnd Hne Hhit) as (? & ? & Hl). repeat apply conj; try done.
    rewrite Hl. cbn in Hlen. lia.
  - destruct (Hset cache Hnd Hne Hhit) as (? & ? & Hl). repeat apply conj; try done.
    rewrite Hl. lia.
Qed.

(** X17. The status text cache is bounded: however [getGroupStatusText]
    is called, for whatever groups and entities, the cache never holds
    more than twenty-one entries, and never two under the same key. *)
Theorem X17_status_text_cache_is_bounded (calls : list (string * string * string)) :
  let statusTextCache :=
    foldl (λ cache call, (getGroupStatusText call.1.1 call.1.2 call.2 cache).2) [] calls in
  length statusTextCache ≤ 21 ∧ NoDup statusTextCache.*1.
Proof.
  cbn zeta.
  enough (NoDup (foldl (λ cache call,
                   (getGroupStatusText call.1.1 call.1.2 call.2 cache).2) [] calls).*1
          ∧ Forall (λ k, k ≠ "") (foldl (λ cache call,
                   (getGroupStatusText call.1.1 call.1.2 call.2 cache).2) [] calls).*1
          ∧ length (foldl (λ cache call,
                   (getGroupStatusText call.1.1 call.1.2 call.2 cache).2) [] calls) ≤ 21)
    as (? & ? & ?) by done.
  induction calls as [|call calls IH] using rev_ind.
  - cbn. repeat apply conj; [apply NoDup_nil_2|done|lia].
  - rewrite foldl_app. cbn [foldl]. by apply statusTextCache_step.
Qed.

End AppleChipsFacts.

(** ** Attaching and detaching *)

Module AttachFacts.
Import Dom Engine Attach.

Implicit Types (st : gmap Path nat * Library) (t : Element).

Lemma attached_empty : attached (∅, empty_library).
Proof.
  repeat apply conj; cbn.
  - apply NoDup_nil_2.
  - intros s Hs. by apply elem_of_nil in Hs.
  - intros p id Hp. by rewrite lookup_empty in Hp.
  - intros s Hs. by apply elem_of_nil in Hs.
Qed.

(** Two live instances with the same identity are the same instance. *)
Lemma attached_same_id st s s' :
  attached st → s ∈ instances st.2 → s' ∈ instances st.2 →
  sortable_id s = sortable_id s' → s = s'.
Proof.
  intros (Hnd & _) Hs Hs' Hid.
  apply list_elem_of_lookup in Hs as [i Hi]. apply list_elem_of_lookup in Hs' as [j Hj].
  assert (i = j) as ->; [|congruence].
  eapply NoDup_lookup; [exact Hnd| |].
  - by rewrite list_lookup_fmap, Hi.
  - by rewrite list_lookup_fmap, Hj, Hid.
Qed.

Lemma Sortable_destroy_elem s id lib :
  s ∈ instances (Sortable_destroy id lib) ↔ s ∈ instances lib ∧ sortable_id s ≠ id.
Proof. unfold Sortable_destroy. cbn. rewrite list_elem_of_filter. tauto. Qed.

(** Taking down the instance recorded for [e] leaves the table and the
    library in agreement once the record is replaced or deleted. *)
Lemma attached_destroy_recorded st e id :
  attached st → st.1 !! e = Some id →
  let lib := Sortable_destroy id st.2 in
  NoDup (sortable_id <$> instances lib)
  ∧ (∀ s, s ∈ instances lib → el s ≠ e ∧ st.1 !! el s = Some (sortable_id s))
  ∧ (∀ p i, p ≠ e → st.1 !! p = Some i →
            ∃ s, s ∈ instances lib ∧ el s = p ∧ sortable_id s = i)
  ∧ (∀ s, s ∈ instances lib → sortable_id s < next_sortable lib).
Proof.
  intros Hatt He. pose proof Hatt as (Hnd & Hlive & Htbl & Hfresh). cbn zeta.
  repeat apply conj.
  - unfold Sortable_destroy. cbn. eapply sublist_NoDup; [exact Hnd|].
    apply fmap_sublist, sublist_filter.
  - intros s Hs. apply Sortable_destroy_elem in Hs as [Hs Hne].
    split; [|by apply Hlive]. intros Hel. apply Hlive in Hs. rewrite Hel, He in Hs.
    congruence.
  - intros p i Hp Hi. destruct (Htbl p i Hi) as (s & Hs & Hel & Hid).
    exists s. split; [|done]. apply Sortable_destroy_elem. split; [done|].
    intros Heq. destruct (Htbl e id He) as (s' & Hs' & Hel' & Hid').
    assert (s = s') by (eapply attached_same_id; [done..|congruence]). congruence.
  - intros s Hs. apply Sortable_destroy_elem in Hs as [Hs _]. by apply Hfresh.
Qed.

Lemma attached_attach e k st : attached st → attached (attach e k st).
Proof.
  intros Hatt. destruct st as [tbl lib]. unfold attach.
  assert (∃ lib1,
            lib1 = match tbl !! e with
                   | Some existingInstance => Sortable_destroy existingInstance lib
                   | None => lib
                   end
            ∧ next_sortable lib1 = next_sortable lib
            ∧ NoDup (sortable_id <$> instances lib1)
            ∧ (∀ s, s ∈ instances lib1 → el s ≠ e ∧ tbl !! el s = Some (sortable_id s))
            ∧ (∀ p i, p ≠ e → tbl !! p = Some i →
                      ∃ s, s ∈ instances lib1 ∧ el s = p ∧ sortable_id s = i)
            ∧ (∀ s, s ∈ instances lib1 → sortable_id s < next_sortable lib1))
    as (lib1 & <- & Hnext & Hnd & Hlive & Htbl & Hfresh).
  { eexists. split; [reflexivity|]. destruct (tbl !! e) as [id|] eqn:Ee.
    - split; [done|]. by apply (attached_destroy_recorded (tbl, lib) e id).
    - destruct Hatt as (Hnd & Hlive & Htbl & Hfresh). cbn [fst snd] in *.
      repeat apply conj; try done.
      + intros s Hs. split; [|by apply Hlive]. intros Hel. apply Hlive in Hs. congruence.
      + intros p i _ Hi. by apply Htbl. }
  unfold new_Sortable. repeat apply conj; cbn [fst snd instances next_sortable].
  - rewrite fmap_app. apply NoDup_app. repeat apply conj; [done| |apply NoDup_singleton].
    intros i Hi Hi'. apply list_elem_of_fmap in Hi as (s & -> & Hs).
    apply list_elem_of_singleton in Hi'. cbn in Hi'. apply Hfresh in Hs. lia.
  - intros s Hs. apply elem_of_app in Hs as [Hs|Hs].
    + destruct (Hlive s Hs) as [Hne Hl]. by rewrite lookup_insert_ne.
    + apply list_elem_of_singleton in Hs as ->. cbn. by rewrite lookup_insert_eq.
  - intros p i Hp. destruct (decide (p = e)) as [->|Hne].
    + rewrite lookup_insert_eq in Hp. injection Hp as <-.
      eexists. split; [apply elem_of_app; right; apply list_elem_of_singleton; reflexivity|].
      done.
    + rewrite lookup_insert_ne in Hp by done.
      destruct (Htbl p i Hne Hp) as (s & Hs & ? & ?). exists s.
      split; [|done]. apply elem_of_app. by left.
  - intros s Hs. apply elem_of_app in Hs as [Hs|Hs].
    + apply Hfresh in Hs. lia.
    + apply list_elem_of_singleton in Hs as ->. cbn. lia.
Qed.

Lemma attached_detach e st : attached st → attached (detach e st).
Proof.
  intros Hatt. destruct st as [tbl lib]. unfold detach.
  destruct (tbl !! e) as [id|] eqn:Ee; [|done].
  destruct (attached_destroy_recorded (tbl, lib) e id Hatt Ee)
    as (Hnd & Hlive & Htbl & Hfresh).
  repeat apply conj; cbn [fst snd] in *; try done.
  - intros s Hs. destruct (Hlive s Hs) as [Hne Hl]. by rewrite lookup_delete_ne.
  - intros p i Hp. apply lookup_delete_Some in Hp as [Hne Hp]. by apply Htbl.
Qed.

Lemma attached_foldl {A} (f : A → gmap Path nat * Library → gmap Path nat * Library)
    (l : list A) st :
  (∀ a st, attached st → attached (f a st)) →
  attached st → attached (foldl (λ st a, f a st) st l).
Proof.
  intros Hf. revert st. induction l as [|a l IH]; intros st Hst; [done|].
  cbn. apply IH. by apply Hf.
Qed.

Lemma attached_enableChipsCarousel c t st :
  attached st → attached (enableChipsCarousel c t st).
Proof.
  intros Hst. unfold enableChipsCarousel. destruct (querySelector_at _ _ _); [|done].
  by apply attached_attach.
Qed.

Lemma attached_step t st op : attached st → attached (step t st op).
Proof.
  intros Hst. destruct op as [c|c|c]; cbn [step].
  - unfold enableDragAndDrop. cbn zeta.
    assert (attached (foldl (λ st carouselGrid, setupCarouselSortable carouselGrid st)
                        (foldl (λ st gridContainer, setupGridSortable gridContainer st) st
                           (querySelectorAll_at sel_grids t c))
                        (querySelectorAll_at sel_carousels t c))) as Hatt.
    { apply (attached_foldl (λ g st, setupCarouselSortable g st));
        [intros; by apply attached_attach|].
      apply (attached_foldl (λ g st, setupGridSortable g st));
        [intros; by apply attached_attach|done]. }
    destruct (matches_at _ _ _); [|done]. by apply attached_enableChipsCarousel.
  - by apply attached_enableChipsCarousel.
  - unfold disableDragAndDrop. cbn zeta.
    apply (attached_foldl (λ g st, detach g st)); [intros; by apply attached_detach|].
    apply (attached_foldl (λ g st, detach g st)); [intros; by apply attached_detach|done].
Qed.

Lemma attached_run t ops st : attached st → attached (run t ops st).
Proof.
  revert st. induction ops as [|op ops IH]; intros st Hst; [done|].
  cbn. apply IH. by apply attached_step.
Qed.

Lemma filter_none {A} (P : A → Prop) `{!∀ x, Decision (P x)} (l : list A) :
  (∀ x, x ∈ l → ¬ P x) → filter P l = [].
Proof.
  induction l as [|x l IH]; intros Hl; [done|].
  rewrite filter_cons_False by (apply Hl; left). apply IH. intros y Hy. apply Hl. by right.
Qed.

Lemma destroy_all_instances (l : list (Path * nat)) lib :
  instances (foldr (λ kv lib, Sortable_destroy kv.2 lib) lib l)
  = filter (λ s, sortable_id s ∉ l.*2) (instances lib).
Proof.
  induction l as [|[p i] l IH]; cbn [foldr].
  - cbn. induction (instances lib) as [|s ss IHs]; [done|].
    rewrite filter_cons_True by apply not_elem_of_nil. by rewrite <- IHs.
  - unfold Sortable_destroy at 1. cbn [instances snd]. rewrite IH.
    rewrite list_filter_filter. apply list_filter_iff. intros s. cbn.
    rewrite not_elem_of_cons. tauto.
Qed.

(** X18. The table of instances and the sensing library never drift
    apart: after any sequence of [enableDragAndDrop], [enableChipsCarousel]
    and [disableDragAndDrop] calls on a document, every live instance is
    the one recorded for its element, no element has two live instances,
    and [destroy] then leaves no live instance, an empty table and no drag
    visual. *)
Theorem X18_no_instance_is_orphaned t ops m w :
  let st := run t ops (∅, empty_library) in
  (∀ s, s ∈ instances st.2 → st.1 !! el s = Some (sortable_id s))
  ∧ (∀ s s', s ∈ instances st.2 → s' ∈ instances st.2 → el s = el s' → s = s')
  ∧ let r := destroy st m w in
    instances r.1.1.2 = [] ∧ r.1.1.1 = ∅ ∧ dragVisual r.1.2 = None.
Proof.
  cbn zeta. pose proof (attached_run t ops _ attached_empty) as Hatt.
  destruct (run t ops (∅, empty_library)) as [tbl lib] eqn:Er.
  pose proof Hatt as (Hnd & Hlive & Htbl & Hfresh). cbn [fst snd] in *.
  repeat apply conj.
  - done.
  - intros s s' Hs Hs' Hel. apply (attached_same_id (tbl, lib)); try done.
    apply Hlive in Hs, Hs'. rewrite Hel in Hs. congruence.
  - unfold destroy. EngineFacts.split_pairs. cbn [fst snd].
    rewrite destroy_all_instances. apply filter_none. intros s Hs Hn. apply Hn.
    apply Hlive in Hs. apply list_elem_of_fmap. exists (el s, sortable_id s).
    split; [done|]. by apply elem_of_map_to_list.
  - unfold destroy. by EngineFacts.split_pairs.
  - unfold destroy. EngineFacts.split_pairs. cbn [fst snd]. by unfold removeDragVisual.
Qed.

(** Attaching records the element and forgets no other. *)
Lemma attach_keeps e k st p :
  p = e ∨ is_Some (st.1 !! p) → is_Some ((attach e k st).1 !! p).
Proof.
  destruct st as [tbl lib]. unfold attach. EngineFacts.split_pairs. cbn [fst].
  intros [->|Hp].
  - rewrite lookup_insert_eq. by eexists.
  - destruct (decide (p = e)) as [->|Hne].
    + rewrite lookup_insert_eq. by eexists.
    + by rewrite lookup_insert_ne.
Qed.

Lemma foldl_attach_keeps k (l : list Path) st p :
  p ∈ l ∨ is_Some (st.1 !! p) → is_Some ((foldl (λ st e, attach e k st) st l).1 !! p).
Proof.
  revert st. induction l as [|e l IH]; intros st Hp.
  - destruct Hp as [Hp|Hp]; [by apply elem_of_nil in Hp|done].
  - cbn [foldl]. apply IH. destruct Hp as [Hp|Hp].
    + apply elem_of_cons in Hp as [->|Hp]; [|by left].
      right. apply attach_keeps. by left.
    + right. apply attach_keeps. by right.
Qed.

Lemma enableDragAndDrop_keeps c t st p :
  p ∈ querySelectorAll_at sel_grids t c ++ querySelectorAll_at sel_carousels t c
  ∨ is_Some (st.1 !! p) →
  is_Some ((enableDragAndDrop c t st).1 !! p).
Proof.
  intros Hp. unfold enableDragAndDrop. cbn zeta.
  assert (is_Some ((foldl (λ st carouselGrid, setupCarouselSortable carouselGrid st)
                      (foldl (λ st gridContainer, setupGridSortable gridContainer st) st
                         (querySelectorAll_at sel_grids t c))
                      (querySelectorAll_at sel_carousels t c)).1 !! p)) as Hsome.
  { apply (foldl_attach_keeps CarouselSortable). rewrite elem_of_app in Hp.
    destruct Hp as [[Hp|Hp]|Hp]; [right|by left|right].
    - apply (foldl_attach_keeps GridSortable). by left.
    - apply (foldl_attach_keeps GridSortable). by right. }
  destruct (matches_at _ _ _); [|done]. unfold enableChipsCarousel.
  destruct (querySelector_at _ _ _); [|done]. apply attach_keeps. by right.
Qed.

Lemma attach_run_snoc t ops op st : run t (ops ++ [op]) st = step t (run t ops st) op.
Proof. unfold run. by rewrite foldl_app. Qed.

(** X19. [enableDragAndDrop] leaves every grid and every card carousel
    below the container with a live instance of the sensing library,
    recorded for it in the table - whatever was attached or detached
    before. *)
Theorem X19_enable_attaches_every_grid_and_carousel t ops container g :
  g ∈ querySelectorAll_at sel_grids t container
      ++ querySelectorAll_at sel_carousels t container →
  let st := run t (ops ++ [Enable container]) (∅, empty_library) in
  ∃ s, s ∈ instances st.2 ∧ el s = g ∧ st.1 !! g = Some (sortable_id s).
Proof.
  intros Hg. cbn zeta.
  pose proof (attached_run t (ops ++ [Enable container]) _ attached_empty)
    as (_ & _ & Htbl & _).
  rewrite attach_run_snoc in *. cbn [step] in *.
  destruct (enableDragAndDrop_keeps container t (run t ops (∅, empty_library)) g
              ltac:(by left)) as [id Hid].
  destruct (Htbl g id Hid) as (s & Hs & Hel & Hsid). exists s. by rewrite Hsid.
Qed.

Lemma X19_enable_attaches_every_grid_and_carousel_witness :
  let st := run Scenario.sample_tree ([Disable []] ++ [Enable []]) (∅, empty_library) in
  [2; 0] ∈ querySelectorAll_at sel_grids Scenario.sample_tree []
             ++ querySelectorAll_at sel_carousels Scenario.sample_tree []
  ∧ ∃ s, s ∈ instances st.2 ∧ el s = [2; 0] ∧ st.1 !! [2; 0] = Some (sortable_id s).
Proof.
  cbn zeta.
  assert ([2; 0] ∈ querySelectorAll_at sel_grids Scenario.sample_tree []
                   ++ querySelectorAll_at sel_carousels Scenario.sample_tree []) as Hin.
  { vm_compute. set_solver. }
  split; [exact Hin|].
  exact (X19_enable_attaches_every_grid_and_carousel Scenario.sample_tree [Disable []]
           [] [2; 0] Hin).
Defined.

Lemma querySelectorAll_at_matches sel t base p :
  p ∈ querySelectorAll_at sel t base → matches_at sel t p = true.
Proof.
  unfold querySelectorAll_at. destruct (get base t) as [e|] eqn:Eb;
    [|intros Hp; by apply elem_of_nil in Hp].
  intros Hp. apply list_elem_of_fmap in Hp as (q & -> & Hq).
  apply list_elem_of_filter in Hq as [Hq _]. unfold matches_at in *.
  by rewrite DomFacts.get_app, Eb.
Qed.

Lemma detach_other e st p :
  p ≠ e → (detach e st).1 !! p = st.1 !! p.
Proof.
  intros Hne. destruct st as [tbl lib]. unfold detach.
  destruct (tbl !! e); [|done]. cbn [fst]. by rewrite lookup_delete_ne.
Qed.

Lemma foldl_detach_other (l : list Path) st p :
  p ∉ l → (foldl (λ st e, detach e st) st l).1 !! p = st.1 !! p.
Proof.
  revert st. induction l as [|e l IH]; intros st Hp; [done|].
  apply not_elem_of_cons in Hp as [Hne Hp]. cbn [foldl]. rewrite IH by done.
  by apply detach_other.
Qed.

(** X20. [disableDragAndDrop] detaches only elements with one of the
    classes [area-entities], [room-group-grid] and [carousel-grid]: an
    instance attached to any other element - such as the [chips-grid] the
    chip row is rendered with - is still recorded and live afterwards,
    whichever container the call is given. *)
Theorem X20_disable_leaves_other_elements_attached t ops container g id :
  let st := run t ops (∅, empty_library) in
  st.1 !! g = Some id →
  matches_at sel_grids t g = false →
  matches_at sel_any_carousel t g = false →
  let st' := disableDragAndDrop container t st in
  st'.1 !! g = Some id
  ∧ ∃ s, s ∈ instances st'.2 ∧ el s = g ∧ sortable_id s = id.
Proof.
  cbn zeta. intros Hg Hgrid Hcar.
  pose proof (attached_run t (ops ++ [Disable container]) _ attached_empty)
    as (_ & _ & Htbl & _).
  rewrite attach_run_snoc in Htbl. cbn [step] in Htbl.
  assert ((disableDragAndDrop container t (run t ops (∅, empty_library))).1 !! g = Some id)
    as Hkept.
  { unfold disableDragAndDrop. cbn zeta.
    rewrite !foldl_detach_other; [done| |].
    - intros Hin. apply querySelectorAll_at_matches in Hin. congruence.
    - intros Hin. apply querySelectorAll_at_matches in Hin. congruence. }
  split; [done|]. by apply Htbl.
Qed.

(** The chip row as [generateHTML] renders it: attached by
    [enableDragAndDrop], still attached after [disableDragAndDrop]. *)
Lemma X20_disable_leaves_other_elements_attached_witness :
  let t := div ["permanent-chips"] no_data
             (Chips.generateHTML false true None
                [Chips.mkChip "climate"; Chips.mkChip "lights"]) in
  let st' := disableDragAndDrop [] t (run t [Enable []] (∅, empty_library)) in
  (classes <$> (props <$> get [1; 0; 0] t)) = Some ["chips-grid"]
  ∧ st'.1 !! [1; 0; 0] = Some 0
  ∧ ∃ s, s ∈ instances st'.2 ∧ el s = [1; 0; 0] ∧ sortable_id s = 0.
Proof.
  cbn zeta. split; [vm_compute; reflexivity|].
  apply (X20_disable_leaves_other_elements_attached
           (div ["permanent-chips"] no_data
              (Chips.generateHTML false true None
                 [Chips.mkChip "climate"; Chips.mkChip "lights"]))
           [Enable []] [] [1; 0; 0] 0); vm_compute; reflexivity.
Defined.

End AttachFacts.

(** ** The placement of the drag visual *)

Module FollowFacts.
Import Dom Engine Session Scroll Follow.

Lemma visual_nodes_create el x y chip m w :
  issued w →
  let r := createDragVisual el x y chip m w in
  ∃ n, visual_nodes r.1 r.2 = [n]
       ∧ placed (width (props el)) (height (props el)) x y n
       ∧ n_width n = width (props el) ∧ n_height n = height (props el)
       ∧ issued r.2.
Proof.
  intros Hiss. cbn zeta. unfold createDragVisual. EngineFacts.split_pairs.
  unfold visual_nodes. cbn [fst snd dragVisual set_dragVisual body set_next_node set_body nid].
  rewrite VisualFacts.removeDragVisual_next_node, VisualFacts.removeDragVisual_body.
  set (b := match dragVisual m with Some id => removeChild id (body w) | None => body w end).
  assert (∀ n, n ∈ b → nid n < next_node w) as Hb.
  { intros n Hn. apply Hiss. unfold b in Hn. destruct (dragVisual m); [|done].
    unfold removeChild in Hn. by apply list_elem_of_filter in Hn as [_ Hn]. }
  eexists. split; [|split; [|split; [|split]]].
  - rewrite filter_app. rewrite AttachFacts.filter_none.
    + rewrite filter_cons_True by done. by rewrite filter_nil.
    + intros n Hn [= Heq]. apply Hb in Hn. lia.
  - by split.
  - done.
  - done.
  - intros n Hn. cbn [body set_next_node set_body next_node] in *.
    apply elem_of_app in Hn as [Hn|Hn].
    + apply Hb in Hn. lia.
    + apply list_elem_of_singleton in Hn as ->. cbn. lia.
Qed.

Lemma visual_nodes_update x y m w :
  visual_nodes m (updateDragVisual x y m w)
  = (λ n, move_node (offsetSize w n).1 (offsetSize w n).2 x y n) <$> visual_nodes m w.
Proof.
  unfold visual_nodes, updateDragVisual. destruct (dragVisual m) as [id|] eqn:Em.
  - cbn [body set_body]. induction (body w) as [|n b IH]; [done|].
    rewrite fmap_cons. case_decide as Hn.
    + rewrite !filter_cons_True by (cbn; congruence). by rewrite fmap_cons, IH.
    + rewrite !filter_cons_False by (intros [= ?]; congruence). exact IH.
  - induction (body w) as [|n b IH]; [done|].
    by rewrite filter_cons_False.
Qed.

Lemma visual_nodes_body m w w' : body w' = body w → visual_nodes m w' = visual_nodes m w.
Proof. unfold visual_nodes. by intros ->. Qed.

Lemma offsetSize_updateDragVisual x y m w :
  offsetSize (updateDragVisual x y m w) = offsetSize w.
Proof. unfold updateDragVisual. by destruct (dragVisual m). Qed.

(** One pointer move on the one drag visual. *)
Lemma move_follows x y m w n rect :
  visual_nodes m w = [n] →
  ∃ n', visual_nodes m (updateDragVisual x y m w) = [n']
        ∧ follows true rect (offsetSize w) x y n'
        ∧ n_width n' = n_width n ∧ n_height n' = n_height n.
Proof.
  intros Hv. rewrite visual_nodes_update, Hv. eexists. split; [reflexivity|].
  split; [|done]. exists n. by repeat split.
Qed.

Lemma grid_handle_move_follows e :
  keeps_following Grid.lastX Grid.lastY (Grid.handle_move e) (carries_position e).
Proof.
  intros c m w n b rect Hv Hf.
  destruct e as [x y|[|[x y] ts]]; cbn [Grid.handle_move fst snd carries_position].
  - rewrite orb_true_r, offsetSize_updateDragVisual.
    destruct (move_follows x y m w n rect Hv) as (n' & ? & ? & ? & ?). by exists n'.
  - rewrite orb_false_r. by exists n.
  - rewrite orb_true_r, offsetSize_updateDragVisual.
    destruct (move_follows x y m w n rect Hv) as (n' & ? & ? & ? & ?). by exists n'.
Qed.

Lemma grid_moves_cons e es c m w :
  Grid.moves (e :: es) c m w
  = Grid.moves es (Grid.handle_move e c m w).1 m (Grid.handle_move e c m w).2.
Proof. unfold Grid.moves. cbn [foldl]. by destruct (Grid.handle_move e c m w). Qed.

Lemma grid_moves_follow es :
  keeps_following Grid.lastX Grid.lastY (Grid.moves es) (existsb carries_position es).
Proof.
  induction es as [|e es IH]; intros c m w n b rect Hv Hf.
  - cbn. rewrite orb_false_r. by exists n.
  - rewrite grid_moves_cons.
    destruct (grid_handle_move_follows e c m w n b rect Hv Hf)
      as (n1 & Hv1 & Ho1 & Hf1 & Hw1 & Hh1).
    rewrite <- Ho1 in Hf1.
    destruct (IH _ m _ n1 _ rect Hv1 Hf1) as (n2 & Hv2 & Ho2 & Hf2 & Hw2 & Hh2).
    exists n2. rewrite Ho2, Ho1 in *. cbn [existsb]. rewrite orb_assoc.
    split; [done|]. split; [done|]. split; [done|]. split; congruence.
Qed.

Lemma item_element_settled q evt w w' :
  settled (tree w') = settled (tree w) →
  width (props (item_element q evt w')) = width (props (item_element q evt w))
  ∧ height (props (item_element q evt w')) = height (props (item_element q evt w)).
Proof.
  intros Hs. unfold item_element.
  pose proof (EngineFacts.get_settled_eq (tree w) (tree w') (item_path q evt) Hs) as Hg.
  destruct (get _ (tree w')) as [e'|], (get _ (tree w)) as [e|]; try done.
  cbn [default]. apply (f_equal props) in Hg. rewrite !EngineFacts.props_settled in Hg.
  split; [by apply (f_equal width) in Hg|by apply (f_equal height) in Hg].
Qed.

(** X21. During a drag on a grid the manager has exactly one drag visual
    in the body, of the size of the dragged item's box. [onStart] places
    it with the middle of that box at the pointer; every pointer move
    that carries a position places it anew, from that position alone and
    the [offsetWidth] and [offsetHeight] the layout reports for the
    visual at that moment: [left = x - offsetWidth / 2] and
    [top = y - offsetHeight / 2], in double arithmetic. *)
Theorem X21_grid_clone_is_placed_at_the_pointer evt es c m w :
  issued w →
  let r1 := Grid.onStart evt c m w in
  let r2 := Grid.moves es r1.1.1 r1.1.2 r1.2 in
  let item := props (item_element (Grid.gridContainer c) evt w) in
  ∃ n, visual_nodes r1.1.2 r2.2 = [n]
       ∧ n_width n = width item ∧ n_height n = height item
       ∧ follows (existsb carries_position es) (width item, height item) (offsetSize w)
           (Grid.lastX r2.1) (Grid.lastY r2.1) n.
Proof.
  intros Hiss. cbn zeta.
  set (item := props (item_element (Grid.gridContainer c) evt w)).
  assert (∃ n, visual_nodes (Grid.onStart evt c m w).1.2 (Grid.onStart evt c m w).2 = [n]
               ∧ offsetSize (Grid.onStart evt c m w).2 = offsetSize w
               ∧ follows false (width item, height item) (offsetSize w)
                   (Grid.lastX (Grid.onStart evt c m w).1.1)
                   (Grid.lastY (Grid.onStart evt c m w).1.1) n
               ∧ n_width n = width item ∧ n_height n = height item)
    as (n & Hv & Ho & Hc & Hw & Hh).
  { unfold Grid.onStart. destruct (start_position evt) as [x y].
    EngineFacts.split_pairs. cbn zeta.
    cbn [fst snd Grid.gridContainer Grid.lastX Grid.lastY Grid.set_last].
    set (w0 := set_controls_visibility _ _ _).
    assert (issued w0) as Hiss0 by exact Hiss.
    assert (width (props (item_element (Grid.gridContainer c) evt w0)) = width item
            ∧ height (props (item_element (Grid.gridContainer c) evt w0)) = height item)
      as [Ew Eh].
    { apply item_element_settled. unfold w0. EngineFacts.wsimpl. by EngineFacts.settle. }
    destruct (visual_nodes_create (item_element (Grid.gridContainer c) evt w0) x y false
                m w0 Hiss0) as (n & Hv & Hc & Hw & Hh & _).
    exists n. split; [|split; [|split; [|split]]].
    - rewrite <- Hv. apply visual_nodes_body. by EngineFacts.frame body.
    - by EngineFacts.frame offsetSize.
    - cbn [follows fst snd]. by rewrite <- Ew, <- Eh.
    - congruence.
    - congruence. }
  rewrite <- Ho in Hc.
  destruct (grid_moves_follow es _ _ _ n false _ Hv Hc) as (n' & Hv' & Ho' & Hc' & Hw' & Hh').
  rewrite Ho in Hc'. exists n'. split; [done|]. split; [congruence|]. split; [congruence|done].
Qed.

(** The second card of the kitchen grid, 150.25 by 96.75 pixels, in a
    browser that reports 150 by 97 for a box of that size: the pointer
    goes down at (10, 20) and moves to (30, 40) and (50, 60). *)
Lemma X21_grid_clone_is_placed_at_the_pointer_witness :
  let c := Grid.setupGridSortable [0] 7 Scenario.laid_out_world in
  let es := [MouseEvent 30 40; TouchEvent []; TouchEvent [(50%float, 60%float)]] in
  let r1 := Grid.onStart (Scenario.mouse_at 1 10 20) c Scenario.sample_manager
              Scenario.laid_out_world in
  let r2 := Grid.moves es r1.1.1 r1.1.2 r1.2 in
  visual_nodes r1.1.2 r1.2
  = [{| nid := 0; className := "drag-visual-clone"; n_left := -65.125; n_top := -28.375;
        n_width := 150.25; n_height := 96.75 |}]
  ∧ visual_nodes r1.1.2 r2.2
    = [{| nid := 0; className := "drag-visual-clone"; n_left := -25; n_top := 11.5;
          n_width := 150.25; n_height := 96.75 |}]
  ∧ ∃ n, visual_nodes r1.1.2 r2.2 = [n]
         ∧ n_width n = 150.25%float ∧ n_height n = 96.75%float
         ∧ follows true (150.25, 96.75)%float rounded_size 50 60 n.
Proof.
  cbn zeta. split; [vm_compute; reflexivity|]. split; [vm_compute; reflexivity|].
  apply (X21_grid_clone_is_placed_at_the_pointer (Scenario.mouse_at 1 10 20)
           [MouseEvent 30 40; TouchEvent []; TouchEvent [(50%float, 60%float)]]
           (Grid.setupGridSortable [0] 7 Scenario.laid_out_world)
           Scenario.sample_manager Scenario.laid_out_world).
  intros n Hn. vm_compute in Hn. by apply elem_of_nil in Hn.
Defined.

(** The scroll handlers of carousels and of the chip row touch neither
    the body nor the recorded pointer position. *)
Lemma carousel_updateScrollSpeed_keeps x c w :
  let r := Carousel.updateScrollSpeed x c w in
  body r.2 = body w ∧ offsetSize r.2 = offsetSize w
  ∧ Carousel.lastX r.1 = Carousel.lastX c
  ∧ Carousel.lastY r.1 = Carousel.lastY c.
Proof.
  cbn zeta. unfold Carousel.updateScrollSpeed. cbn zeta.
  destruct (Carousel.scrollContainer c) as [box|]; [|done].
  destruct (_ || _); [|done]. destruct (_ && _); [|done].
  by rewrite (surjective_pairing (requestAnimationFrame w)).
Qed.

Lemma carousel_animateScroll_keeps c w :
  let r := Carousel.animateScroll c w in
  body r.2 = body w ∧ offsetSize r.2 = offsetSize w
  ∧ Carousel.lastX r.1 = Carousel.lastX c
  ∧ Carousel.lastY r.1 = Carousel.lastY c.
Proof.
  cbn zeta. unfold Carousel.animateScroll. cbn zeta.
  destruct (Carousel.scrollContainer c) as [box|]; [|done].
  destruct (_ =? _)%float; [done|]. destruct (_ || _); [done|].
  by rewrite (surjective_pairing (requestAnimationFrame w)).
Qed.

Lemma chips_updateScrollSpeed_keeps x c w :
  let r := ChipsRow.updateScrollSpeed x c w in
  body r.2 = body w ∧ offsetSize r.2 = offsetSize w
  ∧ ChipsRow.lastX r.1 = ChipsRow.lastX c
  ∧ ChipsRow.lastY r.1 = ChipsRow.lastY c.
Proof.
  cbn zeta. unfold ChipsRow.updateScrollSpeed. cbn zeta.
  destruct (ChipsRow.scrollContainer c) as [box|]; [|done].
  match goal with
  | |- context [negb (ChipsRow.scrollSpeed ?c1 =? 0)%float] => set (c' := c1)
  end.
  assert (ChipsRow.lastX c' = ChipsRow.lastX c ∧ ChipsRow.lastY c' = ChipsRow.lastY c)
    as [HX HY] by (unfold c'; by repeat case_match).
  clearbody c'. destruct (_ && _); [|done].
  by rewrite (surjective_pairing (requestAnimationFrame w)).
Qed.

Lemma chips_smoothScroll_keeps c w :
  let r := ChipsRow.smoothScroll c w in
  body r.2 = body w ∧ offsetSize r.2 = offsetSize w
  ∧ ChipsRow.lastX r.1 = ChipsRow.lastX c
  ∧ ChipsRow.lastY r.1 = ChipsRow.lastY c.
Proof.
  cbn zeta. unfold ChipsRow.smoothScroll. cbn zeta.
  destruct (ChipsRow.scrollContainer c) as [box|]; [|done].
  destruct (negb _); [|done]. destruct (_ || _); [done|].
  by rewrite (surjective_pairing (requestAnimationFrame w)).
Qed.

Lemma carousel_step_follows i :
  keeps_following Carousel.lastX Carousel.lastY (Carousel.step i) (moves_pointer i).
Proof.
  intros c m w n b rect Hv Hf.
  destruct i as [[x y|[|[x y] ts]]|];
    cbn [Carousel.step Carousel.handle_move moves_pointer carries_position].
  - destruct (carousel_updateScrollSpeed_keeps x (Carousel.set_last x y c)
                (updateDragVisual x y m w)) as (Hb & -> & -> & ->).
    rewrite (visual_nodes_body _ _ _ Hb), orb_true_r, offsetSize_updateDragVisual.
    destruct (move_follows x y m w n rect Hv) as (n' & ? & ? & ? & ?). by exists n'.
  - rewrite orb_false_r. by exists n.
  - destruct (carousel_updateScrollSpeed_keeps x (Carousel.set_last x y c)
                (updateDragVisual x y m w)) as (Hb & -> & -> & ->).
    rewrite (visual_nodes_body _ _ _ Hb), orb_true_r, offsetSize_updateDragVisual.
    destruct (move_follows x y m w n rect Hv) as (n' & ? & ? & ? & ?). by exists n'.
  - rewrite orb_false_r.
    destruct (Carousel.scrollAnimationId c); [|by exists n].
    destruct (carousel_animateScroll_keeps c w) as (Hb & -> & -> & ->).
    rewrite (visual_nodes_body _ _ _ Hb). by exists n.
Qed.

Lemma chips_step_follows i :
  keeps_following ChipsRow.lastX ChipsRow.lastY (ChipsRow.step i) (moves_pointer i).
Proof.
  intros c m w n b rect Hv Hf.
  destruct i as [[x y|[|[x y] ts]]|];
    cbn [ChipsRow.step ChipsRow.handle_move moves_pointer carries_position].
  - destruct (chips_updateScrollSpeed_keeps x (ChipsRow.set_last x y c)
                (updateDragVisual x y m w)) as (Hb & -> & -> & ->).
    rewrite (visual_nodes_body _ _ _ Hb), orb_true_r, offsetSize_updateDragVisual.
    destruct (move_follows x y m w n rect Hv) as (n' & ? & ? & ? & ?). by exists n'.
  - rewrite orb_false_r. by exists n.
  - destruct (chips_updateScrollSpeed_keeps x (ChipsRow.set_last x y c)
                (updateDragVisual x y m w)) as (Hb & -> & -> & ->).
    rewrite (visual_nodes_body _ _ _ Hb), orb_true_r, offsetSize_updateDragVisual.
    destruct (move_follows x y m w n rect Hv) as (n' & ? & ? & ? & ?). by exists n'.
  - rewrite orb_false_r.
    destruct (ChipsRow.scrollAnimationId c); [|by exists n].
    destruct (chips_smoothScroll_keeps c w) as (Hb & -> & -> & ->).
    rewrite (visual_nodes_body _ _ _ Hb). by exists n.
Qed.

Lemma carousel_run_follows ins :
  keeps_following Carousel.lastX Carousel.lastY (Carousel.run ins)
    (existsb moves_pointer ins).
Proof.
  induction ins as [|i ins IH]; intros c m w n b rect Hv Hf.
  - cbn. rewrite orb_false_r. by exists n.
  - assert (Carousel.run (i :: ins) c m w
            = Carousel.run ins (Carousel.step i c m w).1 m (Carousel.step i c m w).2) as ->.
    { unfold Carousel.run. cbn [foldl]. by destruct (Carousel.step i c m w). }
    destruct (carousel_step_follows i c m w n b rect Hv Hf)
      as (n1 & Hv1 & Ho1 & Hf1 & Hw1 & Hh1).
    rewrite <- Ho1 in Hf1.
    destruct (IH _ m _ n1 _ rect Hv1 Hf1) as (n2 & Hv2 & Ho2 & Hf2 & Hw2 & Hh2).
    exists n2. rewrite Ho2, Ho1 in *. cbn [existsb]. rewrite orb_assoc.
    split; [done|]. split; [done|]. split; [done|]. split; congruence.
Qed.

Lemma chips_run_follows ins :
  keeps_following ChipsRow.lastX ChipsRow.lastY (ChipsRow.run ins)
    (existsb moves_pointer ins).
Proof.
  induction ins as [|i ins IH]; intros c m w n b rect Hv Hf.
  - cbn. rewrite orb_false_r. by exists n.
  - assert (ChipsRow.run (i :: ins) c m w
            = ChipsRow.run ins (ChipsRow.step i c m w).1 m (ChipsRow.step i c m w).2) as ->.
    { unfold ChipsRow.run. cbn [foldl]. by destruct (ChipsRow.step i c m w). }
    destruct (chips_step_follows i c m w n b rect Hv Hf)
      as (n1 & Hv1 & Ho1 & Hf1 & Hw1 & Hh1).
    rewrite <- Ho1 in Hf1.
    destruct (IH _ m _ n1 _ rect Hv1 Hf1) as (n2 & Hv2 & Ho2 & Hf2 & Hw2 & Hh2).
    exists n2. rewrite Ho2, Ho1 in *. cbn [existsb]. rewrite orb_assoc.
    split; [done|]. split; [done|]. split; [done|]. split; congruence.
Qed.

(** X28. The same in a card carousel, while the container scrolls by
    itself: after [onStart] and any sequence of pointer moves and
    animation frames the manager has exactly one drag visual, of the size
    of the dragged item's box, placed from the last pointer position
    recorded and its offset size; the animation frames leave it where it
    is. *)
Theorem X28_carousel_clone_is_placed_at_the_pointer evt ins c m w :
  issued w →
  let r1 := Carousel.onStart evt c m w in
  let r2 := Carousel.run ins r1.1.1 r1.1.2 r1.2 in
  let item := props (item_element (Carousel.carouselGrid c) evt w) in
  ∃ n, visual_nodes r1.1.2 r2.2 = [n]
       ∧ n_width n = width item ∧ n_height n = height item
       ∧ follows (existsb moves_pointer ins) (width item, height item) (offsetSize w)
           (Carousel.lastX r2.1) (Carousel.lastY r2.1) n.
Proof.
  intros Hiss. cbn zeta.
  set (item := props (item_element (Carousel.carouselGrid c) evt w)).
  assert (∃ n, visual_nodes (Carousel.onStart evt c m w).1.2 (Carousel.onStart evt c m w).2
               = [n]
               ∧ offsetSize (Carousel.onStart evt c m w).2 = offsetSize w
               ∧ follows false (width item, height item) (offsetSize w)
                   (Carousel.lastX (Carousel.onStart evt c m w).1.1)
                   (Carousel.lastY (Carousel.onStart evt c m w).1.1) n
               ∧ n_width n = width item ∧ n_height n = height item)
    as (n & Hv & Ho & Hc & Hw & Hh).
  { unfold Carousel.onStart. destruct (start_position evt) as [x y].
    EngineFacts.split_pairs. cbn zeta.
    cbn [fst snd Carousel.carouselGrid Carousel.lastX Carousel.lastY Carousel.set_last].
    set (w0 := set_controls_visibility _ _ _).
    assert (issued w0) as Hiss0 by exact Hiss.
    assert (width (props (item_element (Carousel.carouselGrid c) evt w0)) = width item
            ∧ height (props (item_element (Carousel.carouselGrid c) evt w0)) = height item)
      as [Ew Eh].
    { apply item_element_settled. unfold w0. EngineFacts.wsimpl. by EngineFacts.settle. }
    destruct (visual_nodes_create (item_element (Carousel.carouselGrid c) evt w0) x y false
                m w0 Hiss0) as (n & Hv & Hc & Hw & Hh & _).
    exists n. split; [|split; [|split; [|split]]].
    - rewrite <- Hv. apply visual_nodes_body. by EngineFacts.frame body.
    - by EngineFacts.frame offsetSize.
    - cbn [follows fst snd]. by rewrite <- Ew, <- Eh.
    - congruence.
    - congruence. }
  rewrite <- Ho in Hc.
  destruct (carousel_run_follows ins _ _ _ n false _ Hv Hc)
    as (n' & Hv' & Ho' & Hc' & Hw' & Hh').
  rewrite Ho in Hc'. exists n'. split; [done|]. split; [congruence|]. split; [congruence|done].
Qed.

(** The second camera card of the kitchen carousel, 150.25 by 96.75
    pixels, dragged to the right edge of the scroll container. *)
Lemma X28_carousel_clone_is_placed_at_the_pointer_witness :
  let c := Carousel.setupCarouselSortable [2; 0] (Some Scroll.sample_box) 7 in
  let ins := [Scroll.Pointer (MouseEvent 30 40); Scroll.Frame; Scroll.Frame;
              Scroll.Pointer (TouchEvent [(390%float, 60%float)]); Scroll.Frame] in
  let r1 := Carousel.onStart (Scenario.mouse_at 1 10 20) c Scenario.sample_manager
              Scenario.laid_out_world in
  let r2 := Carousel.run ins r1.1.1 r1.1.2 r1.2 in
  visual_nodes r1.1.2 r2.2
  = [{| nid := 0; className := "drag-visual-clone"; n_left := 315; n_top := 11.5;
        n_width := 150.25; n_height := 96.75 |}]
  ∧ ∃ n, visual_nodes r1.1.2 r2.2 = [n]
         ∧ n_width n = 150.25%float ∧ n_height n = 96.75%float
         ∧ follows true (150.25, 96.75)%float rounded_size 390 60 n.
Proof.
  cbn zeta. split; [vm_compute; reflexivity|].
  apply (X28_carousel_clone_is_placed_at_the_pointer (Scenario.mouse_at 1 10 20)
           [Scroll.Pointer (MouseEvent 30 40); Scroll.Frame; Scroll.Frame;
            Scroll.Pointer (TouchEvent [(390%float, 60%float)]); Scroll.Frame]
           (Carousel.setupCarouselSortable [2; 0] (Some Scroll.sample_box) 7)
           Scenario.sample_manager Scenario.laid_out_world).
  intros n Hn. vm_compute in Hn. by apply elem_of_nil in Hn.
Defined.

(** X29. The same for the chip row, whose drag visual is created from
    the dragged chip wrapper. *)
Theorem X29_chip_clone_is_placed_at_the_pointer evt ins c m w :
  issued w →
  let r1 := ChipsRow.onStart evt c m w in
  let r2 := ChipsRow.run ins r1.1.1 r1.1.2 r1.2 in
  let item := props (item_element (ChipsRow.chipsCarousel c) evt w) in
  ∃ n, visual_nodes r1.1.2 r2.2 = [n]
       ∧ n_width n = width item ∧ n_height n = height item
       ∧ follows (existsb moves_pointer ins) (width item, height item) (offsetSize w)
           (ChipsRow.lastX r2.1) (ChipsRow.lastY r2.1) n.
Proof.
  intros Hiss. cbn zeta.
  set (item := props (item_element (ChipsRow.chipsCarousel c) evt w)).
  assert (∃ n, visual_nodes (ChipsRow.onStart evt c m w).1.2 (ChipsRow.onStart evt c m w).2
               = [n]
               ∧ offsetSize (ChipsRow.onStart evt c m w).2 = offsetSize w
               ∧ follows false (width item, height item) (offsetSize w)
                   (ChipsRow.lastX (ChipsRow.onStart evt c m w).1.1)
                   (ChipsRow.lastY (ChipsRow.onStart evt c m w).1.1) n
               ∧ n_width n = width item ∧ n_height n = height item)
    as (n & Hv & Ho & Hc & Hw & Hh).
  { unfold ChipsRow.onStart. destruct (start_position evt) as [x y].
    EngineFacts.split_pairs. cbn zeta.
    cbn [fst snd ChipsRow.chipsCarousel ChipsRow.lastX ChipsRow.lastY ChipsRow.set_last].
    set (w0 := mark_dragging _ _ _).
    assert (issued w0) as Hiss0 by exact Hiss.
    assert (width (props (item_element (ChipsRow.chipsCarousel c) evt w0)) = width item
            ∧ height (props (item_element (ChipsRow.chipsCarousel c) evt w0)) = height item)
      as [Ew Eh].
    { apply item_element_settled. unfold w0. EngineFacts.wsimpl. by EngineFacts.settle. }
    destruct (visual_nodes_create (item_element (ChipsRow.chipsCarousel c) evt w0) x y true
                m w0 Hiss0) as (n & Hv & Hc & Hw & Hh & _).
    exists n. split; [|split; [|split; [|split]]].
    - rewrite <- Hv. apply visual_nodes_body. by EngineFacts.frame body.
    - by EngineFacts.frame offsetSize.
    - cbn [follows fst snd]. by rewrite <- Ew, <- Eh.
    - congruence.
    - congruence. }
  rewrite <- Ho in Hc.
  destruct (chips_run_follows ins _ _ _ n false _ Hv Hc)
    as (n' & Hv' & Ho' & Hc' & Hw' & Hh').
  rewrite Ho in Hc'. exists n'. split; [done|]. split; [congruence|]. split; [congruence|done].
Qed.

(** The first chip of the rendered chip row, 83.25 by 32.75 pixels. *)
Lemma X29_chip_clone_is_placed_at_the_pointer_witness :
  let w := Scenario.laid_out_world in
  let c := default Scenario.sample_chips_closure
             (ChipsRow.enableChipsCarousel [4] (Some Scroll.narrow_box) 7 w) in
  let ins := [Scroll.Pointer (MouseEvent 30 40); Scroll.Frame;
              Scroll.Pointer (MouseEvent 75 12)] in
  let r1 := ChipsRow.onStart (Scenario.mouse_at 0 10 20) c Scenario.sample_manager w in
  let r2 := ChipsRow.run ins r1.1.1 r1.1.2 r1.2 in
  visual_nodes r1.1.2 r2.2
  = [{| nid := 0; className := "drag-visual-clone chip"; n_left := 33.5; n_top := -4.5;
        n_width := 83.25; n_height := 32.75 |}]
  ∧ ∃ n, visual_nodes r1.1.2 r2.2 = [n]
         ∧ n_width n = 83.25%float ∧ n_height n = 32.75%float
         ∧ follows true (83.25, 32.75)%float rounded_size 75 12 n.
Proof.
  cbn zeta. split; [vm_compute; reflexivity|].
  apply (X29_chip_clone_is_placed_at_the_pointer (Scenario.mouse_at 0 10 20)
           [Scroll.Pointer (MouseEvent 30 40); Scroll.Frame;
            Scroll.Pointer (MouseEvent 75 12)]
           (default Scenario.sample_chips_closure
              (ChipsRow.enableChipsCarousel [4] (Some Scroll.narrow_box) 7
                 Scenario.laid_out_world))
           Scenario.sample_manager Scenario.laid_out_world).
  intros n Hn. vm_compute in Hn. by apply elem_of_nil in Hn.
Defined.

End FollowFacts.

(** ** The chip row: from the markup to the saved order and back *)

Module ChipsRoundTrip.
Import Dom Session Chips.

(** X22. [updateChipsOrder] saves what is on the screen: in the markup
    [generateHTML] renders, whatever the layout and whatever marks a drag
    has left, [enableChipsCarousel] finds the chips grid, and
    [updateChipsOrder] called on that grid hands to the host the groups of
    the rendered chips, in rendering order, without empty group names.
    (On this markup the chip row's own [onEnd] does not come to make that
    call.) *)
Theorem X22_updateChipsOrder_saves_the_rendered_order
    rtl editMode activeGroup chips container scroll h m cm w :
  rendered_at rtl editMode activeGroup chips container (Engine.tree w) →
  Engine.customizationManager m = Some cm →
  ∃ c, ChipsRow.enableChipsCarousel container scroll h w = Some c
       ∧ ChipsRow.chipsCarousel c = container ++ [1; 0; 0]
       ∧ Engine.effects (updateChipsOrder (ChipsRow.chipsCarousel c) m w)
         = Engine.effects w
             ++ [Engine.SaveChipsOrder (filter (λ g, g ≠ "") (group <$> chips))].
Proof.
  intros Hr Hcm. unfold ChipsRow.enableChipsCarousel.
  rewrite (DragClaims.rendered_at_found _ _ _ _ _ _ Hr).
  eexists. split; [reflexivity|]. split; [reflexivity|].
  cbn [ChipsRow.chipsCarousel]. unfold updateChipsOrder.
  destruct (DragClaims.rendered_at_grid _ _ _ _ _ _ Hr) as (p & Hg & _).
  rewrite EngineFacts.markup_get in Hg.
  destruct (get (container ++ [1; 0; 0]) (Engine.tree w)) as [g|]; [|done].
  cbn in Hg. injection Hg as Hg. rewrite Hcm.
  by rewrite <- EngineFacts.chips_order_markup, Hg, MarkupFacts.chips_order_rendered.
Qed.

(** The chips container of the sample dashboard after layout, the second
    chip carrying the mark of a drag. *)
Lemma X22_updateChipsOrder_saves_the_rendered_order_witness :
  let w := Session.mark_dragging [4; 1; 0; 0]
             {| Session.item := 1; Session.originalEvent := None |} Scenario.laid_out_world in
  ∃ c, ChipsRow.enableChipsCarousel [4] None 7 w = Some c
       ∧ ChipsRow.chipsCarousel c = [4; 1; 0; 0]
       ∧ Engine.effects (updateChipsOrder (ChipsRow.chipsCarousel c) Scenario.sample_manager w)
         = [Engine.SaveChipsOrder ["climate"; "lights"; "security"]].
Proof.
  cbn zeta.
  apply (X22_updateChipsOrder_saves_the_rendered_order false true None
           [mkChip "climate"; mkChip "lights"; mkChip "security"] [4] None 7
           Scenario.sample_manager {| getSavedChipsOrder := [] |}).
  - vm_compute. reflexivity.
  - reflexivity.
Defined.

Lemma omap_chip_of_group chips' (chips : list ChipData) :
  NoDup (group <$> chips') → (∀ c, c ∈ chips → c ∈ chips') →
  omap (chip_of_group chips') (group <$> chips) = chips.
Proof.
  intros Hnd Hsub. induction chips as [|c chips IH]; [done|].
  rewrite fmap_cons.
  change (omap ?f (?x :: ?l))
    with (match f x with Some y => y :: omap f l | None => omap f l end).
  rewrite ChipsFacts.chip_of_group_elem by (try done; apply Hsub; left).
  f_equal. apply IH. intros c' Hc'. apply Hsub. by right.
Qed.

(** X23. A saved order survives the next render: applied to the chips in
    whatever order [updateChipData] has rebuilt them, the order saved from
    the screen gives back the chips exactly as they were on the screen,
    provided no two chips share a group. *)
Theorem X23_saved_order_restores_the_arrangement (chips chips' : list ChipData) :
  NoDup (group <$> chips) →
  chips' ≡ₚ chips →
  applySavedChipsOrder (Some {| getSavedChipsOrder := group <$> chips |}) chips' = chips.
Proof.
  intros Hnd Hperm.
  assert (NoDup (group <$> chips')) as Hnd' by (by rewrite Hperm).
  rewrite ChipsFacts.applySavedChipsOrder_spec by done.
  unfold saved_then_rest. cbn [getSavedChipsOrder].
  rewrite omap_chip_of_group; [|done|by intros c; rewrite Hperm].
  rewrite AttachFacts.filter_none; [by rewrite app_nil_r|].
  intros c Hc Hn. apply Hn. apply list_elem_of_fmap_2. by rewrite <- Hperm.
Qed.

Lemma X23_saved_order_restores_the_arrangement_witness :
  let built := [mkChip "climate"; mkChip "lights"; mkChip "security"] in
  let shown := [mkChip "security"; mkChip "climate"; mkChip "lights"] in
  applySavedChipsOrder (Some {| getSavedChipsOrder := group <$> shown |}) built = shown.
Proof.
  cbn zeta.
  apply (X23_saved_order_restores_the_arrangement
           [mkChip "security"; mkChip "climate"; mkChip "lights"]
           [mkChip "climate"; mkChip "lights"; mkChip "security"]).
  - apply (bool_decide_unpack _). vm_compute. exact I.
  - apply (Permutation_app_comm [mkChip "climate"; mkChip "lights"] [mkChip "security"]).
Defined.

End ChipsRoundTrip.

(** ** The auto-scroll loop *)

Module LoopFacts.
Import Dom Engine Session Scroll Loop.

Lemma requests_requestAnimationFrame w :
  requests (requestAnimationFrame w).2 = S (requests w).
Proof.
  unfold requests, requestAnimationFrame, emit. cbn [snd effects set_effects set_next_frame].
  rewrite filter_app, length_app, filter_cons_True by done. cbn. lia.
Qed.

Lemma requests_updateDragVisual x y m w : requests (updateDragVisual x y m w) = requests w.
Proof. unfold requests, updateDragVisual. by destruct (dragVisual m). Qed.

(** A pointer move on a carousel requests a frame only when none is
    outstanding. *)
Lemma carousel_updateScrollSpeed_requests x c w :
  let r := Carousel.updateScrollSpeed x c w in
  requests r.2 + pending (Carousel.scrollAnimationId c)
  = requests w + pending (Carousel.scrollAnimationId r.1).
Proof.
  cbn zeta. unfold Carousel.updateScrollSpeed.
  destruct (Carousel.scrollContainer c) as [box|]; [|done]. cbn zeta.
  destruct (_ || _); [|done].
  cbn [Carousel.currentScrollSpeed Carousel.set_currentScrollSpeed
       Carousel.scrollAnimationId].
  destruct (negb _ && bool_decide _) eqn:E; [|done].
  apply andb_true_iff in E as [_ E]. apply bool_decide_eq_true in E.
  EngineFacts.split_pairs. cbn [fst snd Carousel.scrollAnimationId Carousel.set_scrollAnimationId].
  rewrite requests_requestAnimationFrame, E. cbn. lia.
Qed.

Lemma chips_updateScrollSpeed_requests x c w :
  let r := ChipsRow.updateScrollSpeed x c w in
  requests r.2 + pending (ChipsRow.scrollAnimationId c)
  = requests w + pending (ChipsRow.scrollAnimationId r.1).
Proof.
  cbn zeta. unfold ChipsRow.updateScrollSpeed.
  destruct (ChipsRow.scrollContainer c) as [box|]; [|done]. cbn zeta.
  match goal with
  | |- context [negb (ChipsRow.scrollSpeed ?c1 =? 0)%float] => set (c' := c1)
  end.
  assert (ChipsRow.scrollAnimationId c' = ChipsRow.scrollAnimationId c) as Hid
    by (unfold c'; by repeat case_match).
  clearbody c'. destruct (negb _ && bool_decide _) eqn:E; [|cbn [fst snd]; by rewrite Hid].
  apply andb_true_iff in E as [_ E]. apply bool_decide_eq_true in E.
  EngineFacts.split_pairs. cbn [fst snd ChipsRow.scrollAnimationId ChipsRow.set_scrollAnimationId].
  rewrite requests_requestAnimationFrame. rewrite <- Hid, E. cbn. lia.
Qed.

(** A frame that runs uses up the outstanding request and makes at most
    one new one. *)
Lemma carousel_animateScroll_requests c w :
  let r := Carousel.animateScroll c w in
  requests r.2 = requests w + pending (Carousel.scrollAnimationId r.1).
Proof.
  cbn zeta. unfold Carousel.animateScroll.
  destruct (Carousel.scrollContainer c) as [box|]; [|cbn; lia].
  destruct (_ =? _)%float; [cbn; lia|]. cbn zeta.
  destruct (_ || _); [cbn; lia|].
  EngineFacts.split_pairs. cbn [fst snd Carousel.scrollAnimationId Carousel.set_scrollAnimationId].
  rewrite requests_requestAnimationFrame. cbn. lia.
Qed.

Lemma chips_smoothScroll_requests c w :
  let r := ChipsRow.smoothScroll c w in
  requests r.2 = requests w + pending (ChipsRow.scrollAnimationId r.1).
Proof.
  cbn zeta. unfold ChipsRow.smoothScroll.
  destruct (ChipsRow.scrollContainer c) as [box|]; [|cbn; lia].
  destruct (negb _); [|cbn; lia]. cbn zeta.
  destruct (_ || _); [cbn; lia|].
  EngineFacts.split_pairs. cbn [fst snd ChipsRow.scrollAnimationId ChipsRow.set_scrollAnimationId].
  rewrite requests_requestAnimationFrame. cbn. lia.
Qed.

Lemma carousel_step_requests i c m w :
  let r := Carousel.step i c m w in
  requests r.2 + pending (Carousel.scrollAnimationId c)
  ≤ requests w + frames [i] + pending (Carousel.scrollAnimationId r.1).
Proof.
  cbn zeta. destruct i as [e|]; cbn [Carousel.step].
  - destruct e as [x y|[|[x y] ts]]; cbn [Carousel.handle_move fst snd]; [|cbn; lia|].
    + pose proof (carousel_updateScrollSpeed_requests x (Carousel.set_last x y c)
                    (updateDragVisual x y m w)) as H.
      cbn zeta in H. rewrite requests_updateDragVisual in H.
      cbn [Carousel.scrollAnimationId Carousel.set_last] in H. cbn [frames]. cbn. lia.
    + pose proof (carousel_updateScrollSpeed_requests x (Carousel.set_last x y c)
                    (updateDragVisual x y m w)) as H.
      cbn zeta in H. rewrite requests_updateDragVisual in H.
      cbn [Carousel.scrollAnimationId Carousel.set_last] in H. cbn. lia.
  - destruct (Carousel.scrollAnimationId c) as [id|] eqn:Eid;
      [|cbn [fst snd]; rewrite Eid; cbn; lia].
    pose proof (carousel_animateScroll_requests c w) as H. cbn zeta in H.
    change (frames [Frame]) with 1. cbn [pending]. lia.
Qed.

Lemma chips_step_requests i c m w :
  let r := ChipsRow.step i c m w in
  requests r.2 + pending (ChipsRow.scrollAnimationId c)
  ≤ requests w + frames [i] + pending (ChipsRow.scrollAnimationId r.1).
Proof.
  cbn zeta. destruct i as [e|]; cbn [ChipsRow.step].
  - destruct e as [x y|[|[x y] ts]]; cbn [ChipsRow.handle_move fst snd]; [|cbn; lia|].
    + pose proof (chips_updateScrollSpeed_requests x (ChipsRow.set_last x y c)
                    (updateDragVisual x y m w)) as H.
      cbn zeta in H. rewrite requests_updateDragVisual in H.
      cbn [ChipsRow.scrollAnimationId ChipsRow.set_last] in H. cbn. lia.
    + pose proof (chips_updateScrollSpeed_requests x (ChipsRow.set_last x y c)
                    (updateDragVisual x y m w)) as H.
      cbn zeta in H. rewrite requests_updateDragVisual in H.
      cbn [ChipsRow.scrollAnimationId ChipsRow.set_last] in H. cbn. lia.
  - destruct (ChipsRow.scrollAnimationId c) as [id|] eqn:Eid;
      [|cbn [fst snd]; rewrite Eid; cbn; lia].
    pose proof (chips_smoothScroll_requests c w) as H. cbn zeta in H.
    change (frames [Frame]) with 1. cbn [pending]. lia.
Qed.

Lemma frames_cons i ins : frames (i :: ins) = frames [i] + frames ins.
Proof. unfold frames. rewrite (filter_app _ [i] ins), length_app. done. Qed.

Lemma carousel_run_cons i ins c m w :
  Carousel.run (i :: ins) c m w
  = Carousel.run ins (Carousel.step i c m w).1 m (Carousel.step i c m w).2.
Proof. unfold Carousel.run. cbn [foldl]. by destruct (Carousel.step i c m w). Qed.

Lemma chips_run_cons i ins c m w :
  ChipsRow.run (i :: ins) c m w
  = ChipsRow.run ins (ChipsRow.step i c m w).1 m (ChipsRow.step i c m w).2.
Proof. unfold ChipsRow.run. cbn [foldl]. by destruct (ChipsRow.step i c m w). Qed.

(** X24. A card carousel never runs two scroll loops: over any sequence
    of pointer moves and animation frames, the number of
    [requestAnimationFrame] calls made is at most the number of frames the
    browser ran, plus one if a request is outstanding at the end, minus
    one if one was outstanding at the start. *)
Theorem X24_carousel_requests_one_frame_at_a_time ins c m w :
  let r := Carousel.run ins c m w in
  requests r.2 + pending (Carousel.scrollAnimationId c)
  ≤ requests w + frames ins + pending (Carousel.scrollAnimationId r.1).
Proof.
  cbn zeta. revert c w. induction ins as [|i ins IH]; intros c w; [cbn; lia|].
  rewrite carousel_run_cons, frames_cons.
  pose proof (carousel_step_requests i c m w) as Hs. cbn zeta in Hs.
  specialize (IH (Carousel.step i c m w).1 (Carousel.step i c m w).2). lia.
Qed.

(** X25. The same for the chip row: at most one frame request is
    outstanding at any time. *)
Theorem X25_chip_row_requests_one_frame_at_a_time ins c m w :
  let r := ChipsRow.run ins c m w in
  requests r.2 + pending (ChipsRow.scrollAnimationId c)
  ≤ requests w + frames ins + pending (ChipsRow.scrollAnimationId r.1).
Proof.
  cbn zeta. revert c w. induction ins as [|i ins IH]; intros c w; [cbn; lia|].
  rewrite chips_run_cons, frames_cons.
  pose proof (chips_step_requests i c m w) as Hs. cbn zeta in Hs.
  specialize (IH (ChipsRow.step i c m w).1 (ChipsRow.step i c m w).2). lia.
Qed.

(** X26. Leaving the edge zones stops a carousel's scroll loop: after a
    pointer move to a position that the handler does not find within a
    zone's width of either edge of the scroll container, the speed is
    zero, and the next animation frame ends the loop - no frame is
    outstanding, no new one has been requested, and the container has not
    been scrolled. *)
Theorem X26_carousel_loop_ends_outside_the_zones x y c m w box :
  Carousel.scrollContainer c = Some box →
  (x - rect_left box <? 100)%float = false →
  (rect_right box - x <? 100)%float = false →
  let r1 := Carousel.step (Pointer (MouseEvent x y)) c m w in
  let r2 := Carousel.step Frame r1.1 m r1.2 in
  (Carousel.currentScrollSpeed r2.1 =? 0)%float = true
  ∧ Carousel.scrollAnimationId r2.1 = None
  ∧ Carousel.scrollContainer r2.1 = Some box
  ∧ requests r2.2 = requests w.
Proof.
  intros Hbox HL HR. cbn zeta. cbn [Carousel.step Carousel.handle_move].
  assert (∃ c1, Carousel.updateScrollSpeed x (Carousel.set_last x y c)
                  (updateDragVisual x y m w) = (c1, updateDragVisual x y m w)
                ∧ (Carousel.currentScrollSpeed c1 =? 0)%float = true
                ∧ Carousel.scrollContainer c1 = Some box
                ∧ Carousel.scrollAnimationId c1 = Carousel.scrollAnimationId c)
    as (c1 & -> & Hsp & Hb & Hid).
  { unfold Carousel.updateScrollSpeed.
    cbn [Carousel.scrollContainer Carousel.set_last]. rewrite Hbox. cbn zeta.
    rewrite HL, HR.
    cbn [andb]. cbn [Carousel.currentScrollSpeed Carousel.set_last].
    destruct ((0.5 <? abs (0 - Carousel.currentScrollSpeed c))%float
              || (0 =? 0)%float && negb (Carousel.currentScrollSpeed c =? 0)%float) eqn:E.
    - cbn [Carousel.currentScrollSpeed Carousel.set_currentScrollSpeed].
      change (negb (0 =? 0)%float) with false. cbn [andb].
      eexists. split; [reflexivity|]. by cbn.
    - eexists. split; [reflexivity|]. cbn. repeat apply conj; try done.
      apply orb_false_iff in E as [_ E]. change (0 =? 0)%float with true in E.
      cbn [andb] in E. by apply negb_false_iff in E. }
  cbn [fst snd]. rewrite <- (requests_updateDragVisual x y m w).
  destruct (Carousel.scrollAnimationId c1) as [id|] eqn:Eid.
  - unfold Carousel.animateScroll. rewrite Hb, Hsp. by cbn.
  - by cbn.
Qed.

Lemma X26_carousel_loop_ends_outside_the_zones_witness :
  let c := Carousel.set_scrollAnimationId (Some 4)
             (Carousel.set_currentScrollSpeed (- 9)
                (Carousel.setupCarouselSortable [2; 0] (Some sample_box) 7)) in
  let r1 := Carousel.step (Pointer (MouseEvent 200 50)) c Scenario.sample_manager
              Scenario.sample_world in
  let r2 := Carousel.step Frame r1.1 Scenario.sample_manager r1.2 in
  (Carousel.currentScrollSpeed r2.1 =? 0)%float = true
  ∧ Carousel.scrollAnimationId r2.1 = None
  ∧ Carousel.scrollContainer r2.1 = Some sample_box
  ∧ requests r2.2 = requests Scenario.sample_world.
Proof.
  cbn zeta.
  apply (X26_carousel_loop_ends_outside_the_zones 200 50
           (Carousel.set_scrollAnimationId (Some 4)
              (Carousel.set_currentScrollSpeed (- 9)
                 (Carousel.setupCarouselSortable [2; 0] (Some sample_box) 7)))
           Scenario.sample_manager Scenario.sample_world sample_box).
  - reflexivity.
  - vm_compute. reflexivity.
  - vm_compute. reflexivity.
Defined.

(** X27. The same for the chip row, whose zones are 80 wide. *)
Theorem X27_chip_row_loop_ends_outside_the_zones x y c m w box :
  ChipsRow.scrollContainer c = Some box →
  (x - rect_left box <? 80)%float = false →
  (rect_right box - x <? 80)%float = false →
  let r1 := ChipsRow.step (Pointer (MouseEvent x y)) c m w in
  let r2 := ChipsRow.step Frame r1.1 m r1.2 in
  ChipsRow.scrollSpeed r2.1 = 0%float
  ∧ ChipsRow.scrollAnimationId r2.1 = None
  ∧ ChipsRow.scrollContainer r2.1 = Some box
  ∧ requests r2.2 = requests w.
Proof.
  intros Hbox HL HR. cbn zeta. cbn [ChipsRow.step ChipsRow.handle_move].
  assert (ChipsRow.updateScrollSpeed x (ChipsRow.set_last x y c) (updateDragVisual x y m w)
          = (ChipsRow.set_scrollSpeed 0 (ChipsRow.set_last x y c),
             updateDragVisual x y m w)) as ->.
  { unfold ChipsRow.updateScrollSpeed.
    cbn [ChipsRow.scrollContainer ChipsRow.set_last]. rewrite Hbox. cbn zeta.
    rewrite HL, HR.
    cbn [andb]. cbn [ChipsRow.scrollSpeed ChipsRow.set_scrollSpeed].
    change (negb (0 =? 0)%float) with false. by cbn [andb]. }
  cbn [fst snd]. rewrite <- (requests_updateDragVisual x y m w).
  cbn [ChipsRow.scrollAnimationId ChipsRow.set_scrollSpeed ChipsRow.set_last].
  destruct (ChipsRow.scrollAnimationId c) as [id|] eqn:Eid.
  - unfold ChipsRow.smoothScroll.
    cbn [ChipsRow.scrollContainer ChipsRow.set_scrollSpeed ChipsRow.set_last
         ChipsRow.scrollSpeed]. rewrite Hbox.
    change (negb (0 =? 0)%float) with false. by cbn.
  - by cbn.
Qed.

Lemma X27_chip_row_loop_ends_outside_the_zones_witness :
  let c := ChipsRow.set_scrollAnimationId (Some 4)
             (ChipsRow.set_scrollSpeed 7
                (ChipsRow.set_scrollContainer (Some sample_box)
                   Scenario.sample_chips_closure)) in
  let r1 := ChipsRow.step (Pointer (MouseEvent 200 50)) c Scenario.sample_manager
              Scenario.sample_world in
  let r2 := ChipsRow.step Frame r1.1 Scenario.sample_manager r1.2 in
  ChipsRow.scrollSpeed r2.1 = 0%float
  ∧ ChipsRow.scrollAnimationId r2.1 = None
  ∧ ChipsRow.scrollContainer r2.1 = Some sample_box
  ∧ requests r2.2 = requests Scenario.sample_world.
Proof.
  cbn zeta.
  apply (X27_chip_row_loop_ends_outside_the_zones 200 50
           (ChipsRow.set_scrollAnimationId (Some 4)
              (ChipsRow.set_scrollSpeed 7
                 (ChipsRow.set_scrollContainer (Some sample_box)
                    Scenario.sample_chips_closure)))
           Scenario.sample_manager Scenario.sample_world sample_box).
  - reflexivity.
  - vm_compute. reflexivity.
  - vm_compute. reflexivity.
Defined.

End LoopFacts.
